(** * 2SF2ROM: the PSF container and the 2SF loader, embedded in Rocq

    A shallow embedding of [byteio.hpp], [psf_file.cpp] and the two
    listings of [2sf2rom.cpp], followed by the properties of the
    specification that were checked against them.

    Conventions.
    - A [std::string] and a [std::vector<char>] are byte sequences:
      [list ascii].  String literals are written [str "..."].
    - [uint8_t], [uint32_t], [size_t] and [uintmax_t] values are [Z] with the
      wrap-around of their width written out ([wrap32], [wrap64]);
      [unsigned int] is 32 bits wide, [size_t] and [uintmax_t] 64 bits.
    - [std::unordered_map<std::string, std::string>] is a [gmap]; the order in
      which it is iterated is left open.
    - Exceptions are values: a function that can throw returns its error or
      its result, and [load_2sf], which works on the rom vector it is given,
      returns the machine it leaves behind together with the way it ended. *)

From Stdlib Require Import ZArith Ascii String List Lia.
From stdpp Require Import gmap strings list fin_maps pretty.

Open Scope Z_scope.

(** ** Bytes *)

Abbreviation bytes := (list ascii).

Definition str (s : string) : bytes := list_ascii_of_string s.

(** [static_cast<unsigned char>(c)] *)
Definition byte_val (c : ascii) : Z := Z.of_N (N_of_ascii c).

(** [static_cast<char>(v)] for [0 <= v < 256] *)
Definition byte_of (v : Z) : ascii := ascii_of_N (Z.to_N v).

Definition wrap32 (z : Z) : Z := z mod 2 ^ 32.
Definition wrap64 (z : Z) : Z := z mod 2 ^ 64.

Definition len (s : bytes) : Z := Z.of_nat (length s).

Definition bytes_eqb (a b : bytes) : bool := bool_decide (a = b).

Definition nl : ascii := ascii_of_nat 10.

(** ** byteio.hpp *)

Module ByteIO.

(** An input stream is the sequence of bytes not yet consumed.  [in.read(buf, n)]
    delivers [min n (remaining)] bytes; [in.gcount()] is their number. *)
Definition istream_read (n : Z) (ins : bytes) : bytes * bytes :=
  (take (Z.to_nat n) ins, drop (Z.to_nat n) ins).

Definition InsertInt8 (out : bytes) (value : Z) : bytes :=
  out ++ [byte_of value].

Definition InsertInt32L (out : bytes) (value : Z) : bytes :=
  out ++ [byte_of (Z.land value 255);
          byte_of (Z.land (Z.shiftr value 8) 255);
          byte_of (Z.land (Z.shiftr value 16) 255);
          byte_of (Z.land (Z.shiftr value 24) 255)].

(** The four bytes [InsertInt32L] and [WriteInt32L] produce. *)
Definition le32 (value : Z) : bytes := InsertInt32L [] value.

(** [ReadInt32L(in, out)]: little-endian read through an iterator.  The caller
    guarantees four readable bytes; the result is the value and the advanced
    iterator. *)
Definition ReadInt32L (ins : bytes) : option (Z * bytes) :=
  match ins with
  | b0 :: b1 :: b2 :: b3 :: rest =>
      Some (Z.lor (Z.lor (Z.lor (byte_val b0) (Z.shiftl (byte_val b1) 8))
                         (Z.shiftl (byte_val b2) 16))
                  (Z.shiftl (byte_val b3) 24), rest)
  | _ => None
  end.

Definition ReadStreamAsInt8 (ins : bytes) : option (Z * bytes) :=
  let '(data, rest) := istream_read 1 ins in
  match data with
  | [d0] => Some (byte_val d0, rest)
  | _ => None
  end.

Definition ReadStreamAsInt32L (ins : bytes) : option (Z * bytes) :=
  let '(data, rest) := istream_read 4 ins in
  match data with
  | [d0; d1; d2; d3] =>
      Some (Z.lor (Z.lor (Z.lor (byte_val d0) (Z.shiftl (byte_val d1) 8))
                         (Z.shiftl (byte_val d2) 16))
                  (Z.shiftl (byte_val d3) 24), rest)
  | _ => None
  end.

Definition InsertInt16L (out : bytes) (value : Z) : bytes :=
  out ++ [byte_of (Z.land value 255);
          byte_of (Z.land (Z.shiftr value 8) 255)].

(** An output iterator into a container: the container and the position the
    iterator stands at.  [*out = c; out = std::next(out, 1)] replaces the
    element there and steps on; where there is no element the assignment has
    no meaning. *)
Definition store (out : bytes * nat) (c : ascii) : option (bytes * nat) :=
  let '(buf, pos) := out in
  if decide (pos < length buf)%nat then Some (<[pos := c]> buf, S pos)
  else None.

Definition WriteInt8 (out : bytes * nat) (value : Z) : option (bytes * nat) :=
  store out (byte_of value).

Definition WriteInt16L (out : bytes * nat) (value : Z)
  : option (bytes * nat) :=
  out ← store out (byte_of (Z.land value 255));
  store out (byte_of (Z.land (Z.shiftr value 8) 255)).

Definition WriteInt32L (out : bytes * nat) (value : Z)
  : option (bytes * nat) :=
  out ← store out (byte_of (Z.land value 255));
  out ← store out (byte_of (Z.land (Z.shiftr value 8) 255));
  out ← store out (byte_of (Z.land (Z.shiftr value 16) 255));
  store out (byte_of (Z.land (Z.shiftr value 24) 255)).

(** [ReadInt8] and [ReadInt16L], through an input iterator as [ReadInt32L]. *)
Definition ReadInt8 (ins : bytes) : option (Z * bytes) :=
  match ins with
  | b0 :: rest => Some (byte_val b0, rest)
  | _ => None
  end.

Definition ReadInt16L (ins : bytes) : option (Z * bytes) :=
  match ins with
  | b0 :: b1 :: rest =>
      Some (Z.lor (byte_val b0) (Z.shiftl (byte_val b1) 8), rest)
  | _ => None
  end.

Definition ReadStreamAsInt16L (ins : bytes) : option (Z * bytes) :=
  let '(data, rest) := istream_read 2 ins in
  match data with
  | [d0; d1] => Some (Z.lor (byte_val d0) (Z.shiftl (byte_val d1) 8), rest)
  | _ => None
  end.

End ByteIO.

(** ** psf_file.cpp *)

Module PSF.
Import ByteIO.

Definition kPSFSignature : bytes := str "PSF".
Definition kPSFSignatureSize : Z := 3.
Definition kPSFTagMarker : bytes := str "[TAG]".
Definition kPSFTagMarkerSize : Z := 5.

Record PSFFile := mkPSF {
  version : Z;
  reserved : bytes;
  compressed_exe : bytes;
  compressed_exe_crc32 : Z;
  tags : gmap bytes bytes
}.

(** The setters; the getters are the projections of the record. *)
Definition set_version (version : Z) (psf : PSFFile) : PSFFile :=
  mkPSF version (reserved psf) (compressed_exe psf) (compressed_exe_crc32 psf)
        (tags psf).

Definition set_reserved (reserved : bytes) (psf : PSFFile) : PSFFile :=
  mkPSF (version psf) reserved (compressed_exe psf) (compressed_exe_crc32 psf)
        (tags psf).

Definition set_compressed_exe (compressed_exe : bytes) (psf : PSFFile)
  : PSFFile :=
  mkPSF (version psf) (reserved psf) compressed_exe (compressed_exe_crc32 psf)
        (tags psf).

Definition set_compressed_exe_crc32 (compressed_exe_crc32 : Z) (psf : PSFFile)
  : PSFFile :=
  mkPSF (version psf) (reserved psf) (compressed_exe psf) compressed_exe_crc32
        (tags psf).

Definition set_tags (tags : gmap bytes bytes) (psf : PSFFile) : PSFFile :=
  mkPSF (version psf) (reserved psf) (compressed_exe psf)
        (compressed_exe_crc32 psf) tags.

(** The failures of the constructor [PSFFile(filename)], one per message. *)
Inductive parse_error :=
| SignatureUnreadable   (* "Unable to read the PSF signature." *)
| InvalidSignature      (* "Invalid PSF signature. " *)
| VersionUnreadable     (* "Unable to read the version byte." *)
| ReservedSizeUnreadable(* "Unable to read the size of reserved area." *)
| ExeSizeUnreadable     (* "Unable to read the size of compressed program." *)
| Crc32Unreadable       (* "Unable to read the CRC32 of compressed program." *)
| FileTooShort          (* "File is too short than expected." *)
| ReservedUnreadable    (* "Unable to read the reserved area." *)
| ExeUnreadable         (* "Unable to read the compressed program." *)
| TagAreaUnreadable.    (* "Unable to read the tag area." *)

(** *** The tag section *)

(** [static_cast<unsigned char>(c) <= 0x20] *)
Definition is_space (c : ascii) : bool := byte_val c <=? 32.

(** [s.find(c)] as a split: the bytes before the first [c] and, when there is
    one, the bytes after it. *)
Fixpoint break_at (c : ascii) (s : bytes) : bytes * option bytes :=
  match s with
  | [] => ([], None)
  | x :: s' =>
      if bool_decide (x = c) then ([], Some s')
      else let '(before, after) := break_at c s' in (x :: before, after)
  end.

(** [while (start < end && tag_string[start] <= 0x20) start++] *)
Fixpoint trim_start (s : bytes) : bytes :=
  match s with
  | [] => []
  | x :: s' => if is_space x then trim_start s' else s
  end.

(** [while (end > start && tag_string[end - 1] <= 0x20) end--] *)
Definition trim_end (s : bytes) : bytes := rev (trim_start (rev s)).

(** The end is trimmed first, then the start, as in the source. *)
Definition trim (s : bytes) : bytes := trim_start (trim_end s).

(** The body of the parsing loop for one line [tag_line]. *)
Definition parse_tag_line (tag_line : bytes) (tags : gmap bytes bytes)
  : gmap bytes bytes :=
  match break_at "=" tag_line with
  | (_, None) => tags
  | (name, Some value) =>
      let key := trim name in
      let value := trim value in
      match tags !! key with
      | Some old => <[key := old ++ [nl] ++ value]> tags
      | None => <[key := value]> tags
      end
  end.

(** The [while (tag_start_offset < tag_string.size())] loop.  [rest] is the
    part of [tag_string] from [tag_start_offset] on; every round consumes the
    line and its newline, so [length rest] rounds always suffice. *)
Fixpoint parse_tag_loop (fuel : nat) (rest : bytes) (tags : gmap bytes bytes)
  : gmap bytes bytes :=
  match fuel with
  | O => tags
  | S fuel' =>
      match rest with
      | [] => tags
      | _ =>
          let '(tag_line, next) := break_at nl rest in
          parse_tag_loop fuel' (default [] next) (parse_tag_line tag_line tags)
      end
  end.

Definition parse_tags (tag_string : bytes) : gmap bytes bytes :=
  parse_tag_loop (length tag_string) tag_string ∅.

(** *** The constructor [PSFFile::PSFFile(filename)], on the file's bytes *)

(** From "check the size consistency" to the end of the constructor: the
    stream [in5] stands after the CRC32 field, [psf_size] is the size of the
    file. *)
Definition read_areas (psf_size version reserved_size compressed_exe_size
    compressed_exe_crc32 : Z) (in5 : bytes) : parse_error + PSFFile :=
  let psf_mandatory_size := wrap32 (16 + reserved_size + compressed_exe_size) in
  if psf_mandatory_size >? psf_size then inl FileTooShort
  else
  let '(reserved, in6) := istream_read reserved_size in5 in
  if negb (len reserved =? reserved_size) then inl ReservedUnreadable
  else
  let '(compressed_exe, in7) := istream_read compressed_exe_size in6 in
  if negb (len compressed_exe =? compressed_exe_size) then inl ExeUnreadable
  else
  let psf := mkPSF version reserved compressed_exe compressed_exe_crc32 in
  if psf_mandatory_size + kPSFTagMarkerSize <=? psf_size then
    let '(tag_marker, in8) := istream_read kPSFTagMarkerSize in7 in
    if (len tag_marker =? kPSFTagMarkerSize) && bytes_eqb tag_marker kPSFTagMarker
    then
      let tag_size :=
        wrap64 (psf_size - wrap32 (16 + reserved_size + compressed_exe_size
                                   + kPSFTagMarkerSize)) in
      let '(tag_string, _) := istream_read tag_size in8 in
      if negb (len tag_string =? tag_size) then inl TagAreaUnreadable
      else inr (psf (parse_tags tag_string))
    else inr (psf ∅)
  else inr (psf ∅).

Definition parse (file : bytes) : parse_error + PSFFile :=
  let psf_size := len file in
  let '(signature, in1) := istream_read kPSFSignatureSize file in
  if negb (len signature =? kPSFSignatureSize) then inl SignatureUnreadable
  else if negb (bytes_eqb signature kPSFSignature) then inl InvalidSignature
  else
  match ReadStreamAsInt8 in1 with
  | None => inl VersionUnreadable
  | Some (version, in2) =>
  match ReadStreamAsInt32L in2 with
  | None => inl ReservedSizeUnreadable
  | Some (reserved_size, in3) =>
  match ReadStreamAsInt32L in3 with
  | None => inl ExeSizeUnreadable
  | Some (compressed_exe_size, in4) =>
  match ReadStreamAsInt32L in4 with
  | None => inl Crc32Unreadable
  | Some (compressed_exe_crc32, in5) =>
      read_areas psf_size version reserved_size compressed_exe_size
                 compressed_exe_crc32 in5
  end end end end.

(** *** [PSFFile::write], as the bytes written *)

(** The lines [std::getline] extracts from a string stream over [s]: a final
    line needs no terminator, and nothing is extracted at the end of the
    stream. *)
Fixpoint getlines (s : bytes) : list bytes :=
  match s with
  | [] => []
  | c :: s' =>
      if bool_decide (c = nl) then [] :: getlines s'
      else match getlines s' with
           | [] => [[c]]
           | line :: more => (c :: line) :: more
           end
  end.

(** [while (std::getline(value_reader, line)) out << key << "=" << value << "\n"] *)
Definition write_tag (out : bytes) (pair : bytes * bytes) : bytes :=
  let '(key, value) := pair in
  fold_left (fun out _line => out ++ key ++ str "=" ++ value ++ [nl])
            (getlines value) out.

(** [write] with the iteration order of the unordered map made explicit:
    [entries] lists the pairs of [tags()] in the order the map yields them. *)
Definition write_as (entries : list (bytes * bytes)) (psf : PSFFile) : bytes :=
  let out := kPSFSignature in
  let out := InsertInt8 out (version psf) in
  let out := InsertInt32L out (wrap32 (len (reserved psf))) in
  let out := InsertInt32L out (wrap32 (len (compressed_exe psf))) in
  let out := InsertInt32L out (compressed_exe_crc32 psf) in
  let out := out ++ reserved psf in
  let out := out ++ compressed_exe psf in
  if bool_decide (tags psf = ∅) then out
  else fold_left write_tag entries (out ++ kPSFTagMarker).

Definition write (psf : PSFFile) : bytes :=
  write_as (map_to_list (tags psf)) psf.

End PSF.


(** ** 2sf2rom.cpp *)

Module Loader.
Import ByteIO PSF.

Definition k2SFVersionByte : Z := 36.
Definition kNDSRomMaxSize : Z := 128 * 1024 * 1024.
Definition kPSFLibMaxNestLevel : Z := 10.

(** What [load_2sf] throws, one constructor per message, named after the
    error taxonomy of the specification. *)
Inductive error :=
| DepthExceededError        (* "Nest level error on psflib loading." *)
| IOError                   (* the file cannot be read *)
| PathError                 (* "Unable to determine absolute path." *)
| ParseError (e : parse_error)  (* thrown by the [PSFFile] constructor *)
| IntegrityError            (* "CRC32 error at the compressed program." *)
| DecompressionError        (* thrown by the decompressor *)
| HeaderError               (* "Unable to read the program header." *)
| SizeLimitError            (* "Load offset/size of 2SF is too large. " *)
| OutOfBoundsError          (* "Load offset/size of 2SF is out of bound." *)
| CorruptDataError.         (* "Program data is corrupted." *)

(** How a call ends.  [Undefined] stands for a call that copied outside the
    storage of a container, which C++ leaves without a meaning. *)
Inductive outcome :=
| Returned
| Thrown (e : error)
| Undefined.

(** The observable steps of a load: the [PSFFile] constructor run on a file
    name (at which nest level, from which working directory) and a program
    copied into the rom image. *)
Inductive event :=
| Opened (lib_nest_level : Z) (dir filename : bytes)
| Copied (load_offset : Z) (data : bytes).

(** The state [load_2sf] works on: the working directory of the process, the
    [rom] vector passed by reference, and the steps taken so far. *)
Record machine := mkMachine {
  cwd : bytes;
  rom : bytes;
  trace : list event
}.

Definition log (e : event) (m : machine) : machine :=
  mkMachine (cwd m) (rom m) (trace m ++ [e]).

Definition set_rom (r : bytes) (m : machine) : machine :=
  mkMachine (cwd m) r (trace m).

Definition chdir (dir : bytes) (m : machine) : machine :=
  mkMachine dir (rom m) (trace m).

(** The collaborators of the loader.  zlib, the file system and the helpers
    of [cpath.h] and [ZlibReader.h] are not part of the sources at hand. *)
Class Collaborators := {
  (** the content of the file [filename] names from directory [dir] *)
  read_file : bytes -> bytes -> option bytes;
  (** zlib's [crc32(0L, data, size)] *)
  crc32 : bytes -> Z;
  (** [zlibcomplete::ZLibDecompressor::decompress], which throws on a corrupt
      stream *)
  inflate : bytes -> option bytes;
  (** [path_getabspath(filename, absolute_path)], relative to [dir] *)
  path_getabspath : bytes -> bytes -> option bytes;
  (** [path_dirname(path)] *)
  path_dirname : bytes -> bytes;
  (** Modelled from the spec: [ZlibReader] is missing; it stands for the
      decompressor of section 6, read incrementally.  [zlib_reader data] is
      the sequence of decompressed bytes such a reader delivers. *)
  zlib_reader : bytes -> bytes
}.

Section Load.
Context `{Collaborators}.

(** [PSFFile psf(filename)] *)
Definition PSFFile_open (dir filename : bytes) : error + PSFFile :=
  match read_file dir filename with
  | None => inl IOError
  | Some file =>
      match parse file with
      | inl e => inl (ParseError e)
      | inr psf => inr psf
      end
  end.

(** The check at "check CRC32 of the compressed program". *)
Definition crc32_ok (psf : PSFFile) : bool :=
  compressed_exe_crc32 psf =? wrap32 (crc32 (compressed_exe psf)).

(** ["_lib"], then ["_lib2"], ["_lib3"], ...  ([lib_index] is an [int]; it
    stays far below its bound, there being one tag for every value it
    takes.) *)
Definition lib_tag_name (lib_index : Z) : bytes :=
  str "_lib" ++ (if lib_index >? 1 then str (pretty lib_index) else []).

(** The [while (true)] loop over the [_libN] tags.  [call] is the recursive
    call on one library; every round uses a tag name of its own, so the loop
    ends within [S (size tags)] rounds. *)
Fixpoint load_libs (call : bytes -> bool -> machine -> option (machine * outcome))
    (tags : gmap bytes bytes) (rounds : nat) (lib_index : Z)
    (first_load : bool) (m : machine) : option (machine * bool * outcome) :=
  match rounds with
  | O => None
  | S rounds' =>
      match tags !! lib_tag_name lib_index with
      | None => Some (m, first_load, Returned)
      | Some lib =>
          match call lib first_load m with
          | None => None
          | Some (m', Returned) =>
              load_libs call tags rounds' (lib_index + 1) false m'
          | Some (m', o) => Some (m', first_load, o)
          end
      end
  end.

(** [rom.resize(n, 0)] *)
Definition resize (n : Z) (r : bytes) : bytes :=
  take (Z.to_nat n) r ++ replicate (Z.to_nat n - length r)%nat zero.

(** Copying [data] to [dst] from position [at] on.  Nothing is defined when
    the bytes do not fit. *)
Definition blit (data : bytes) (at_ : Z) (dst : bytes) : option bytes :=
  match data with
  | [] => Some dst
  | _ =>
      if len dst <? at_ + len data then None
      else Some (take (Z.to_nat at_) dst ++ data
                 ++ drop (Z.to_nat (at_ + len data)) dst)
  end.

(** "ensure the rom buffer size", common to both listings. *)
Definition ensure_rom (load_offset load_size : Z) (first_load : bool)
    (m : machine) : error + machine :=
  if wrap32 (load_offset + load_size) >? kNDSRomMaxSize then inl SizeLimitError
  else if first_load then
    inr (set_rom (resize (wrap32 (load_offset + load_size)) (rom m)) m)
  else if wrap32 (load_offset + load_size) >? len (rom m) then
    inl OutOfBoundsError
  else inr m.

(** *** First listing: the whole program is decompressed, then copied *)

(** From "decompress the program area" to the end of [load_2sf].  With eight
    bytes at hand the two [ReadInt32L] always succeed.  [std::copy] has no
    meaning when it reads past the end of [exe] or writes past the end of
    [rom]. *)
Definition copy_program (psf : PSFFile) (first_load : bool) (m : machine)
  : machine * outcome :=
  match inflate (compressed_exe psf) with
  | None => (m, Thrown DecompressionError)
  | Some exe =>
  if len exe <? 8 then (m, Thrown HeaderError)
  else
  match ReadInt32L exe with
  | None => (m, Undefined)
  | Some (load_offset, exe_iter) =>
  match ReadInt32L exe_iter with
  | None => (m, Undefined)
  | Some (load_size, exe_iter) =>
  match ensure_rom load_offset load_size first_load m with
  | inl e => (m, Thrown e)
  | inr m =>
  if len exe <? wrap32 (8 + load_size) then (m, Thrown CorruptDataError)
  else if len exe_iter <? load_size then (m, Undefined)
  else
    let data := take (Z.to_nat load_size) exe_iter in
    match blit data load_offset (rom m) with
    | None => (m, Undefined)
    | Some r => (log (Copied load_offset data) (set_rom r m), Returned)
    end
  end end end end.

Fixpoint load_2sf_rec (fuel : nat) (filename : bytes) (lib_nest_level : Z)
    (first_load : bool) (m : machine) : option (machine * outcome) :=
  match fuel with
  | O => None
  | S fuel' =>
  if lib_nest_level >=? kPSFLibMaxNestLevel
  then Some (m, Thrown DepthExceededError)
  else
  let m := log (Opened lib_nest_level (cwd m) filename) m in
  match PSFFile_open (cwd m) filename with
  | inl e => Some (m, Thrown e)
  | inr psf =>
  if negb (crc32_ok psf) then Some (m, Thrown IntegrityError)
  else
  match load_libs (fun lib => load_2sf_rec fuel' lib (lib_nest_level + 1))
                  (tags psf) (S (size (tags psf))) 1 first_load m with
  | None => None
  | Some (m, first_load, Returned) => Some (copy_program psf first_load m)
  | Some (m, _, o) => Some (m, o)
  end
  end
  end.

(** The recursion stops at nest level [kPSFLibMaxNestLevel]; this many rounds
    reach it from [lib_nest_level]. *)
Definition depth_fuel (lib_nest_level : Z) : nat :=
  S (Z.to_nat (kPSFLibMaxNestLevel - lib_nest_level)).

Definition load_2sf (filename : bytes) (lib_nest_level : Z) (first_load : bool)
    (m : machine) : option (machine * outcome) :=
  load_2sf_rec (depth_fuel lib_nest_level) filename lib_nest_level first_load m.

(** *** Second listing: working directory switched, program read in place *)

(** From "read the exe header" to the end of [load_2sf]: the two [readInt],
    then [compressed_exe.read(&rom[load_offset], load_size) != load_size].
    The bytes the reader delivers go straight into the rom, also when they are
    fewer than [load_size]; writing past the end of [rom] has no meaning. *)
Definition read_program (psf : PSFFile) (first_load : bool) (m : machine)
  : machine * outcome :=
  let compressed_exe := zlib_reader (compressed_exe psf) in
  match ReadInt32L compressed_exe with
  | None => (m, Thrown HeaderError)
  | Some (load_offset, compressed_exe) =>
  match ReadInt32L compressed_exe with
  | None => (m, Thrown HeaderError)
  | Some (load_size, compressed_exe) =>
  match ensure_rom load_offset load_size first_load m with
  | inl e => (m, Thrown e)
  | inr m =>
    let data := take (Z.to_nat load_size) compressed_exe in
    match blit data load_offset (rom m) with
    | None => (m, Undefined)
    | Some r =>
        if negb (len data =? load_size)
        then (set_rom r m, Thrown CorruptDataError)
        else (log (Copied load_offset data) (set_rom r m), Returned)
    end
  end end end.

(** [chdir(basedir); try { load_2sf(...) } catch (std::exception) { chdir(pwd);
    throw; } chdir(pwd);] *)
Definition in_directory (basedir pwd : bytes)
    (call : machine -> option (machine * outcome)) (m : machine)
  : option (machine * outcome) :=
  match call (chdir basedir m) with
  | None => None
  | Some (m', Undefined) => Some (m', Undefined)
  | Some (m', o) => Some (chdir pwd m', o)
  end.

Fixpoint load_2sf_chdir_rec (fuel : nat) (filename : bytes) (lib_nest_level : Z)
    (first_load : bool) (m : machine) : option (machine * outcome) :=
  match fuel with
  | O => None
  | S fuel' =>
  if lib_nest_level >=? kPSFLibMaxNestLevel
  then Some (m, Thrown DepthExceededError)
  else
  let pwd := cwd m in
  match path_getabspath (cwd m) filename with
  | None => Some (m, Thrown PathError)
  | Some absolute_path =>
  let basedir := path_dirname absolute_path in
  let m := log (Opened lib_nest_level (cwd m) filename) m in
  match PSFFile_open (cwd m) filename with
  | inl e => Some (m, Thrown e)
  | inr psf =>
  if negb (crc32_ok psf) then Some (m, Thrown IntegrityError)
  else
  match load_libs
          (fun lib first_load =>
             in_directory basedir pwd
               (load_2sf_chdir_rec fuel' lib (lib_nest_level + 1) first_load))
          (tags psf) (S (size (tags psf))) 1 first_load m with
  | None => None
  | Some (m, first_load, Returned) => Some (read_program psf first_load m)
  | Some (m, _, o) => Some (m, o)
  end
  end
  end
  end.

Definition load_2sf_chdir (filename : bytes) (lib_nest_level : Z)
    (first_load : bool) (m : machine) : option (machine * outcome) :=
  load_2sf_chdir_rec (depth_fuel lib_nest_level) filename lib_nest_level
                     first_load m.

(** *** [main]: [std::vector<char> rom; load_2sf(filename, rom);] *)

Definition initial (dir : bytes) : machine := mkMachine dir [] [].

Definition load (dir filename : bytes) : option (machine * outcome) :=
  load_2sf filename 0 true (initial dir).

Definition load_chdir (dir filename : bytes) : option (machine * outcome) :=
  load_2sf_chdir filename 0 true (initial dir).

(** The image [main] writes to the output file: there is one only when the
    load returned. *)
Definition image (r : option (machine * outcome)) : option bytes :=
  match r with
  | Some (m, Returned) => Some (rom m)
  | _ => None
  end.

Definition result (r : option (machine * outcome)) : option outcome :=
  snd <$> r.

End Load.

(** *** [main]: the command line, the load, the output file *)

(** The [std::invalid_argument] exceptions of [main], one per message. *)
Inductive usage_error :=
| TooFewArguments (arg : bytes)   (* "Too few arguments for \"-o\"" *)
| UnknownOption (arg : bytes)     (* "Unknown option \"...\"" *)
| NoInputFiles                    (* "No input files." *)
| TooManyArguments.               (* "Too many arguments." *)

(** What the command line asks for. *)
Inductive command :=
| ShowUsage
| Invalid (e : usage_error)
| Convert (filename output_filename : bytes).

(** What [main] catches and reports with "Error: ". *)
Inductive failure :=
| BadArguments (e : usage_error)
| LoadFailed (e : error)
| WriteFailed.                    (* the output stream fails and throws *)

(** How [main] ends.  [NoMeaning] stands for a run that C++ leaves without a
    meaning: no [argv[0]] to show the usage with, or a load that copied
    outside the storage of a container. *)
Inductive ending :=
| UsageShown (cmd : bytes)                     (* [return 1] *)
| ErrorShown (e : failure)                     (* [return 1] *)
| ImageWritten (dir output_filename image : bytes)  (* the end of [main] *)
| NoMeaning.

(** The value [main] returns; flowing off its end returns 0. *)
Definition exit_status (e : ending) : option Z :=
  match e with
  | UsageShown _ | ErrorShown _ => Some 1
  | ImageWritten _ _ _ => Some 0
  | NoMeaning => None
  end.

(** The surroundings of [main] that the sources at hand do not define. *)
Class Shell := {
  (** the name of the output file when no [-o] names one: in the first
      listing [fs::path(filename).replace_extension(".data.bin")], in the
      second the name up to [path_findext(filename)] followed by
      [".data.bin"] *)
  default_output : bytes -> bytes;
  (** whether [out.open(output_filename, std::ios::binary)] and [out.write]
      go through, from a working directory *)
  writable : bytes -> bytes -> bool
}.

(** [argv[i]] *)
Definition arg_at (argv : list bytes) (i : nat) : bytes :=
  default [] (argv !! i).

(** [argv[argi][0] == '-']; the character at the end of an empty argument
    is the terminating zero. *)
Definition is_option (arg : bytes) : bool :=
  match arg with
  | c :: _ => bool_decide (c = "-"%char)
  | [] => false
  end.

(** The [while (argi < argc && argv[argi][0] == '-')] loop, from [argi] on
    with the output name found so far.  Every round advances [argi], so
    [argc] rounds suffice.  The loop ends with a command or, at the first
    argument that is no option, with [argi] and the output name. *)
Fixpoint parse_options (rounds : nat) (argv : list bytes) (argi : nat)
    (output_filename : bytes) : option (command + nat * bytes) :=
  let argc := length argv in
  if negb ((argi <? argc)%nat && is_option (arg_at argv argi))
  then Some (inr (argi, output_filename))
  else
  match rounds with
  | O => None
  | S rounds' =>
      let arg := arg_at argv argi in
      if bool_decide (arg = str "--help") then Some (inl ShowUsage)
      else if bool_decide (arg = str "-o") then
        if (argc <=? argi + 1)%nat
        then Some (inl (Invalid (TooFewArguments arg)))
        else parse_options rounds' argv (argi + 1 + 1) (arg_at argv (argi + 1))
      else Some (inl (Invalid (UnknownOption arg)))
  end.

Section Main.
Context `{Shell}.

(** [main] up to "determine filenames". *)
Definition command_line (argv : list bytes) : option command :=
  let argc := length argv in
  if (argc <=? 1)%nat then Some ShowUsage
  else
  match parse_options argc argv 1 [] with
  | None => None
  | Some (inl c) => Some c
  | Some (inr (argi, output_filename)) =>
      if (argi =? argc)%nat then Some (Invalid NoInputFiles)
      else if (argc <? argi + 1)%nat then Some (Invalid TooManyArguments)
      else
        let filename := arg_at argv argi in
        let output_filename :=
          if bool_decide (output_filename = []) then default_output filename
          else output_filename in
        Some (Convert filename output_filename)
  end.

(** [main], started in the working directory [dir], with [loader] for the
    call [load_2sf(filename, rom)] on the empty [rom]. *)
Definition main_with (loader : bytes -> bytes -> option (machine * outcome))
    (dir : bytes) (argv : list bytes) : option ending :=
  match command_line argv with
  | None => None
  | Some ShowUsage =>
      Some (match argv with cmd :: _ => UsageShown cmd | [] => NoMeaning end)
  | Some (Invalid e) => Some (ErrorShown (BadArguments e))
  | Some (Convert filename output_filename) =>
      match loader dir filename with
      | None => None
      | Some (_, Undefined) => Some NoMeaning
      | Some (_, Thrown e) => Some (ErrorShown (LoadFailed e))
      | Some (m, Returned) =>
          if writable (cwd m) output_filename
          then Some (ImageWritten (cwd m) output_filename (rom m))
          else Some (ErrorShown WriteFailed)
      end
  end.

Context `{Collaborators}.

(** [main] of the first and of the second listing. *)
Definition main (dir : bytes) (argv : list bytes) : option ending :=
  main_with load dir argv.

Definition main_chdir (dir : bytes) (argv : list bytes) : option ending :=
  main_with load_chdir dir argv.

End Main.

End Loader.

(** ** Concrete collaborators

    The properties below hold for every instance of [Collaborators].  To run
    the loader on actual files, this module supplies one: CRC-32 as zlib
    computes it, zlib streams made of stored blocks, and a file system given
    by a list of absolute paths with their contents. *)

Module Fixture.
Import ByteIO PSF Loader.

(** CRC-32 (polynomial [0xEDB88320], reflected), one bit at a time. *)
Definition crc32_bit (crc : Z) : Z :=
  if Z.odd crc then Z.lxor (Z.shiftr crc 1) 3988292384 else Z.shiftr crc 1.

Definition crc32_byte (crc : Z) (b : ascii) : Z :=
  Nat.iter 8 crc32_bit (Z.lxor crc (byte_val b)).

Definition zlib_crc32 (data : bytes) : Z :=
  Z.lxor (fold_left crc32_byte data 4294967295) 4294967295.

(** Adler-32, the checksum closing a zlib stream. *)
Definition adler32 (data : bytes) : Z :=
  let '(a, b) :=
    fold_left (fun '(a, b) c =>
                 let a := (a + byte_val c) mod 65521 in (a, (b + a) mod 65521))
              data (1, 0) in
  b * 65536 + a.

Definition be32 (v : Z) : bytes :=
  [byte_of (Z.land (Z.shiftr v 24) 255); byte_of (Z.land (Z.shiftr v 16) 255);
   byte_of (Z.land (Z.shiftr v 8) 255); byte_of (Z.land v 255)].

Definition le16 (v : Z) : bytes :=
  [byte_of (Z.land v 255); byte_of (Z.land (Z.shiftr v 8) 255)].

(** A zlib stream holding [data] (fewer than 65536 bytes) in one stored
    block. *)
Definition deflate_stored (data : bytes) : bytes :=
  [byte_of 120; byte_of 1; byte_of 1]
  ++ le16 (len data) ++ le16 (Z.lxor (len data) 65535)
  ++ data ++ be32 (adler32 data).

(** The stored blocks of a deflate stream. *)
Fixpoint stored_blocks (fuel : nat) (s : bytes) (acc : bytes)
  : option (bytes * bytes) :=
  match fuel, s with
  | S fuel', hd :: l0 :: l1 :: n0 :: n1 :: s' =>
      let n := byte_val l0 + 256 * byte_val l1 in
      if negb (Z.land (byte_val hd) 6 =? 0) then None
      else if negb (byte_val n0 + 256 * byte_val n1 =? Z.lxor n 65535) then None
      else if len s' <? n then None
      else
        let acc := acc ++ take (Z.to_nat n) s' in
        let s' := drop (Z.to_nat n) s' in
        if Z.odd (byte_val hd) then Some (acc, s')
        else stored_blocks fuel' s' acc
  | _, _ => None
  end.

(** Inflating a zlib stream whose blocks are all stored; any other stream is
    refused. *)
Definition inflate_stored (s : bytes) : option bytes :=
  match s with
  | cmf :: flg :: s' =>
      if negb (Z.land (byte_val cmf) 15 =? 8) then None
      else if negb ((256 * byte_val cmf + byte_val flg) mod 31 =? 0) then None
      else if negb (Z.land (byte_val flg) 32 =? 0) then None
      else
        match stored_blocks (length s') s' [] with
        | Some (data, check) =>
            if bytes_eqb check (be32 (adler32 data)) then Some data else None
        | None => None
        end
  | _ => None
  end.

Definition slash : ascii := "/"%char.

(** An absolute name stays; a relative one is appended to the directory. *)
Definition abspath (dir filename : bytes) : bytes :=
  match filename with
  | c :: _ => if bool_decide (c = slash) then filename
              else dir ++ [slash] ++ filename
  | [] => dir
  end.

(** The path without its last component. *)
Fixpoint dirname (path : bytes) : bytes :=
  match path with
  | [] => []
  | c :: path' =>
      if bool_decide (slash ∈ path') then c :: dirname path' else []
  end.

Fixpoint lookup_file (files : list (bytes * bytes)) (path : bytes)
  : option bytes :=
  match files with
  | [] => None
  | (name, content) :: files' =>
      if bytes_eqb name path then Some content else lookup_file files' path
  end.

Definition disk (files : list (bytes * bytes)) : Collaborators := {|
  read_file dir filename := lookup_file files (abspath dir filename);
  crc32 := zlib_crc32;
  inflate := inflate_stored;
  path_getabspath dir filename := Some (abspath dir filename);
  path_dirname := dirname;
  zlib_reader data := default [] (inflate_stored data)
|}.

(** The decompressed program: offset, size, then the bytes to place. *)
Definition program (load_offset load_size : Z) (body : bytes) : bytes :=
  le32 load_offset ++ le32 load_size ++ body.

(** A 2SF file holding [exe] with the CRC-32 of its compressed form. *)
Definition make_2sf (exe : bytes) (tags : gmap bytes bytes) : bytes :=
  let z := deflate_stored exe in
  write (mkPSF k2SFVersionByte [] z (zlib_crc32 z) tags).

(** The set of section 8: a root file that declares four bytes at offset 0
    and refers to one library, which declares two bytes at offset 4. *)
Definition two_files : list (bytes * bytes) :=
  [ (str "/d/root.2sf",
     make_2sf (program 0 4 (map byte_of [0; 1; 2; 3]))
              {[ str "_lib" := str "lib.2sflib" ]});
    (str "/d/lib.2sflib",
     make_2sf (program 4 2 (map byte_of [202; 254])) ∅) ].

(** A set spread over directories: the root refers to [sub/lib.2sflib], which
    refers to [base.2sflib] next to itself. *)
Definition nested_files : list (bytes * bytes) :=
  [ (str "/d/root.2sf",
     make_2sf (program 0 2 (map byte_of [1; 2]))
              {[ str "_lib" := str "sub/lib.2sflib" ]});
    (str "/d/sub/lib.2sflib",
     make_2sf (program 2 2 (map byte_of [3; 4]))
              {[ str "_lib" := str "base.2sflib" ]});
    (str "/d/sub/base.2sflib",
     make_2sf (program 0 6 (map byte_of [9; 9; 9; 9; 5; 6])) ∅) ].

(** A root file whose library carries a wrong CRC32 field. *)
Definition corrupt_files : list (bytes * bytes) :=
  [ (str "/d/root.2sf",
     make_2sf (program 0 4 (map byte_of [0; 1; 2; 3]))
              {[ str "_lib" := str "lib.2sflib" ]});
    (str "/d/lib.2sflib",
     let z := deflate_stored (program 4 2 (map byte_of [202; 254])) in
     write (mkPSF k2SFVersionByte [] z (wrap32 (zlib_crc32 z + 1)) ∅)) ].

(** A chain of nested references: file [fi] refers to [fj], [j = i + 1], and
    so on for [n] references; the last file refers to nothing.  Every file
    holds the empty program. *)
Definition chain_name (i : nat) : bytes := str "f" ++ str (pretty i).

Fixpoint chain_files (n i : nat) : list (bytes * bytes) :=
  match n with
  | O => [(str "/d/" ++ chain_name i, make_2sf (program 0 0 []) ∅)]
  | S n' =>
      (str "/d/" ++ chain_name i,
       make_2sf (program 0 0 []) {[ str "_lib" := chain_name (S i) ]})
      :: chain_files n' (S i)
  end.

(** Programs whose offset and size add up to 4 GiB, with and without the
    byte they declare, and one that declares 129 MiB. *)
Definition wrapping_files : list (bytes * bytes) :=
  [ (str "/d/short.2sf", make_2sf (program 4294967295 1 []) ∅);
    (str "/d/full.2sf", make_2sf (program 4294967295 1 [byte_of 7]) ∅);
    (str "/d/large.2sf", make_2sf (program 135266304 0 []) ∅) ].

(** Containers with tags: two tags that single lines can carry, a value with
    a leading space, and an empty value. *)
Definition tagged_psf : PSFFile :=
  mkPSF k2SFVersionByte (str "rsv") (str "exe") 305419896
        {[ str "title" := str "Song"; str "artist" := str "A B" ]}.

Definition padded_psf : PSFFile :=
  mkPSF k2SFVersionByte [] [] 0 {[ str "k" := str " v" ]}.

Definition empty_value_psf : PSFFile :=
  mkPSF k2SFVersionByte [] [] 0 {[ str "a" := [] ]}.

(** A root whose program reaches beyond the two bytes its library
    declares. *)
Definition short_lib_files : list (bytes * bytes) :=
  [ (str "/d/root.2sf",
     make_2sf (program 0 4 (map byte_of [0; 1; 2; 3]))
              {[ str "_lib" := str "lib.2sflib" ]});
    (str "/d/lib.2sflib",
     make_2sf (program 0 2 (map byte_of [202; 254])) ∅) ].

(** A file that names itself as its library. *)
Definition self_files : list (bytes * bytes) :=
  [ (str "/d/self.2sf",
     make_2sf (program 0 0 []) {[ str "_lib" := str "self.2sf" ]}) ].

(** A root with three libraries, the second of which has a library of its
    own. *)
Definition three_libs : list (bytes * bytes) :=
  [ (str "/d/root.2sf",
     make_2sf (program 0 1 [byte_of 9])
              {[ str "_lib" := str "a.2sflib"; str "_lib2" := str "b.2sflib";
                 str "_lib3" := str "c.2sflib"; str "_lib5" := str "e.2sflib" ]});
    (str "/d/a.2sflib", make_2sf (program 0 4 (map byte_of [1; 1; 1; 1])) ∅);
    (str "/d/b.2sflib",
     make_2sf (program 1 1 [byte_of 2]) {[ str "_lib" := str "d.2sflib" ]});
    (str "/d/c.2sflib", make_2sf (program 2 1 [byte_of 3]) ∅);
    (str "/d/d.2sflib", make_2sf (program 3 1 [byte_of 4]) ∅);
    (str "/d/e.2sflib", make_2sf (program 0 4 (map byte_of [5; 5; 5; 5])) ∅) ].

(** Surroundings for [main]: the default output name is the input name
    followed by [.data.bin], and every file can be written. *)
Definition plain_shell : Shell := {|
  default_output filename := filename ++ str ".data.bin";
  writable _ _ := true
|}.

End Fixture.

(** ** Notions of the specification *)

Module Spec.
Import ByteIO PSF Loader.

(** Section 4.2: a line with a [=] contributes the trimmed text before the
    first [=] as key and the trimmed text after it as value; any other line
    contributes nothing. *)
Definition line_entry (line : bytes) : option (bytes * bytes) :=
  match break_at "=" line with
  | (name, Some value) => Some (trim name, trim value)
  | (_, None) => None
  end.

(** The values the lines give to [key], in the order of the lines. *)
Definition values_of (key : bytes) (lines : list bytes) : list bytes :=
  omap (fun line =>
          match line_entry line with
          | Some (k, v) => if bool_decide (k = key) then Some v else None
          | None => None
          end) lines.

(** The values joined by newline characters; no value, no entry. *)
Definition join_lines (values : list bytes) : option bytes :=
  match values with
  | [] => None
  | v :: values => Some (fold_left (fun acc v => acc ++ [nl] ++ v) values v)
  end.

(** The tag text [write] produces for the pairs [entries], in their order. *)
Definition tag_text (entries : list (bytes * bytes)) : bytes :=
  fold_left write_tag entries [].

(** A key or value in the form the parser stores it: nothing to trim at
    either end and no newline inside. *)
Definition plain (s : bytes) : Prop := trim s = s /\ nl ∉ s.

(** A tag that one [key=value] line can carry. *)
Definition plain_entry (entry : bytes * bytes) : Prop :=
  plain (fst entry) /\ ("="%char ∉ fst entry) /\ plain (snd entry)
  /\ snd entry <> [].

#[global] Instance plain_dec (s : bytes) : Decision (plain s).
Proof. unfold plain. apply _. Defined.

#[global] Instance plain_entry_dec (entry : bytes * bytes) :
  Decision (plain_entry entry).
Proof. unfold plain_entry. apply _. Defined.

(** A container that fits the layout: a byte for the version, 32 bits for
    the CRC32 and the sizes, and a file size within [uintmax_t].  [entries] is
    the order in which [write] visits the tags. *)
Definition fits_layout (entries : list (bytes * bytes)) (psf : PSFFile) : Prop :=
  0 <= version psf < 256 /\ 0 <= compressed_exe_crc32 psf < 2 ^ 32
  /\ 16 + len (reserved psf) + len (compressed_exe psf) + 5 < 2 ^ 32
  /\ len (write_as entries psf) < 2 ^ 64.

(** The programs copied during a run, in the order of the copies: load
    offset and bytes. *)
Definition copies (events : list event) : list (Z * bytes) :=
  omap (fun e => match e with
                 | Copied load_offset data => Some (load_offset, data)
                 | Opened _ _ _ => None
                 end) events.

(** The files opened during a run, in order. *)
Definition opened (events : list event) : list (Z * bytes * bytes) :=
  omap (fun e => match e with
                 | Opened lib_nest_level dir filename =>
                     Some (lib_nest_level, dir, filename)
                 | Copied _ _ => None
                 end) events.

(** Writing the programs [cs] one after the other into [buf], each within
    the bounds of [buf]. *)
Fixpoint replay (cs : list (Z * bytes)) (buf : bytes) : option bytes :=
  match cs with
  | [] => Some buf
  | (load_offset, data) :: cs' =>
      match blit data load_offset buf with
      | Some buf' => replay cs' buf'
      | None => None
      end
  end.

(** The buffer the copies go to: when the run starts with [first_load] set,
    the first program copied sizes it. *)
Definition sized (first_load : bool) (cs : list (Z * bytes)) (buf : bytes)
  : bytes :=
  match first_load, cs with
  | true, (load_offset, data) :: _ => resize (load_offset + len data) buf
  | _, _ => buf
  end.

(** Offset [i] lies in the range [load_offset, load_offset + load_size) of
    one of the programs. *)
Definition covered (cs : list (Z * bytes)) (i : Z) : Prop :=
  exists load_offset data,
    (load_offset, data) ∈ cs /\ load_offset <= i < load_offset + len data.

(** What a call that returns has done to the machine: it has added steps to
    the trace, at least one of them a copy, and the rom is the replay of its
    copies on the rom it started from, sized by the first copy if the call
    started with [first_load] set. *)
Definition assembled (first_load : bool) (m m' : machine) : Prop :=
  exists evs,
    trace m' = trace m ++ evs
    /\ copies evs <> []
    /\ Forall (fun c => 0 <= c.1) (copies evs)
    /\ replay (copies evs) (sized first_load (copies evs) (rom m))
       = Some (rom m').

(** The same in the middle of the library loop of a call that started from
    [m0] with the flag [b0]: the flag is still set only while nothing has
    been copied. *)
Definition assembling (b0 : bool) (m0 : machine) (b : bool) (m : machine)
  : Prop :=
  exists evs,
    trace m = trace m0 ++ evs
    /\ Forall (fun c => 0 <= c.1) (copies evs)
    /\ replay (copies evs) (sized b0 (copies evs) (rom m0)) = Some (rom m)
    /\ (b = true -> b0 = true /\ copies evs = [])
    /\ (b = false -> b0 = true -> copies evs <> []).

(** The last step of a load that returns: the rom is made ready for a program
    and the program is copied. *)
Definition placed (first_load : bool) (m m' : machine) : Prop :=
  exists load_offset data m1 r,
    ensure_rom load_offset (len data) first_load m = inr m1
    /\ blit data load_offset (rom m1) = Some r
    /\ m' = log (Copied load_offset data) (set_rom r m1)
    /\ 0 <= load_offset < 2 ^ 32 /\ len data < 2 ^ 32.

(** The ways the last step fails. *)
Definition step_failure (o : outcome) : Prop :=
  match o with
  | Thrown DecompressionError | Thrown HeaderError | Thrown SizeLimitError
  | Thrown OutOfBoundsError | Thrown CorruptDataError | Undefined => True
  | _ => False
  end.

Section Assembly.
Context `{Collaborators}.

(** A container file whose stored CRC32 is not the CRC32 of its payload. *)
Definition crc_mismatch (dir filename : bytes) : Prop :=
  exists psf, PSFFile_open dir filename = inr psf /\ crc32_ok psf = false.

(** What the CRC32 check does to a run from [m] to [m'] ending in [o]: a
    mismatching file among those opened makes the run end in
    [IntegrityError], and a run ends so only at such a file, the last one it
    opened. *)
Definition crc_checked (m m' : machine) (o : outcome) : Prop :=
  exists evs,
    trace m' = trace m ++ evs
    /\ (forall l dir filename,
          Opened l dir filename ∈ evs -> crc_mismatch dir filename ->
          o = Thrown IntegrityError)
    /\ (o = Thrown IntegrityError ->
        exists evs0 l dir filename,
          evs = evs0 ++ [Opened l dir filename] /\ crc_mismatch dir filename).

(** The directory discipline of a call at nest level [l] on [filename], run
    from [m] to [m'] with outcome [o]: unless the run lost its meaning, the
    working directory is back where it was; the files opened are at level [l]
    or deeper, the one at level [l] is [filename], opened from the directory
    of the caller, and those one level deeper are opened from the directory
    of [filename]. *)
Definition directory_kept (l : Z) (filename : bytes) (m m' : machine)
    (o : outcome) : Prop :=
  (o <> Undefined -> cwd m' = cwd m)
  /\ exists evs,
       trace m' = trace m ++ evs
       /\ forall l' dir g,
            Opened l' dir g ∈ evs ->
            l <= l'
            /\ (l' = l -> dir = cwd m /\ g = filename)
            /\ (l' = l + 1 ->
                exists absolute_path,
                  path_getabspath (cwd m) filename = Some absolute_path
                  /\ dir = path_dirname absolute_path).

(** [filename] starts a chain of nested [_lib] references: it refers to the
    first of [refs] and to nothing else, that one to the next, and so on; the
    last file refers to no library. *)
Fixpoint lib_chain (dir filename : bytes) (refs : list bytes) : Prop :=
  match refs with
  | [] => forall psf, PSFFile_open dir filename = inr psf ->
                      tags psf !! str "_lib" = None
  | lib :: refs' =>
      (exists psf, PSFFile_open dir filename = inr psf
                   /\ crc32_ok psf = true
                   /\ tags psf !! str "_lib" = Some lib
                   /\ tags psf !! str "_lib2" = None)
      /\ lib_chain dir lib refs'
  end.

(** A root file with exactly one [_lib] reference, to a file without
    references; both CRC32 fields are right, the library's payload
    decompresses to the program [lib_data] for [lib_offset], the root's to
    [root_data] for [root_offset]. *)
Definition root_with_lib (dir root lib : bytes)
    (lib_offset : Z) (lib_data : bytes) (root_offset : Z) (root_data : bytes)
  : Prop :=
  exists root_psf lib_psf,
    PSFFile_open dir root = inr root_psf /\ crc32_ok root_psf = true
    /\ tags root_psf !! str "_lib" = Some lib
    /\ tags root_psf !! str "_lib2" = None
    /\ PSFFile_open dir lib = inr lib_psf /\ crc32_ok lib_psf = true
    /\ tags lib_psf !! str "_lib" = None
    /\ inflate (compressed_exe lib_psf)
       = Some (le32 lib_offset ++ le32 (len lib_data) ++ lib_data)
    /\ inflate (compressed_exe root_psf)
       = Some (le32 root_offset ++ le32 (len root_data) ++ root_data).

End Assembly.

(** [buf] with [data] written over it from position [at_] on. *)
Definition overlay (data : bytes) (at_ : Z) (buf : bytes) : bytes :=
  take (Z.to_nat at_) buf ++ data ++ drop (Z.to_nat (at_ + len data)) buf.

(** The sixteen header bytes of the layout of section 6. *)
Definition header (version reserved_size compressed_exe_size
    compressed_exe_crc32 : Z) : bytes :=
  kPSFSignature ++ [byte_of version] ++ le32 reserved_size
  ++ le32 compressed_exe_size ++ le32 compressed_exe_crc32.

(** *** Notions for the further properties *)

Definition cr : ascii := ascii_of_nat 13.

(** A text made of [lines], each followed by the line end [eol]. *)
Definition unlines (eol : bytes) (lines : list bytes) : bytes :=
  concat ((fun line => line ++ eol) <$> lines).

(** The value [v] followed by the values [vs], a newline before each. *)
Definition joined (v : bytes) (vs : list bytes) : bytes :=
  fold_left (fun acc v => acc ++ [nl] ++ v) vs v.

(** A file with its version byte, the fourth byte, replaced. *)
Definition reversion (c : ascii) (file : bytes) : bytes := <[3%nat := c]> file.

(** The collaborators [C] on a disk whose files are changed by [f]. *)
Definition with_files (f : bytes -> bytes) (C : Collaborators)
  : Collaborators := {|
  read_file dir filename := f <$> @read_file C dir filename;
  crc32 := @crc32 C;
  inflate := @inflate C;
  path_getabspath := @path_getabspath C;
  path_dirname := @path_dirname C;
  zlib_reader := @zlib_reader C
|}.

(** Once a program has been copied the rom is within the size limit: the
    flag [first_load] is cleared by then. *)
Definition within_limit (first_load : bool) (m : machine) : Prop :=
  first_load = false -> len (rom m) <= kNDSRomMaxSize.

(** A step of a call at nest level [l]: a file is opened at level [l] or
    deeper, below the ceiling, from a directory among [dirs]. *)
Definition opened_from (dirs : bytes -> Prop) (l : Z) (e : event) : Prop :=
  match e with
  | Opened l' dir _ => dirs dir /\ l <= l' < kPSFLibMaxNestLevel
  | Copied _ _ => True
  end.

(** The arguments [-o out] for each [out] of [outs], in order. *)
Definition with_outputs (outs : list bytes) : list bytes :=
  concat ((fun out => [str "-o"; out]) <$> outs).

Section References.
Context `{Collaborators}.

(** A set [F] of files, each given by the directory it is opened from and its
    name, that is closed under the first library reference: every file of
    [F] parses, has the right CRC32 and refers with [_lib] to a file of [F].
    In the first listing the library is opened from the same directory, in
    the second from the directory of the referring file. *)
Definition lib_closed (F : bytes -> bytes -> Prop) : Prop :=
  forall dir filename,
    F dir filename ->
    exists psf lib,
      PSFFile_open dir filename = inr psf /\ crc32_ok psf = true
      /\ tags psf !! str "_lib" = Some lib /\ F dir lib.

Definition lib_closed_chdir (F : bytes -> bytes -> Prop) : Prop :=
  forall dir filename,
    F dir filename ->
    exists absolute_path psf lib,
      path_getabspath dir filename = Some absolute_path
      /\ PSFFile_open dir filename = inr psf /\ crc32_ok psf = true
      /\ tags psf !! str "_lib" = Some lib
      /\ F (path_dirname absolute_path) lib.

End References.

(** The failure of the constructor on the sixteen header bytes, by the
    length of the file and its first three bytes. *)
Definition header_failure (file : bytes) : option parse_error :=
  if len file <? 3 then Some SignatureUnreadable
  else if negb (bytes_eqb (take 3 file) kPSFSignature)
  then Some InvalidSignature
  else if len file <? 4 then Some VersionUnreadable
  else if len file <? 8 then Some ReservedSizeUnreadable
  else if len file <? 12 then Some ExeSizeUnreadable
  else if len file <? 16 then Some Crc32Unreadable
  else None.

(** The nest levels at which the steps [evs] open files, and the names of
    the files opened at level [l], in order. *)
Definition opened_at (l : Z) (evs : list event) : list bytes :=
  omap (fun e => match e with
                 | Opened l' _ filename =>
                     if bool_decide (l' = l) then Some filename else None
                 | Copied _ _ => None
                 end) evs.

(** The values of the tags [_lib], [_lib2], ... of [tags] from index [i] on,
    up to the first index that has no tag; [n] bounds their number. *)
Fixpoint lib_refs (tags : gmap bytes bytes) (n : nat) (i : Z) : list bytes :=
  match n with
  | O => []
  | S n' =>
      match tags !! lib_tag_name i with
      | Some lib => lib :: lib_refs tags n' (i + 1)
      | None => []
      end
  end.

End Spec.

(** * Properties *)

Import ByteIO PSF Loader Fixture Spec.

(** ** Lines of a tag block *)

Lemma break_at_getlines (s : bytes) line next :
  s <> [] -> break_at nl s = (line, next) ->
  getlines s = line :: getlines (default [] next).
Proof.
  revert line next. induction s as [|c s IH]; intros line next Hs Hb; [done|].
  simpl in *. case_bool_decide.
  - by inversion Hb.
  - destruct (break_at nl s) as [b a] eqn:E.
    injection Hb as <- <-.
    destruct s as [|c' s'].
    + simpl in E. by injection E as <- <-.
    + by rewrite (IH b a).
Qed.

Lemma break_at_shorter c (s : bytes) before after :
  break_at c s = (before, after) ->
  (length (default [] after) < length s \/ s = [])%nat.
Proof.
  revert before after. induction s as [|x s IH]; intros before after Hb.
  - by right.
  - left. simpl in *. case_bool_decide.
    + injection Hb as <- <-. simpl. lia.
    + destruct (break_at c s) as [b a] eqn:E. injection Hb as <- <-.
      destruct (IH b a eq_refl) as [?| ->]; simpl in *; [lia|].
      injection E as <- <-. simpl. lia.
Qed.

Lemma parse_tag_loop_lines fuel (rest : bytes) acc :
  (length rest <= fuel)%nat ->
  parse_tag_loop fuel rest acc
  = fold_left (fun t line => parse_tag_line line t) (getlines rest) acc.
Proof.
  revert rest acc. induction fuel as [|fuel IH]; intros rest acc Hlen.
  - destruct rest; [done | simpl in Hlen; lia].
  - destruct rest as [|c rest']; [done|].
    cbn [parse_tag_loop]. destruct (break_at nl (c :: rest')) as [line next] eqn:E.
    rewrite (break_at_getlines (c :: rest') line next) by done. cbn [fold_left].
    apply IH. apply break_at_shorter in E as [E|E]; [|done].
    simpl in *. lia.
Qed.

Lemma parse_tags_lines (tag_string : bytes) :
  parse_tags tag_string
  = fold_left (fun t line => parse_tag_line line t) (getlines tag_string) ∅.
Proof. by apply parse_tag_loop_lines. Qed.

Lemma parse_tag_line_entry (line : bytes) (t : gmap bytes bytes) :
  parse_tag_line line t
  = match line_entry line with
    | None => t
    | Some (k, v) =>
        match t !! k with
        | Some old => <[k := old ++ [nl] ++ v]> t
        | None => <[k := v]> t
        end
    end.
Proof.
  unfold parse_tag_line, line_entry.
  by destruct (break_at "=" line) as [name [value|]].
Qed.

Lemma values_of_cons (key line : bytes) (lines : list bytes) :
  values_of key (line :: lines)
  = match line_entry line with
    | Some (k, v) =>
        if bool_decide (k = key) then v :: values_of key lines
        else values_of key lines
    | None => values_of key lines
    end.
Proof.
  unfold values_of. simpl.
  destruct (line_entry line) as [[k v]|]; [case_bool_decide|]; done.
Qed.

Lemma fold_parse_tag_line_lookup (lines : list bytes) (acc : gmap bytes bytes)
    (key : bytes) :
  fold_left (fun t line => parse_tag_line line t) lines acc !! key
  = match acc !! key with
    | Some old =>
        Some (fold_left (fun a v => a ++ [nl] ++ v) (values_of key lines) old)
    | None => join_lines (values_of key lines)
    end.
Proof.
  revert acc. induction lines as [|line lines IH]; intros acc.
  - simpl. by destruct (acc !! key).
  - cbn [fold_left]. rewrite IH, parse_tag_line_entry, values_of_cons.
    destruct (line_entry line) as [[k v]|]; [|done].
    case_bool_decide as Hk.
    + subst k. destruct (acc !! key) as [old|] eqn:E.
      * by rewrite lookup_insert_eq.
      * by rewrite lookup_insert_eq.
    + destruct (acc !! k) as [old|] eqn:E; by rewrite lookup_insert_ne.
Qed.

Lemma parse_tags_lookup (tag_string key : bytes) :
  parse_tags tag_string !! key
  = join_lines (values_of key (getlines tag_string)).
Proof.
  by rewrite parse_tags_lines, fold_parse_tag_line_lookup, lookup_empty.
Qed.


(** ** Writing tags *)

Lemma write_tag_repeat (out key value : bytes) :
  write_tag out (key, value)
  = out ++ concat (replicate (length (getlines value))
                             (key ++ str "=" ++ value ++ [nl])).
Proof.
  unfold write_tag. generalize (getlines value) as lines. intros lines.
  revert out. induction lines as [|line lines IH]; intros out; simpl.
  - by rewrite app_nil_r.
  - rewrite IH. by rewrite <- !app_assoc.
Qed.

Lemma getlines_plain (value : bytes) :
  value <> [] -> nl ∉ value -> getlines value = [value].
Proof.
  induction value as [|c value IH]; intros Hne Hnl; [done|].
  simpl. case_bool_decide as Hc.
  - subst c. exfalso. apply Hnl. by left.
  - destruct value as [|c' value']; [done|].
    rewrite IH; [done|done|]. intros Hin. apply Hnl. by right.
Qed.

Lemma getlines_nonempty (value : bytes) : value <> [] -> getlines value <> [].
Proof.
  destruct value as [|c value]; [done|]. intros _. simpl.
  case_bool_decide; [done|]. by destruct (getlines value).
Qed.

(** The number of lines [std::getline] yields: one per newline character,
    and one more for a non-empty rest after the last newline. *)
Lemma getlines_count (value : bytes) :
  length (getlines value)
  = (length (filter (fun c => c = nl) value)
     + match last value with
       | Some c => if bool_decide (c = nl) then 0 else 1
       | None => 0
       end)%nat.
Proof.
  induction value as [|c value IH]; [done|].
  simpl. rewrite filter_cons. case_bool_decide as Hc.
  - rewrite decide_True by done. simpl. rewrite IH.
    destruct value as [|c' value']; simpl.
    + subst c. by rewrite bool_decide_true.
    + done.
  - rewrite decide_False by done.
    destruct value as [|c' value'].
    + simpl. by rewrite bool_decide_false.
    + change (last (c :: c' :: value')) with (last (c' :: value')).
      rewrite <- IH.
      pose proof (getlines_nonempty (c' :: value') ltac:(done)).
      by destruct (getlines (c' :: value')).
Qed.

(** C5 (the code departs from it).  A tag whose value is empty is written zero
    times, not once: [std::getline] extracts no line from an empty stream.
    A container whose only tag is [a] with the empty value is written as the
    header followed by the bare tag marker. *)
Theorem write_omits_empty_value :
  (forall out key, write_tag out (key, []) = out)
  /\ write empty_value_psf
     = str "PSF" ++ [byte_of 36] ++ replicate 12 zero ++ str "[TAG]".
Proof. split; [done | by vm_compute]. Qed.

(** ** Little-endian fields *)

Lemma byte_val_range (c : ascii) : 0 <= byte_val c < 256.
Proof.
  unfold byte_val. pose proof (N_ascii_bounded c). lia.
Qed.

Lemma byte_val_of (v : Z) : 0 <= v < 256 -> byte_val (byte_of v) = v.
Proof.
  intros Hv. unfold byte_val, byte_of.
  rewrite N_ascii_embedding by lia. lia.
Qed.

Lemma lor_shiftl_add (a b k : Z) :
  0 <= k -> 0 <= a < 2 ^ k -> Z.lor a (Z.shiftl b k) = a + b * 2 ^ k.
Proof.
  intros Hk Ha. rewrite Z.shiftl_mul_pow2 by done.
  symmetry. apply Z.add_nocarry_lor. apply Z.bits_inj'. intros n Hn.
  rewrite Z.land_spec, Z.bits_0.
  destruct (decide (n < k)) as [Hlt|Hge].
  - rewrite Z.mul_pow2_bits_low by done. apply andb_false_r.
  - rewrite (proj1 (Z.bounded_iff_bits_nonneg k a Hk (proj1 Ha)) (proj2 Ha))
      by lia.
    done.
Qed.

Lemma le32_value (b0 b1 b2 b3 : ascii) :
  Z.lor (Z.lor (Z.lor (byte_val b0) (Z.shiftl (byte_val b1) 8))
               (Z.shiftl (byte_val b2) 16))
        (Z.shiftl (byte_val b3) 24)
  = byte_val b0 + byte_val b1 * 2 ^ 8 + byte_val b2 * 2 ^ 16
    + byte_val b3 * 2 ^ 24.
Proof.
  pose proof (byte_val_range b0). pose proof (byte_val_range b1).
  pose proof (byte_val_range b2). pose proof (byte_val_range b3).
  rewrite (lor_shiftl_add (byte_val b0)) by lia.
  rewrite (lor_shiftl_add (_ + _)) by lia.
  rewrite (lor_shiftl_add (_ + _)) by lia.
  done.
Qed.

Lemma ReadInt32L_range (ins : bytes) v rest :
  ReadInt32L ins = Some (v, rest) -> 0 <= v < 2 ^ 32 /\ len ins = 4 + len rest.
Proof.
  destruct ins as [|b0 [|b1 [|b2 [|b3 ins]]]]; try done.
  cbn [ReadInt32L]. intros [= <- <-]. rewrite le32_value.
  pose proof (byte_val_range b0). pose proof (byte_val_range b1).
  pose proof (byte_val_range b2). pose proof (byte_val_range b3).
  unfold len. cbn [length]. lia.
Qed.

Lemma land_255 (v : Z) : Z.land v 255 = v mod 256.
Proof. apply (Z.land_ones v 8). lia. Qed.

Lemma le32_decode_encode (v : Z) :
  0 <= v < 2 ^ 32 ->
  byte_val (byte_of (Z.land v 255))
  + byte_val (byte_of (Z.land (Z.shiftr v 8) 255)) * 2 ^ 8
  + byte_val (byte_of (Z.land (Z.shiftr v 16) 255)) * 2 ^ 16
  + byte_val (byte_of (Z.land (Z.shiftr v 24) 255)) * 2 ^ 24 = v.
Proof.
  intros Hv. rewrite !land_255, !Z.shiftr_div_pow2 by lia.
  rewrite !byte_val_of by (apply Z.mod_pos_bound; lia).
  change (2 ^ 8) with 256. change (2 ^ 16) with 65536.
  change (2 ^ 24) with 16777216. change (2 ^ 32) with 4294967296 in Hv.
  Z.div_mod_to_equations. lia.
Qed.

Lemma ReadStreamAsInt8_cons (c : ascii) (rest : bytes) :
  ReadStreamAsInt8 (c :: rest) = Some (byte_val c, rest).
Proof. done. Qed.

Lemma ReadStreamAsInt32L_insert (v : Z) (rest : bytes) :
  0 <= v < 2 ^ 32 ->
  ReadStreamAsInt32L (InsertInt32L [] v ++ rest) = Some (v, rest).
Proof.
  intros Hv. unfold InsertInt32L, ReadStreamAsInt32L, istream_read.
  change (Z.to_nat 4) with 4%nat. cbn [app take drop].
  by rewrite le32_value, le32_decode_encode.
Qed.

(** ** The layout of a container file *)

Lemma len_app (a b : bytes) : len (a ++ b) = len a + len b.
Proof. unfold len. rewrite length_app. lia. Qed.

Lemma len_nonneg (a : bytes) : 0 <= len a.
Proof. unfold len. lia. Qed.

Lemma len_header v r e c : len (header v r e c) = 16.
Proof. done. Qed.

Lemma InsertInt32L_app (out : bytes) (v : Z) : InsertInt32L out v = out ++ le32 v.
Proof. done. Qed.

Lemma parse_header (v r e c : Z) (body : bytes) :
  0 <= v < 256 -> 0 <= r < 2 ^ 32 -> 0 <= e < 2 ^ 32 -> 0 <= c < 2 ^ 32 ->
  parse (header v r e c ++ body) = read_areas (16 + len body) v r e c body.
Proof.
  intros Hv Hr He Hc. unfold parse.
  rewrite len_app, len_header.
  unfold header. rewrite <- !app_assoc.
  change kPSFSignature with ["P"; "S"; "F"]%char.
  unfold istream_read. change (Z.to_nat kPSFSignatureSize) with 3%nat.
  cbn [app take drop].
  change (len ["P"; "S"; "F"]%char =? kPSFSignatureSize) with true.
  change (bytes_eqb ["P"; "S"; "F"]%char ["P"; "S"; "F"]%char) with true.
  cbn [negb]. rewrite ReadStreamAsInt8_cons, byte_val_of by done.
  unfold le32. by rewrite !ReadStreamAsInt32L_insert.
Qed.

Lemma istream_read_app (a b : bytes) : istream_read (len a) (a ++ b) = (a, b).
Proof.
  unfold istream_read, len. rewrite Nat2Z.id.
  by rewrite take_app_length, drop_app_length.
Qed.

Lemma istream_read_all (n : Z) (a : bytes) :
  len a <= n -> istream_read n a = (a, []).
Proof.
  unfold istream_read, len. intros Hn.
  rewrite take_ge, drop_ge by lia. done.
Qed.

Lemma len_take (n : Z) (a : bytes) : 0 <= n <= len a -> len (take (Z.to_nat n) a) = n.
Proof. unfold len. intros Hn. rewrite length_take. lia. Qed.

Lemma len_drop (n : Z) (a : bytes) : 0 <= n -> len (drop (Z.to_nat n) a) = Z.max 0 (len a - n).
Proof. unfold len. intros Hn. rewrite length_drop. lia. Qed.

(** Below 4 GiB no size computation wraps: the areas are read back and the tag
    block is parsed exactly when the marker follows them. *)
Lemma read_areas_layout (v c : Z) (reserved exe rest : bytes) :
  16 + len reserved + len exe + 5 < 2 ^ 32 -> len rest < 2 ^ 64 ->
  read_areas (16 + len (reserved ++ exe ++ rest)) v (len reserved) (len exe) c
             (reserved ++ exe ++ rest)
  = inr (mkPSF v reserved exe c
           (if bool_decide (take 5 rest = kPSFTagMarker)
            then parse_tags (drop 5 rest) else ∅)).
Proof.
  intros Hfit Hrest.
  pose proof (len_nonneg reserved). pose proof (len_nonneg exe).
  pose proof (len_nonneg rest).
  unfold read_areas. rewrite !len_app.
  unfold wrap32, kPSFTagMarkerSize. rewrite !Z.mod_small by lia.
  destruct (Z.gtb_spec (16 + len reserved + len exe)
                       (16 + (len reserved + (len exe + len rest)))); [lia|].
  rewrite istream_read_app, Z.eqb_refl. cbn [negb].
  rewrite istream_read_app, Z.eqb_refl. cbn [negb].
  destruct (Z.leb_spec (16 + len reserved + len exe + 5)
                       (16 + (len reserved + (len exe + len rest)))) as [Hm|Hm].
  - unfold istream_read at 1. change (Z.to_nat 5) with 5%nat.
    replace (len (take 5 rest) =? 5) with true
      by (symmetry; apply Z.eqb_eq; apply (len_take 5); lia).
    cbn [andb]. unfold bytes_eqb. case_bool_decide as Hmark; [|done].
    replace (wrap64 _) with (len (drop 5 rest)).
    2:{ unfold wrap64. rewrite (len_drop 5) by lia.
        rewrite Z.mod_small by lia. lia. }
    rewrite istream_read_all by lia. by rewrite Z.eqb_refl.
  - rewrite bool_decide_false; [done|].
    intros Hmark. apply (f_equal length) in Hmark.
    rewrite length_take in Hmark.
    change (length kPSFTagMarker) with 5%nat in Hmark. unfold len in *. lia.
Qed.

(** ** Reading back what [write] wrote *)

Lemma fold_write_tag (entries : list (bytes * bytes)) (out : bytes) :
  fold_left write_tag entries out = out ++ tag_text entries.
Proof.
  unfold tag_text. revert out.
  induction entries as [|[k v] entries IH] using rev_ind; intros out.
  - simpl. by rewrite app_nil_r.
  - rewrite !fold_left_app. cbn [fold_left]. rewrite IH.
    rewrite !write_tag_repeat. by rewrite <- app_assoc.
Qed.

Lemma tag_text_cons (entry : bytes * bytes) (entries : list (bytes * bytes)) :
  tag_text (entry :: entries) = write_tag [] entry ++ tag_text entries.
Proof. unfold tag_text at 1. cbn [fold_left]. apply fold_write_tag. Qed.

Lemma write_as_layout (entries : list (bytes * bytes)) (psf : PSFFile) :
  write_as entries psf
  = header (version psf) (wrap32 (len (reserved psf)))
           (wrap32 (len (compressed_exe psf))) (compressed_exe_crc32 psf)
    ++ reserved psf ++ compressed_exe psf
    ++ (if bool_decide (tags psf = ∅) then []
        else kPSFTagMarker ++ tag_text entries).
Proof.
  unfold write_as, header, InsertInt8. rewrite !InsertInt32L_app.
  case_bool_decide.
  - by rewrite app_nil_r, <- !app_assoc.
  - rewrite fold_write_tag. by rewrite <- !app_assoc.
Qed.

Lemma break_at_app (c : ascii) (a b : bytes) :
  c ∉ a -> break_at c (a ++ c :: b) = (a, Some b).
Proof.
  induction a as [|x a IH]; intros Hc; simpl.
  - by rewrite bool_decide_true.
  - rewrite bool_decide_false by (intros ->; apply Hc; by left).
    rewrite IH; [done|]. intros Hin. apply Hc. by right.
Qed.

Lemma getlines_app (line rest : bytes) :
  nl ∉ line -> getlines (line ++ nl :: rest) = line :: getlines rest.
Proof.
  induction line as [|c line IH]; intros Hnl; simpl; [done|].
  rewrite bool_decide_false by (intros ->; apply Hnl; by left).
  rewrite IH; [done|]. intros Hin. apply Hnl. by right.
Qed.

Lemma write_tag_plain (key value : bytes) :
  plain_entry (key, value) ->
  write_tag [] (key, value) = (key ++ "="%char :: value) ++ [nl].
Proof.
  intros (_ & _ & [_ Hnl] & Hne). cbn [fst snd] in *.
  rewrite write_tag_repeat, getlines_plain by done.
  simpl. rewrite app_nil_r. by rewrite <- app_assoc.
Qed.

Lemma line_entry_plain (key value : bytes) :
  plain_entry (key, value) ->
  line_entry (key ++ "="%char :: value) = Some (key, value).
Proof.
  intros ([Hk _] & Heq & [Hv _] & _). cbn [fst snd] in *.
  unfold line_entry. rewrite break_at_app by done. by rewrite Hk, Hv.
Qed.

Lemma getlines_tag_text (entries : list (bytes * bytes)) :
  Forall plain_entry entries ->
  getlines (tag_text entries)
  = map (fun entry => entry.1 ++ "="%char :: entry.2) entries.
Proof.
  induction 1 as [|[k v] entries Hkv _ IH]; [done|].
  rewrite tag_text_cons, write_tag_plain by done.
  rewrite <- app_assoc. cbn [app map fst snd].
  rewrite getlines_app, IH; [done|].
  destruct Hkv as ([_ Hk] & _ & [_ Hv] & _). cbn [fst snd] in *.
  intros [Hin|Hin]%elem_of_app; [done|].
  apply elem_of_cons in Hin as [Hin|Hin]; [|done].
  by vm_compute in Hin.
Qed.

Lemma values_of_absent (key : bytes) (entries : list (bytes * bytes)) :
  Forall plain_entry entries -> key ∉ entries.*1 ->
  values_of key (map (fun entry => entry.1 ++ "="%char :: entry.2) entries) = [].
Proof.
  induction 1 as [|[k v] entries Hkv _ IH]; intros Hkey; [done|].
  cbn [map fst snd]. rewrite values_of_cons, line_entry_plain by done.
  rewrite bool_decide_false.
  - apply IH. intros Hin. apply Hkey. by right.
  - intros ->. apply Hkey. by left.
Qed.

Lemma parse_tags_tag_text (entries : list (bytes * bytes)) :
  Forall plain_entry entries -> NoDup entries.*1 ->
  parse_tags (tag_text entries) = list_to_map entries.
Proof.
  intros Hplain Hnd. apply map_eq. intros key.
  rewrite parse_tags_lookup, getlines_tag_text by done.
  induction Hplain as [|[k v] entries Hkv Hplain IH]; [done|].
  apply NoDup_cons in Hnd as [Hk Hnd].
  cbn [map fst snd list_to_map foldr]. rewrite values_of_cons.
  rewrite line_entry_plain by done. case_bool_decide as Hkey.
  - subst key. rewrite values_of_absent by done. simpl.
    by rewrite lookup_insert_eq.
  - rewrite lookup_insert_ne by done. by apply IH.
Qed.

(** C6 (as amended).  For a container that fits the layout, whatever the order
    in which the tags are written, parsing the written bytes succeeds and gives
    back the version byte, the reserved bytes, the payload bytes and the CRC32
    field; it gives back the tag map too when every tag is one that a single
    [key=value] line can carry: key and value have nothing to trim and no
    newline, the key has no [=], the value is not empty. *)
Theorem parse_write_roundtrip (psf : PSFFile) (entries : list (bytes * bytes)) :
  entries ≡ₚ map_to_list (tags psf) ->
  fits_layout entries psf ->
  exists psf',
    parse (write_as entries psf) = inr psf'
    /\ version psf' = version psf
    /\ reserved psf' = reserved psf
    /\ compressed_exe psf' = compressed_exe psf
    /\ compressed_exe_crc32 psf' = compressed_exe_crc32 psf
    /\ (map_Forall (fun k v => plain_entry (k, v)) (tags psf) ->
        tags psf' = tags psf).
Proof.
  intros Hperm (Hv & Hc & Hfit & Hsize).
  pose proof (len_nonneg (reserved psf)). pose proof (len_nonneg (compressed_exe psf)).
  rewrite write_as_layout in Hsize |- *.
  unfold wrap32 in *. rewrite !Z.mod_small in Hsize |- * by lia.
  rewrite !len_app, len_header in Hsize.
  rewrite parse_header by lia.
  rewrite read_areas_layout by lia.
  eexists. split; [done|]. cbn [version reserved compressed_exe
                                compressed_exe_crc32 tags].
  do 4 (split; [done|]). intros Hplain.
  case_bool_decide as Hempty.
  - rewrite Hempty. by rewrite bool_decide_false.
  - change (take 5 (kPSFTagMarker ++ tag_text entries)) with kPSFTagMarker.
    rewrite bool_decide_true by done.
    change (drop 5 (kPSFTagMarker ++ tag_text entries)) with (tag_text entries).
    rewrite parse_tags_tag_text.
    + transitivity (list_to_map (map_to_list (tags psf)) : gmap bytes bytes);
        [|apply list_to_map_to_list].
      apply list_to_map_proper; [|done].
      rewrite Hperm. apply NoDup_fst_map_to_list.
    + rewrite Hperm. apply Forall_forall. intros [k v] Hin.
      apply elem_of_map_to_list in Hin. by apply Hplain in Hin.
    + rewrite Hperm. apply NoDup_fst_map_to_list.
Qed.

Lemma parse_write_roundtrip_witness :
  fits_layout (map_to_list (tags tagged_psf)) tagged_psf
  /\ exists psf',
       parse (write tagged_psf) = inr psf'
       /\ version psf' = version tagged_psf
       /\ reserved psf' = reserved tagged_psf
       /\ compressed_exe psf' = compressed_exe tagged_psf
       /\ compressed_exe_crc32 psf' = compressed_exe_crc32 tagged_psf
       /\ tags psf' = tags tagged_psf.
Proof.
  assert (Hfit : fits_layout (map_to_list (tags tagged_psf)) tagged_psf)
    by (repeat split; by vm_compute).
  split; [exact Hfit|].
  assert (Hplain : map_Forall (fun k v => plain_entry (k, v)) (tags tagged_psf))
    by (apply (bool_decide_unpack _); by vm_compute).
  destruct (parse_write_roundtrip tagged_psf (map_to_list (tags tagged_psf))
              (Permutation_refl _) Hfit)
    as (psf' & Hparse & Hv & Hr & He & Hc & Htags).
  exists psf'. exact (conj Hparse (conj Hv (conj Hr (conj He (conj Hc
                        (Htags Hplain)))))).
Defined.

(** C6 as stated fails: with no newline in any value, a value that has a
    leading space comes back trimmed.  (An empty value does not come back at
    all: it is never written.) *)
Lemma roundtrip_trims_value :
  fits_layout (map_to_list (tags padded_psf)) padded_psf
  /\ map_Forall (fun _ v => nl ∉ v) (tags padded_psf)
  /\ parse (write padded_psf)
     = inr (mkPSF k2SFVersionByte [] [] 0 {[ str "k" := str "v" ]})
  /\ ({[ str "k" := str "v" ]} : gmap bytes bytes) <> tags padded_psf
  /\ fits_layout (map_to_list (tags empty_value_psf)) empty_value_psf
  /\ map_Forall (fun _ v => nl ∉ v) (tags empty_value_psf)
  /\ parse (write empty_value_psf) = inr (mkPSF k2SFVersionByte [] [] 0 ∅).
Proof.
  assert (Hne : ({[ str "k" := str "v" ]} : gmap bytes bytes)
                <> tags padded_psf).
  { intros Heq. apply (f_equal (fun m => m !! str "k")) in Heq.
    by vm_compute in Heq. }
  refine (conj _ (conj _ (conj _ (conj Hne (conj _ (conj _ _)))))).
  - unfold fits_layout. repeat split; by vm_compute.
  - apply (bool_decide_unpack _). by vm_compute.
  - by vm_compute.
  - unfold fits_layout. repeat split; by vm_compute.
  - apply (bool_decide_unpack _). by vm_compute.
  - by vm_compute.
Qed.

(** ** The tag marker gate *)

(** Below 4 GiB the constructor does what section 4.3 says: with the header
    fields [r] and [e] and [16 + r + e] bytes at hand, the areas are read, and
    the tag block is parsed exactly when five more bytes follow and are the
    marker; anything else after the areas is ignored. *)
Lemma parse_tag_gate (v r e c : Z) (body : bytes) :
  0 <= v < 256 -> 0 <= c < 2 ^ 32 -> 0 <= r -> 0 <= e ->
  r + e <= len body -> 16 + len body + 5 < 2 ^ 32 ->
  let file := header v r e c ++ body in
  let mandatory_size := 16 + r + e in
  parse file
  = inr (mkPSF v (take (Z.to_nat r) body)
               (take (Z.to_nat e) (drop (Z.to_nat r) body)) c
               (if bool_decide (mandatory_size + 5 <= len file
                                /\ take 5 (drop (Z.to_nat mandatory_size) file)
                                   = kPSFTagMarker)
                then parse_tags (drop (Z.to_nat (mandatory_size + 5)) file)
                else ∅)).
Proof.
  intros Hv Hc Hr He Hbody Hfit file mandatory_size. subst file mandatory_size.
  pose proof (len_nonneg body).
  set (reserved := take (Z.to_nat r) body).
  set (exe := take (Z.to_nat e) (drop (Z.to_nat r) body)).
  set (rest := drop (Z.to_nat e) (drop (Z.to_nat r) body)).
  assert (Hsplit : body = reserved ++ exe ++ rest).
  { subst reserved exe rest. by rewrite !take_drop. }
  assert (Hlr : len reserved = r) by (apply len_take; lia).
  assert (Hle : len exe = e).
  { apply len_take. rewrite len_drop by lia. lia. }
  assert (Hdrop : forall n : nat,
             drop (Z.to_nat (16 + r + e) + n) (header v r e c ++ body)
             = drop n rest).
  { intros n. replace (Z.to_nat (16 + r + e) + n)%nat
      with (length (header v r e c) + (length reserved + (length exe + n)))%nat
      by (change (length (header v r e c)) with 16%nat; unfold len in *; lia).
    rewrite drop_app_add, Hsplit, drop_app_add, drop_app_add. done. }
  rewrite parse_header by lia.
  rewrite Hsplit at 1 2. rewrite <- Hlr at 1. rewrite <- Hle at 1.
  rewrite read_areas_layout.
  2:{ rewrite Hsplit, !len_app in Hfit. pose proof (len_nonneg rest). lia. }
  2:{ rewrite Hsplit, !len_app in Hfit. pose proof (len_nonneg exe).
      pose proof (len_nonneg reserved). lia. }
  do 2 f_equal.
  replace (Z.to_nat (16 + r + e + 5)) with (Z.to_nat (16 + r + e) + 5)%nat
    by lia.
  rewrite Hdrop. rewrite <- (Nat.add_0_r (Z.to_nat (16 + r + e))).
  rewrite Hdrop, drop_0.
  destruct (decide (take 5 rest = kPSFTagMarker)) as [Hm|Hm].
  - rewrite !bool_decide_true; [done| |done]. split; [|done].
    apply (f_equal length) in Hm. rewrite length_take in Hm.
    change (length kPSFTagMarker) with 5%nat in Hm.
    rewrite len_app, len_header, Hsplit, !len_app. unfold len in *. lia.
  - rewrite !bool_decide_false; [done| |done]. by intros [_ ?].
Qed.

Lemma len_replicate (n : Z) (c : ascii) :
  0 <= n -> len (replicate (Z.to_nat n) c) = n.
Proof. intros Hn. unfold len. rewrite length_replicate. lia. Qed.

(** From 4 GiB on the 32-bit sum [0x10 + reserved_size + compressed_exe_size]
    wraps: the marker is found where the areas end, but the size of the tag
    area is computed from the wrapped sum and the read comes short. *)
Lemma read_areas_wraps (v c : Z) (reserved exe text : bytes) :
  len reserved = 2147483648 -> len exe = 2147483648 -> len text < 2 ^ 32 ->
  read_areas (16 + len (reserved ++ exe ++ kPSFTagMarker ++ text))
             v 2147483648 2147483648 c
             (reserved ++ exe ++ kPSFTagMarker ++ text)
  = inl TagAreaUnreadable.
Proof.
  intros Hr He Ht. pose proof (len_nonneg text).
  unfold read_areas. rewrite !len_app, Hr, He.
  change (len kPSFTagMarker) with 5.
  change (wrap32 (16 + 2147483648 + 2147483648)) with 16.
  change (wrap32 (16 + 2147483648 + 2147483648 + kPSFTagMarkerSize)) with 21.
  unfold kPSFTagMarkerSize.
  destruct (Z.gtb_spec 16 (16 + (2147483648 + (2147483648 + (5 + len text)))));
    [lia|].
  rewrite <- Hr at 1. rewrite istream_read_app, Hr, Z.eqb_refl. cbn [negb].
  rewrite <- He at 1. rewrite istream_read_app, He, Z.eqb_refl. cbn [negb].
  destruct (Z.leb_spec (16 + 5)
              (16 + (2147483648 + (2147483648 + (5 + len text))))); [|lia].
  change (istream_read 5 (kPSFTagMarker ++ text)) with (kPSFTagMarker, text).
  change (len kPSFTagMarker =? 5) with true.
  unfold bytes_eqb. rewrite bool_decide_true by done. cbn [andb].
  unfold wrap64. rewrite Z.mod_small by lia.
  rewrite istream_read_all by lia.
  destruct (Z.eqb_spec (len text)
              (16 + (2147483648 + (2147483648 + (5 + len text))) - 21));
    [lia|done].
Qed.

(** C8 (the code departs from it).  A file of 4 GiB and 25 bytes: the header
    declares two areas of 2 GiB each, the areas follow, then the marker and
    the tag text [a=1].  All of [16 + reserved_len + payload_len + 5] bytes
    are there and the marker is in place, yet the constructor parses no
    tags: it fails with "Unable to read the tag area." *)
Theorem parse_tag_area_wraps :
  parse (header k2SFVersionByte 2147483648 2147483648 0
         ++ replicate (Z.to_nat 2147483648) zero
         ++ replicate (Z.to_nat 2147483648) zero
         ++ kPSFTagMarker ++ str "a=1" ++ [nl])
  = inl TagAreaUnreadable.
Proof.
  rewrite parse_header by (unfold k2SFVersionByte; lia).
  apply read_areas_wraps.
  - by apply len_replicate.
  - by apply len_replicate.
  - by vm_compute.
Qed.

(** ** The library loop ends *)

Lemma pretty_N_go_length (x : N) (s : string) :
  (String.length s <= String.length (pretty_N_go x s))%nat.
Proof.
  revert s. induction (N.lt_wf_0 x) as [x _ IH]. intros s.
  destruct (decide (0 < x)%N) as [Hx|Hx].
  - rewrite pretty_N_go_step by done.
    etrans; [|apply IH; by apply N.div_lt]. simpl. lia.
  - assert (x = 0%N) as -> by lia. by rewrite pretty_N_go_0.
Qed.

Lemma pretty_positive_nonempty (lib_index : Z) :
  1 <= lib_index -> pretty lib_index <> "".
Proof.
  destruct lib_index as [|p|p]; [lia| |lia]. intros _.
  unfold pretty, pretty_Z, pretty, pretty_positive, pretty, pretty_N.
  rewrite decide_False by done. rewrite pretty_N_go_step by lia.
  intros Heq.
  pose proof (pretty_N_go_length (N.pos p `div` 10)
                (String (pretty_N_char (N.pos p `mod` 10)) "")) as Hlen.
  rewrite Heq in Hlen. simpl in Hlen. lia.
Qed.

Lemma str_inj (s t : string) : str s = str t -> s = t.
Proof.
  unfold str. intros Heq.
  rewrite <- (string_of_list_ascii_of_string s).
  rewrite <- (string_of_list_ascii_of_string t). by rewrite Heq.
Qed.

Lemma lib_tag_name_inj (i j : Z) :
  1 <= i -> 1 <= j -> lib_tag_name i = lib_tag_name j -> i = j.
Proof.
  unfold lib_tag_name. intros Hi Hj Heq. apply app_inv_head in Heq.
  destruct (Z.gtb_spec i 1), (Z.gtb_spec j 1); try lia.
  - apply str_inj in Heq. by apply (inj pretty) in Heq.
  - destruct (pretty i) eqn:E; [|done].
    by apply pretty_positive_nonempty in E.
  - destruct (pretty j) eqn:E; [|done].
    by apply pretty_positive_nonempty in E.
Qed.

(** The tags [_lib], [_lib2], ... up to an index are entries of the map, so
    there are no more of them than the map has entries. *)
Lemma lib_tags_bound (tags : gmap bytes bytes) (i : Z) :
  (forall j, 1 <= j < i -> is_Some (tags !! lib_tag_name j)) ->
  i - 1 <= Z.of_nat (size tags).
Proof.
  intros Hpresent.
  set (names := (fun n : nat => lib_tag_name (Z.of_nat n + 1))
                  <$> seq 0 (Z.to_nat (i - 1))).
  assert (Hnd : NoDup names).
  { apply NoDup_fmap_2_strong; [|apply NoDup_seq].
    intros n1 n2 _ _ Heq. apply lib_tag_name_inj in Heq; lia. }
  assert (Hsub : (list_to_set names : gset bytes) ⊆ dom tags).
  { intros name Hin. apply elem_of_list_to_set in Hin.
    apply list_elem_of_fmap in Hin as (n & -> & Hn).
    apply elem_of_seq in Hn. apply elem_of_dom. apply Hpresent. lia. }
  apply subseteq_size in Hsub.
  rewrite size_list_to_set, size_dom in Hsub by done.
  subst names. rewrite length_fmap, length_seq in Hsub. lia.
Qed.

Section Termination.
Context `{Collaborators}.

Lemma load_libs_total
    (call : bytes -> bool -> machine -> option (machine * outcome))
    (tags : gmap bytes bytes) (rounds : nat) (i : Z) (first_load : bool)
    (m : machine) :
  (forall lib b m, is_Some (call lib b m)) ->
  1 <= i -> Z.of_nat rounds + i = Z.of_nat (size tags) + 2 ->
  (forall j, 1 <= j < i -> is_Some (tags !! lib_tag_name j)) ->
  is_Some (load_libs call tags rounds i first_load m).
Proof.
  intros Hcall. revert i first_load m.
  induction rounds as [|rounds IH]; intros i first_load m Hi Hrounds Hpresent.
  - apply lib_tags_bound in Hpresent. lia.
  - cbn [load_libs]. destruct (tags !! lib_tag_name i) as [lib|] eqn:Hlib; [|done].
    destruct (Hcall lib first_load m) as [[m' o] ->].
    destruct o; try done.
    apply IH; [lia|lia|]. intros j Hj.
    destruct (decide (j = i)) as [->|]; [done|]. apply Hpresent. lia.
Qed.

Lemma load_2sf_rec_total (fuel : nat) (filename : bytes) (lib_nest_level : Z)
    (first_load : bool) (m : machine) :
  Z.max 0 (kPSFLibMaxNestLevel - lib_nest_level) < Z.of_nat fuel ->
  is_Some (load_2sf_rec fuel filename lib_nest_level first_load m).
Proof.
  revert filename lib_nest_level first_load m.
  induction fuel as [|fuel IH]; intros filename l first_load m Hfuel; [lia|].
  - cbn [load_2sf_rec].
    destruct (Z.geb_spec l kPSFLibMaxNestLevel); [done|].
    destruct (PSFFile_open _ _) as [e|psf]; [done|].
    destruct (crc32_ok psf); cbn [negb]; [|done].
    destruct (load_libs_total
                (fun lib => load_2sf_rec fuel lib (l + 1)) (tags psf)
                (S (size (tags psf))) 1 first_load
                (log (Opened l (cwd m) filename) m))
      as [[[m' b'] o] ->].
    + intros lib b m0. apply IH. unfold kPSFLibMaxNestLevel in *. lia.
    + lia.
    + lia.
    + intros j Hj. lia.
    + by destruct o.
Qed.

Lemma load_2sf_chdir_rec_total (fuel : nat) (filename : bytes)
    (lib_nest_level : Z) (first_load : bool) (m : machine) :
  Z.max 0 (kPSFLibMaxNestLevel - lib_nest_level) < Z.of_nat fuel ->
  is_Some (load_2sf_chdir_rec fuel filename lib_nest_level first_load m).
Proof.
  revert filename lib_nest_level first_load m.
  induction fuel as [|fuel IH]; intros filename l first_load m Hfuel; [lia|].
  cbn [load_2sf_chdir_rec].
  destruct (Z.geb_spec l kPSFLibMaxNestLevel); [done|].
  destruct (path_getabspath _ _) as [absolute_path|]; [|done].
  destruct (PSFFile_open _ _) as [e|psf]; [done|].
  destruct (crc32_ok psf); cbn [negb]; [|done].
  match goal with
  | |- context [load_libs ?call ?tags ?rounds ?i ?b ?m0] =>
      destruct (load_libs_total call tags rounds i b m0) as [[[m' b'] o] ->]
  end.
  - intros lib b m0. unfold in_directory.
    destruct (IH lib (l + 1) b (chdir (path_dirname absolute_path) m0))
      as [[m1 o1] ->]; [unfold kPSFLibMaxNestLevel in *; lia|].
    by destruct o1.
  - lia.
  - lia.
  - intros j Hj. lia.
  - by destruct o.
Qed.

Lemma load_2sf_total (filename : bytes) (lib_nest_level : Z)
    (first_load : bool) (m : machine) :
  is_Some (load_2sf filename lib_nest_level first_load m)
  /\ is_Some (load_2sf_chdir filename lib_nest_level first_load m).
Proof.
  split; [apply load_2sf_rec_total | apply load_2sf_chdir_rec_total];
    unfold depth_fuel; lia.
Qed.

End Termination.

(** ** The steps of a load *)

(** Closes a case in which the last step of a load fails: the outcome is one
    of the failures and the machine keeps its trace and directory. *)
Ltac step_fails Hrun :=
  injection Hrun as <- <-; right;
  split; [exact I | by (split; try done)].

Section Steps.
Context `{Collaborators}.

(** The loop over the library tags keeps an invariant [I] of the flag and the
    machine that every returning call re-establishes with the flag cleared;
    a call that does not return ends the loop with its outcome. *)
Lemma load_libs_rule
    (call : bytes -> bool -> machine -> option (machine * outcome))
    (tags : gmap bytes bytes) (I : bool -> machine -> Prop)
    (Q : machine -> outcome -> Prop) :
  (forall lib b m m' o, I b m -> call lib b m = Some (m', o) ->
     match o with Returned => I false m' | _ => Q m' o end) ->
  forall rounds i b m m' b' o,
    I b m -> load_libs call tags rounds i b m = Some (m', b', o) ->
    match o with Returned => I b' m' | _ => Q m' o end.
Proof.
  intros Hcall. induction rounds as [|rounds IH]; intros i b m m' b' o HI Hrun;
    [done|].
  cbn [load_libs] in Hrun.
  destruct (tags !! lib_tag_name i) as [lib|]; [|by simplify_eq].
  destruct (call lib b m) as [[m1 o1]|] eqn:Hc; [|done].
  specialize (Hcall lib b m m1 o1 HI Hc).
  destruct o1; simplify_eq; [|done..].
  exact (IH _ _ _ _ _ _ Hcall Hrun).
Qed.

Lemma ensure_rom_inr (load_offset load_size : Z) (first_load : bool)
    (m m1 : machine) :
  ensure_rom load_offset load_size first_load m = inr m1 ->
  cwd m1 = cwd m /\ trace m1 = trace m
  /\ wrap32 (load_offset + load_size) <= kNDSRomMaxSize
  /\ rom m1 = (if first_load
               then resize (wrap32 (load_offset + load_size)) (rom m)
               else rom m)
  /\ (first_load = false -> wrap32 (load_offset + load_size) <= len (rom m)).
Proof.
  unfold ensure_rom. intros Hrun.
  destruct (Z.gtb_spec (wrap32 (load_offset + load_size)) kNDSRomMaxSize);
    [done|].
  destruct first_load; [by simplify_eq|].
  destruct (Z.gtb_spec (wrap32 (load_offset + load_size)) (len (rom m)));
    by simplify_eq.
Qed.

Lemma ensure_rom_inl (load_offset load_size : Z) (first_load : bool)
    (m : machine) (e : error) :
  ensure_rom load_offset load_size first_load m = inl e ->
  e = SizeLimitError \/ e = OutOfBoundsError.
Proof.
  unfold ensure_rom. intros Hrun.
  destruct (_ >? kNDSRomMaxSize); [left; congruence|].
  destruct first_load; [done|].
  destruct (_ >? len (rom m)); [right; congruence|done].
Qed.

(** The size limit holds when the 32-bit sum does not wrap: a program whose
    offset and size add up to more than 128 MiB and less than 4 GiB is
    refused. *)
Lemma ensure_rom_limit (load_offset load_size : Z) (first_load : bool)
    (m : machine) :
  kNDSRomMaxSize < load_offset + load_size < 2 ^ 32 ->
  ensure_rom load_offset load_size first_load m = inl SizeLimitError.
Proof.
  intros Hsum. unfold ensure_rom, wrap32. rewrite Z.mod_small.
  - by destruct (Z.gtb_spec (load_offset + load_size) kNDSRomMaxSize); [|lia].
  - unfold kNDSRomMaxSize in *. lia.
Qed.

Lemma copy_program_cases (psf : PSFFile) (first_load : bool) (m m' : machine)
    (o : outcome) :
  copy_program psf first_load m = (m', o) ->
  (o = Returned /\ placed first_load m m')
  \/ (step_failure o /\ trace m' = trace m /\ cwd m' = cwd m).
Proof.
  unfold copy_program, step_failure. intros Hrun.
  destruct (inflate _) as [exe|]; [|step_fails Hrun].
  destruct (Z.ltb_spec (len exe) 8); [step_fails Hrun|].
  destruct (ReadInt32L exe) as [[load_offset it]|] eqn:Hlo;
    [|step_fails Hrun].
  destruct (ReadInt32L it) as [[load_size exe_iter]|] eqn:Hls;
    [|step_fails Hrun].
  pose proof (ReadInt32L_range _ _ _ Hlo) as [Hlo_range _].
  pose proof (ReadInt32L_range _ _ _ Hls) as [Hls_range _].
  destruct (ensure_rom _ _ _ _) as [e|m1] eqn:Hrom.
  { apply ensure_rom_inl in Hrom as [-> | ->]; step_fails Hrun. }
  pose proof (ensure_rom_inr _ _ _ _ _ Hrom) as (Hcwd & Htrace & _).
  destruct (Z.ltb_spec (len exe) (wrap32 (8 + load_size)));
    [step_fails Hrun|].
  destruct (Z.ltb_spec (len exe_iter) load_size); [step_fails Hrun|].
  assert (Hlen : len (take (Z.to_nat load_size) exe_iter) = load_size)
    by (apply len_take; lia).
  destruct (blit _ _ _) as [r|] eqn:Hblit; [|step_fails Hrun].
  injection Hrun as <- <-. left. split; [done|].
  exists load_offset, (take (Z.to_nat load_size) exe_iter), m1, r.
  rewrite Hlen. repeat split; try done; lia.
Qed.

Lemma read_program_cases (psf : PSFFile) (first_load : bool) (m m' : machine)
    (o : outcome) :
  read_program psf first_load m = (m', o) ->
  (o = Returned /\ placed first_load m m')
  \/ (step_failure o /\ trace m' = trace m /\ cwd m' = cwd m).
Proof.
  unfold read_program, step_failure. intros Hrun.
  destruct (ReadInt32L (zlib_reader _)) as [[load_offset it]|] eqn:Hlo;
    [|step_fails Hrun].
  destruct (ReadInt32L it) as [[load_size stream]|] eqn:Hls;
    [|step_fails Hrun].
  pose proof (ReadInt32L_range _ _ _ Hlo) as [Hlo_range _].
  pose proof (ReadInt32L_range _ _ _ Hls) as [Hls_range _].
  destruct (ensure_rom _ _ _ _) as [e|m1] eqn:Hrom.
  { apply ensure_rom_inl in Hrom as [-> | ->]; step_fails Hrun. }
  pose proof (ensure_rom_inr _ _ _ _ _ Hrom) as (Hcwd & Htrace & _).
  destruct (blit _ _ _) as [r|] eqn:Hblit; [|step_fails Hrun].
  destruct (Z.eqb_spec (len (take (Z.to_nat load_size) stream)) load_size)
    as [Hlen|Hlen]; cbn [negb] in Hrun; [|step_fails Hrun].
  injection Hrun as <- <-. left. split; [done|].
  exists load_offset, (take (Z.to_nat load_size) stream), m1, r.
  rewrite Hlen. repeat split; try done; lia.
Qed.

(** *** The rom image as the replay of the copies *)

Lemma len_resize (n : Z) (r : bytes) : 0 <= n -> len (resize n r) = n.
Proof.
  intros Hn. unfold resize. rewrite len_app. unfold len.
  rewrite length_take, length_replicate. lia.
Qed.

Lemma resize_nil (n : Z) : resize n [] = replicate (Z.to_nat n) zero.
Proof. unfold resize. rewrite take_nil. simpl. f_equal. lia. Qed.

Lemma blit_length (data : bytes) (at_ : Z) (dst r : bytes) :
  0 <= at_ -> blit data at_ dst = Some r -> length r = length dst.
Proof.
  unfold blit. intros Hat Hblit. destruct data as [|c data]; [by simplify_eq|].
  destruct (Z.ltb_spec (len dst) (at_ + len (c :: data))); simplify_eq.
  rewrite !length_app, length_take, length_drop. unfold len in *. lia.
Qed.

Lemma blit_lookup_other (data : bytes) (at_ : Z) (dst r : bytes) (i : nat) :
  0 <= at_ -> blit data at_ dst = Some r ->
  ~ (at_ <= Z.of_nat i < at_ + len data) -> r !! i = dst !! i.
Proof.
  unfold blit. intros Hat Hblit Hout.
  destruct data as [|c data]; [by simplify_eq|].
  destruct (Z.ltb_spec (len dst) (at_ + len (c :: data))); simplify_eq.
  unfold len in *.
  destruct (decide (i < Z.to_nat at_)%nat).
  - rewrite lookup_app_l by (rewrite length_take; lia).
    by rewrite lookup_take_lt.
  - rewrite lookup_app_r by (rewrite length_take; lia).
    rewrite length_take.
    rewrite lookup_app_r by lia.
    rewrite lookup_drop. f_equal. lia.
Qed.

Lemma blit_lookup_data (data : bytes) (at_ : Z) (dst r : bytes) (i : nat) :
  0 <= at_ -> blit data at_ dst = Some r -> (i < length data)%nat ->
  r !! (Z.to_nat at_ + i)%nat = data !! i.
Proof.
  unfold blit. intros Hat Hblit Hi.
  destruct data as [|c data]; [simpl in Hi; lia|].
  destruct (Z.ltb_spec (len dst) (at_ + len (c :: data))); simplify_eq.
  unfold len in *.
  rewrite lookup_app_r by (rewrite length_take; lia).
  rewrite length_take.
  rewrite lookup_app_l by lia. f_equal. lia.
Qed.

Lemma copies_app (evs1 evs2 : list event) :
  copies (evs1 ++ evs2) = copies evs1 ++ copies evs2.
Proof. apply omap_app. Qed.

Lemma replay_app (cs1 cs2 : list (Z * bytes)) (buf : bytes) :
  replay (cs1 ++ cs2) buf
  = match replay cs1 buf with Some buf' => replay cs2 buf' | None => None end.
Proof.
  revert buf. induction cs1 as [|[lo data] cs1 IH]; intros buf; [done|].
  simpl. by destruct (blit data lo buf).
Qed.

Lemma sized_app (first_load : bool) (cs1 cs2 : list (Z * bytes)) (buf : bytes) :
  cs1 <> [] -> sized first_load (cs1 ++ cs2) buf = sized first_load cs1 buf.
Proof. by destruct cs1. Qed.

Lemma replay_length (cs : list (Z * bytes)) (buf r : bytes) :
  Forall (fun c => 0 <= c.1) cs -> replay cs buf = Some r ->
  length r = length buf.
Proof.
  intros Hcs. revert buf. induction Hcs as [|[lo data] cs Hlo _ IH]; intros buf.
  - by intros [= ->].
  - simpl. destruct (blit data lo buf) as [buf'|] eqn:Hblit; [|done].
    intros Hrun. rewrite (IH _ Hrun). by eapply blit_length.
Qed.

Lemma replay_lookup_other (cs : list (Z * bytes)) (buf r : bytes) (i : nat) :
  Forall (fun c => 0 <= c.1) cs -> replay cs buf = Some r ->
  ~ covered cs (Z.of_nat i) -> r !! i = buf !! i.
Proof.
  intros Hcs. revert buf. induction Hcs as [|[lo data] cs Hlo _ IH]; intros buf.
  - by intros [= ->].
  - simpl. destruct (blit data lo buf) as [buf'|] eqn:Hblit; [|done].
    intros Hrun Hcov. rewrite (IH _ Hrun).
    + eapply blit_lookup_other; [done..|]. intros Hin. apply Hcov.
      exists lo, data. split; [by left|done].
    + intros (lo' & data' & Hin & Hi). apply Hcov.
      exists lo', data'. split; [by right|done].
Qed.

Lemma placed_assembled (first_load : bool) (m m' : machine) :
  placed first_load m m' -> assembled first_load m m' /\ cwd m' = cwd m.
Proof.
  intros (lo & data & m1 & r & Hrom & Hblit & -> & Hlo & Hdata).
  apply ensure_rom_inr in Hrom as (Hcwd & Htrace & _ & Hr & Hbound).
  split; [|done]. exists [Copied lo data]. cbn [log trace set_rom rom].
  change (copies [Copied lo data]) with [(lo, data)].
  rewrite Htrace. split; [done|]. split; [done|].
  split; [apply Forall_singleton; simpl; lia|]. cbn [replay].
  replace (sized first_load [(lo, data)] (rom m)) with (rom m1);
    [by rewrite Hblit|].
  rewrite Hr. destruct first_load; [|done]. cbn [sized]. f_equal.
  pose proof (len_nonneg data).
  destruct data as [|c data].
  - unfold wrap32. rewrite Z.mod_small; [done|]. change (len []) with 0. lia.
  - unfold blit in Hblit.
    destruct (Z.ltb_spec (len (rom m1)) (lo + len (c :: data))); [done|].
    rewrite Hr, len_resize in * by (apply Z.mod_pos_bound; lia).
    pose proof (Z.mod_le (lo + len (c :: data)) (2 ^ 32)).
    unfold wrap32 in *. lia.
Qed.

Lemma assembling_start (b : bool) (m : machine) : assembling b m b m.
Proof.
  exists []. rewrite app_nil_r. change (copies []) with (@nil (Z * bytes)).
  split; [done|]. split; [done|]. split; [by destruct b|].
  split; [done | by intros ->].
Qed.

Lemma assembling_log (b0 b : bool) (m0 m : machine) (l : Z) (dir f : bytes) :
  assembling b0 (log (Opened l dir f) m0) b m -> assembling b0 m0 b m.
Proof.
  intros (evs & Htrace & Hnn & Hreplay & Hb).
  exists (Opened l dir f :: evs). cbn [log trace rom] in *.
  rewrite Htrace, <- app_assoc. done.
Qed.

Lemma assembling_step (b0 b : bool) (m0 m m' : machine) :
  assembling b0 m0 b m -> assembled b m m' -> assembled b0 m0 m'.
Proof.
  intros (evs & Htrace & Hnn & Hreplay & Htrue & Hfalse)
         (evs' & Htrace' & Hne & Hnn' & Hreplay').
  exists (evs ++ evs'). rewrite copies_app.
  split; [by rewrite Htrace', Htrace, app_assoc|].
  split; [by destruct (copies evs)|].
  split; [by apply Forall_app|].
  destruct b.
  - destruct Htrue as [-> Hnil]; [done|]. rewrite Hnil in *.
    cbn in Hreplay. injection Hreplay as Hrom. cbn [app]. by rewrite Hrom.
  - cbn [sized] in Hreplay'. rewrite replay_app.
    destruct b0.
    + rewrite sized_app by auto. by rewrite Hreplay.
    + cbn [sized] in *. by rewrite Hreplay.
Qed.

Lemma assembled_assembling (b0 : bool) (m0 m' : machine) :
  assembled b0 m0 m' -> assembling b0 m0 false m'.
Proof.
  intros (evs & Htrace & Hne & Hnn & Hreplay). exists evs. by repeat split.
Qed.

(** A call of the first listing that returns. *)
Lemma load_2sf_rec_assembled (fuel : nat) (filename : bytes) (l : Z)
    (first_load : bool) (m m' : machine) :
  load_2sf_rec fuel filename l first_load m = Some (m', Returned) ->
  assembled first_load m m'.
Proof.
  revert filename l first_load m m'.
  induction fuel as [|fuel IH]; intros filename l first_load m m' Hrun; [done|].
  cbn [load_2sf_rec] in Hrun.
  destruct (l >=? kPSFLibMaxNestLevel); [done|].
  destruct (PSFFile_open _ _) as [e|psf]; [done|].
  destruct (negb (crc32_ok psf)); [done|].
  destruct (load_libs _ _ _ _ _ _) as [[[m1 b1] o1]|] eqn:Hlibs; [|done].
  eapply (load_libs_rule _ _
            (assembling first_load (log (Opened l (cwd m) filename) m))
            (fun _ _ => True)) in Hlibs; [| |apply assembling_start].
  2:{ intros lib b m2 m3 o Hinv Hcall. destruct o; [|done..].
      apply IH in Hcall. by eapply assembled_assembling, assembling_step. }
  destruct o1; [|by simplify_eq..].
  injection Hrun as Hrun.
  apply copy_program_cases in Hrun as [[_ Hplaced]|[Hfail _]]; [|done].
  apply placed_assembled in Hplaced as [Hplaced _].
  eapply assembling_step; [|done]. by eapply assembling_log.
Qed.

Lemma in_directory_returned (basedir pwd : bytes)
    (call : machine -> option (machine * outcome)) (m m' : machine) :
  in_directory basedir pwd call m = Some (m', Returned) ->
  exists m1, call (chdir basedir m) = Some (m1, Returned) /\ m' = chdir pwd m1.
Proof.
  unfold in_directory. intros Hrun.
  destruct (call (chdir basedir m)) as [[m1 o]|]; [|done].
  destruct o; simplify_eq. by exists m1.
Qed.

(** A call of the second listing that returns. *)
Lemma load_2sf_chdir_rec_assembled (fuel : nat) (filename : bytes) (l : Z)
    (first_load : bool) (m m' : machine) :
  load_2sf_chdir_rec fuel filename l first_load m = Some (m', Returned) ->
  assembled first_load m m'.
Proof.
  revert filename l first_load m m'.
  induction fuel as [|fuel IH]; intros filename l first_load m m' Hrun; [done|].
  cbn [load_2sf_chdir_rec] in Hrun.
  destruct (l >=? kPSFLibMaxNestLevel); [done|].
  destruct (path_getabspath _ _) as [absolute_path|]; [|done].
  destruct (PSFFile_open _ _) as [e|psf]; [done|].
  destruct (negb (crc32_ok psf)); [done|].
  destruct (load_libs _ _ _ _ _ _) as [[[m1 b1] o1]|] eqn:Hlibs; [|done].
  eapply (load_libs_rule _ _
            (assembling first_load (log (Opened l (cwd m) filename) m))
            (fun _ _ => True)) in Hlibs; [| |apply assembling_start].
  2:{ intros lib b m2 m3 o Hinv Hcall. destruct o; [|done..].
      apply in_directory_returned in Hcall as (m4 & Hcall & ->).
      apply IH in Hcall. by eapply assembled_assembling, assembling_step. }
  destruct o1; [|by simplify_eq..].
  injection Hrun as Hrun.
  apply read_program_cases in Hrun as [[_ Hplaced]|[Hfail _]]; [|done].
  apply placed_assembled in Hplaced as [Hplaced _].
  eapply assembling_step; [|done]. by eapply assembling_log.
Qed.

End Steps.

(** ** The assembled image *)



(** ** The CRC32 check *)

Section Integrity.
Context `{Collaborators}.

Lemma cwd_log (e : event) (m : machine) : cwd (log e m) = cwd m.
Proof. done. Qed.

Lemma PSFFile_open_inl (dir filename : bytes) (e : error) :
  PSFFile_open dir filename = inl e -> e <> IntegrityError.
Proof.
  unfold PSFFile_open. intros Hopen ->.
  destruct (read_file dir filename) as [file|]; [|done].
  by destruct (parse file).
Qed.

Lemma crc_checked_refl (m : machine) (o : outcome) :
  o <> Thrown IntegrityError -> crc_checked m m o.
Proof.
  intros Ho. exists []. rewrite app_nil_r. split; [done|].
  split; [by intros l d f Hin%elem_of_nil | done].
Qed.

Lemma crc_checked_trans (m0 m m' : machine) (o : outcome) :
  crc_checked m0 m Returned -> crc_checked m m' o -> crc_checked m0 m' o.
Proof.
  intros (evs & Htrace & Hbad & _) (evs' & Htrace' & Hbad' & Hraise).
  exists (evs ++ evs'). split; [by rewrite Htrace', Htrace, app_assoc|]. split.
  - intros l d f [Hin|Hin]%elem_of_app Hmis; [|by eapply Hbad'].
    by specialize (Hbad _ _ _ Hin Hmis).
  - intros Ho. destruct (Hraise Ho) as (evs0 & l & d & f & -> & Hmis).
    exists (evs ++ evs0), l, d, f. by rewrite app_assoc.
Qed.

Lemma crc_checked_opened (m : machine) (l : Z) (filename : bytes)
    (psf : PSFFile) :
  PSFFile_open (cwd m) filename = inr psf -> crc32_ok psf = true ->
  crc_checked m (log (Opened l (cwd m) filename) m) Returned.
Proof.
  intros Hopen Hcrc. exists [Opened l (cwd m) filename]. split; [done|].
  split; [|done]. intros l' d f Hin (psf' & Hopen' & Hcrc').
  apply list_elem_of_singleton in Hin. simplify_eq. congruence.
Qed.

Lemma crc_checked_step (first_load : bool) (m m' : machine) (o : outcome) :
  (o = Returned /\ placed first_load m m')
  \/ (step_failure o /\ trace m' = trace m /\ cwd m' = cwd m) ->
  crc_checked m m' o.
Proof.
  intros [[-> (lo & data & m1 & r & Hrom & _ & -> & _)]|(Hfail & Htrace & _)].
  - apply ensure_rom_inr in Hrom as (_ & Htrace & _).
    exists [Copied lo data]. cbn [log trace set_rom]. rewrite Htrace.
    split; [done|]. split; [|done].
    intros l d f Hin. by apply list_elem_of_singleton in Hin.
  - exists []. rewrite app_nil_r. split; [done|].
    split; [by intros l d f Hin%elem_of_nil|]. by intros ->.
Qed.

Lemma load_2sf_rec_crc_checked (fuel : nat) (filename : bytes) (l : Z)
    (first_load : bool) (m m' : machine) (o : outcome) :
  load_2sf_rec fuel filename l first_load m = Some (m', o) ->
  crc_checked m m' o.
Proof.
  revert filename l first_load m m' o.
  induction fuel as [|fuel IH]; intros filename l first_load m m' o Hrun;
    [done|].
  cbn [load_2sf_rec] in Hrun.
  destruct (l >=? kPSFLibMaxNestLevel);
    [injection Hrun as <- <-; by apply crc_checked_refl|].
  rewrite cwd_log in Hrun.
  destruct (PSFFile_open _ _) as [e|psf] eqn:Hopen.
  { injection Hrun as <- <-. exists [Opened l (cwd m) filename].
    split; [done|]. split.
    - intros l' d f Hin (psf' & Hopen' & _).
      apply list_elem_of_singleton in Hin. simplify_eq. congruence.
    - intros [= ->]. by apply PSFFile_open_inl in Hopen. }
  destruct (crc32_ok psf) eqn:Hcrc; cbn [negb] in Hrun.
  2:{ injection Hrun as <- <-. exists [Opened l (cwd m) filename].
      split; [done|]. split; [done|]. intros _.
      exists [], l, (cwd m), filename. split; [done|]. by exists psf. }
  pose proof (crc_checked_opened m l filename psf Hopen Hcrc) as Hopened.
  destruct (load_libs _ _ _ _ _ _) as [[[m1 b1] o1]|] eqn:Hlibs; [|done].
  eapply (load_libs_rule _ _ (fun _ m1 => crc_checked m m1 Returned)
            (fun m1 o => crc_checked m m1 o)) in Hlibs; [| |exact Hopened].
  2:{ intros lib b m2 m3 o' Hinv Hcall. apply IH in Hcall.
      destruct o'; by apply (crc_checked_trans _ m2). }
  destruct o1; [|by simplify_eq..].
  injection Hrun as Hrun. apply copy_program_cases in Hrun.
  apply (crc_checked_trans _ m1); [done|]. by apply (crc_checked_step b1).
Qed.

Lemma load_2sf_chdir_rec_crc_checked (fuel : nat) (filename : bytes) (l : Z)
    (first_load : bool) (m m' : machine) (o : outcome) :
  load_2sf_chdir_rec fuel filename l first_load m = Some (m', o) ->
  crc_checked m m' o.
Proof.
  revert filename l first_load m m' o.
  induction fuel as [|fuel IH]; intros filename l first_load m m' o Hrun;
    [done|].
  cbn [load_2sf_chdir_rec] in Hrun.
  destruct (l >=? kPSFLibMaxNestLevel);
    [injection Hrun as <- <-; by apply crc_checked_refl|].
  destruct (path_getabspath _ _) as [absolute_path|];
    [|injection Hrun as <- <-; by apply crc_checked_refl].
  rewrite cwd_log in Hrun.
  destruct (PSFFile_open _ _) as [e|psf] eqn:Hopen.
  { injection Hrun as <- <-. exists [Opened l (cwd m) filename].
    split; [done|]. split.
    - intros l' d f Hin (psf' & Hopen' & _).
      apply list_elem_of_singleton in Hin. simplify_eq. congruence.
    - intros [= ->]. by apply PSFFile_open_inl in Hopen. }
  destruct (crc32_ok psf) eqn:Hcrc; cbn [negb] in Hrun.
  2:{ injection Hrun as <- <-. exists [Opened l (cwd m) filename].
      split; [done|]. split; [done|]. intros _.
      exists [], l, (cwd m), filename. split; [done|]. by exists psf. }
  pose proof (crc_checked_opened m l filename psf Hopen Hcrc) as Hopened.
  destruct (load_libs _ _ _ _ _ _) as [[[m1 b1] o1]|] eqn:Hlibs; [|done].
  eapply (load_libs_rule _ _ (fun _ m1 => crc_checked m m1 Returned)
            (fun m1 o => crc_checked m m1 o)) in Hlibs; [| |exact Hopened].
  2:{ intros lib b m2 m3 o' Hinv Hcall. unfold in_directory in Hcall.
      destruct (load_2sf_chdir_rec _ _ _ _ _) as [[m4 o4]|] eqn:Hrec; [|done].
      apply IH in Hrec.
      destruct o4; injection Hcall as <- <-; by apply (crc_checked_trans _ m2). }
  destruct o1; [|by simplify_eq..].
  injection Hrun as Hrun. apply read_program_cases in Hrun.
  apply (crc_checked_trans _ m1); [done|]. by apply (crc_checked_step b1).
Qed.

End Integrity.

(** C3.  Every load, of either listing, ends with an outcome.  A container
    file that was opened during it and whose stored CRC32 differs from the
    CRC32 of its payload makes the load end in [IntegrityError], with no image
    to write; and a load ends in [IntegrityError] only at such a file, the
    last one it opened: a file whose CRC32 matches raises none. *)
Theorem crc_mismatch_fails_load `{Collaborators} (dir filename : bytes)
    (run : option (machine * outcome)) :
  run = load dir filename \/ run = load_chdir dir filename ->
  exists m' o,
    run = Some (m', o)
    /\ (forall l d f,
          Opened l d f ∈ trace m' -> crc_mismatch d f ->
          o = Thrown IntegrityError /\ image run = None)
    /\ (o = Thrown IntegrityError ->
        exists evs l d f,
          trace m' = evs ++ [Opened l d f] /\ crc_mismatch d f).
Proof.
  intros Hrun.
  assert (Hsome : exists m' o, run = Some (m', o)
                               /\ crc_checked (initial dir) m' o).
  { destruct (load_2sf_total filename 0 true (initial dir))
      as [[[m1 o1] H1] [[m2 o2] H2]].
    destruct Hrun as [-> | ->].
    - exists m1, o1. split; [done|]. by eapply load_2sf_rec_crc_checked.
    - exists m2, o2. split; [done|]. by eapply load_2sf_chdir_rec_crc_checked. }
  destruct Hsome as (m' & o & -> & evs & Htrace & Hbad & Hraise).
  cbn [initial trace app] in Htrace. subst evs.
  exists m', o. split; [done|]. split.
  - intros l d f Hin Hmis. by rewrite (Hbad _ _ _ Hin Hmis).
  - intros Ho. destruct (Hraise Ho) as (evs0 & l & d & f & Heq & Hmis).
    by exists evs0, l, d, f.
Qed.

Lemma crc_mismatch_fails_load_witness :
  @crc_mismatch (disk corrupt_files) (str "/d") (str "lib.2sflib")
  /\ result (@load (disk corrupt_files) (str "/d") (str "root.2sf"))
     = Some (Thrown IntegrityError)
  /\ exists m' o,
       @load (disk corrupt_files) (str "/d") (str "root.2sf") = Some (m', o)
       /\ (forall l d f,
             Opened l d f ∈ trace m' -> @crc_mismatch (disk corrupt_files) d f ->
             o = Thrown IntegrityError
             /\ image (@load (disk corrupt_files) (str "/d") (str "root.2sf"))
                = None)
       /\ (o = Thrown IntegrityError ->
           exists evs l d f,
             trace m' = evs ++ [Opened l d f]
             /\ @crc_mismatch (disk corrupt_files) d f).
Proof.
  split; [|split; [by vm_compute|]].
  - destruct (@PSFFile_open (disk corrupt_files) (str "/d") (str "lib.2sflib"))
      as [e|psf] eqn:Hopen; [by vm_compute in Hopen|].
    exists psf. split; [done|].
    vm_compute in Hopen. injection Hopen as <-. by vm_compute.
  - apply (@crc_mismatch_fails_load (disk corrupt_files) (str "/d")
             (str "root.2sf")).
    by left.
Defined.

(** ** The working directory *)

Section Directory.
Context `{Collaborators}.

Lemma directory_kept_here (l : Z) (filename : bytes) (m : machine)
    (o : outcome) :
  directory_kept l filename m m o.
Proof.
  split; [done|]. exists []. rewrite app_nil_r. split; [done|].
  by intros l' d g Hin%elem_of_nil.
Qed.

Lemma directory_kept_opened (l : Z) (filename : bytes) (m : machine)
    (o : outcome) :
  directory_kept l filename m (log (Opened l (cwd m) filename) m) o.
Proof.
  split; [done|]. exists [Opened l (cwd m) filename]. split; [done|].
  intros l' d g Hin. apply list_elem_of_singleton in Hin.
  injection Hin as -> -> ->. split; [lia|]. split; [done|lia].
Qed.

(** One more step of the caller, or one nested call made from the directory
    of [filename], after a run that kept the discipline. *)
Lemma directory_kept_more (l : Z) (filename : bytes) (m m1 m2 : machine)
    (o : outcome) (evs : list event) :
  directory_kept l filename m m1 Returned ->
  (o <> Undefined -> cwd m2 = cwd m1) ->
  trace m2 = trace m1 ++ evs ->
  (forall l' dir g,
      Opened l' dir g ∈ evs ->
      l + 1 <= l'
      /\ (l' = l + 1 ->
          exists absolute_path,
            path_getabspath (cwd m) filename = Some absolute_path
            /\ dir = path_dirname absolute_path)) ->
  directory_kept l filename m m2 o.
Proof.
  intros [Hcwd (evs1 & Htrace & Hev)] Hcwd2 Htrace2 Hev2. split.
  - intros Ho. rewrite Hcwd2, Hcwd; done.
  - exists (evs1 ++ evs). split; [by rewrite Htrace2, Htrace, app_assoc|].
    intros l' d g [Hin|Hin]%elem_of_app; [by apply Hev|].
    destruct (Hev2 _ _ _ Hin) as [Hl Hdeep]. split; [lia|]. split; [lia|done].
Qed.

Lemma load_2sf_chdir_rec_directory (fuel : nat) (filename : bytes) (l : Z)
    (first_load : bool) (m m' : machine) (o : outcome) :
  load_2sf_chdir_rec fuel filename l first_load m = Some (m', o) ->
  directory_kept l filename m m' o.
Proof.
  revert filename l first_load m m' o.
  induction fuel as [|fuel IH]; intros filename l first_load m m' o Hrun;
    [done|].
  cbn [load_2sf_chdir_rec] in Hrun.
  destruct (l >=? kPSFLibMaxNestLevel);
    [injection Hrun as <- <-; apply directory_kept_here|].
  destruct (path_getabspath _ _) as [absolute_path|] eqn:Hpath;
    [|injection Hrun as <- <-; apply directory_kept_here].
  destruct (PSFFile_open _ _) as [e|psf];
    [injection Hrun as <- <-; apply directory_kept_opened|].
  destruct (negb (crc32_ok psf));
    [injection Hrun as <- <-; apply directory_kept_opened|].
  destruct (load_libs _ _ _ _ _ _) as [[[m1 b1] o1]|] eqn:Hlibs; [|done].
  eapply (load_libs_rule _ _
            (fun _ m1 => directory_kept l filename m m1 Returned)
            (fun m1 o => directory_kept l filename m m1 o))
    in Hlibs; [| |apply directory_kept_opened].
  2:{ intros lib b m2 m3 o' Hinv Hcall. unfold in_directory in Hcall.
      destruct (load_2sf_chdir_rec _ _ _ _ _) as [[m4 o4]|] eqn:Hrec; [|done].
      apply IH in Hrec as [Hcwd4 (evs & Htrace4 & Hev4)].
      assert (Hgoal : directory_kept l filename m m3 o').
      { apply (directory_kept_more l filename m m2 m3 o' evs Hinv).
        - intros Ho'. destruct o4; injection Hcall as <- <-; try done;
            cbn [chdir cwd]; symmetry; by apply Hinv.
        - by destruct o4; injection Hcall as <- <-.
        - intros l' d g Hin. destruct (Hev4 _ _ _ Hin) as (Hl & Hown & _).
          split; [done|]. intros ->. destruct (Hown eq_refl) as [-> _].
          by exists absolute_path. }
      by destruct o'. }
  destruct o1; [|by simplify_eq..].
  injection Hrun as Hrun.
  apply read_program_cases in Hrun
    as [[-> (lo & data & m2 & r & Hrom & _ & -> & _)]|(_ & Htrace & Hcwd)].
  - apply ensure_rom_inr in Hrom as (Hcwd & Htrace & _).
    apply (directory_kept_more l filename m m1 _ _ [Copied lo data] Hlibs).
    + done.
    + cbn [log set_rom trace]. by rewrite Htrace.
    + intros l' d g Hin. by apply list_elem_of_singleton in Hin.
  - apply (directory_kept_more l filename m m1 _ _ [] Hlibs).
    + done.
    + by rewrite app_nil_r.
    + by intros l' d g Hin%elem_of_nil.
Qed.

End Directory.

(** C9.  Second listing.  A call of [load_2sf] at any nest level ends with an
    outcome; when it returns or throws, the working directory is what it was
    when the call began; the file it is called on is opened from the directory
    of the caller, and every library it refers to is opened from the directory
    of the referring file, to which the working directory was switched before
    the nested call. *)
Theorem working_directory_discipline `{Collaborators} (fuel : nat)
    (filename : bytes) (l : Z) (first_load : bool) (m : machine) :
  Z.max 0 (kPSFLibMaxNestLevel - l) < Z.of_nat fuel ->
  exists m' o,
    load_2sf_chdir_rec fuel filename l first_load m = Some (m', o)
    /\ (o <> Undefined -> cwd m' = cwd m)
    /\ exists evs,
         trace m' = trace m ++ evs
         /\ forall l' dir g,
              Opened l' dir g ∈ evs ->
              l <= l'
              /\ (l' = l -> dir = cwd m /\ g = filename)
              /\ (l' = l + 1 ->
                  exists absolute_path,
                    path_getabspath (cwd m) filename = Some absolute_path
                    /\ dir = path_dirname absolute_path).
Proof.
  intros Hfuel.
  destruct (load_2sf_chdir_rec_total fuel filename l first_load m Hfuel)
    as [[m' o] Hrun].
  exists m', o. split; [done|]. by apply load_2sf_chdir_rec_directory in Hrun.
Qed.

Lemma working_directory_discipline_witness :
  Z.max 0 (kPSFLibMaxNestLevel - 0) < Z.of_nat 11
  /\ (exists m',
        @load_chdir (disk nested_files) (str "/d") (str "root.2sf")
        = Some (m', Returned)
        /\ cwd m' = str "/d"
        /\ rom m' = byte_of <$> [1; 2; 3; 4; 5; 6]
        /\ opened (trace m')
           = [(0, str "/d", str "root.2sf");
              (1, str "/d", str "sub/lib.2sflib");
              (2, str "/d/sub", str "base.2sflib")])
  /\ exists m' o,
       @load_2sf_chdir_rec (disk nested_files) 11 (str "root.2sf") 0 true
                           (initial (str "/d")) = Some (m', o)
       /\ (o <> Undefined -> cwd m' = str "/d")
       /\ exists evs,
            trace m' = [] ++ evs
            /\ forall l' dir g,
                 Opened l' dir g ∈ evs ->
                 0 <= l'
                 /\ (l' = 0 -> dir = str "/d" /\ g = str "root.2sf")
                 /\ (l' = 0 + 1 ->
                     exists absolute_path,
                       @path_getabspath (disk nested_files) (str "/d")
                                        (str "root.2sf") = Some absolute_path
                       /\ dir = @path_dirname (disk nested_files)
                                              absolute_path).
Proof.
  assert (Hfuel : Z.max 0 (kPSFLibMaxNestLevel - 0) < Z.of_nat 11)
    by (unfold kPSFLibMaxNestLevel; lia).
  split; [exact Hfuel|]. split.
  - destruct (@load_chdir (disk nested_files) (str "/d") (str "root.2sf"))
      as [[m' o]|] eqn:Hrun; [|by vm_compute in Hrun].
    vm_compute in Hrun. injection Hrun as <- <-.
    eexists. split; [reflexivity|]. repeat split; by vm_compute.
  - exact (@working_directory_discipline (disk nested_files) 11
             (str "root.2sf") 0 true (initial (str "/d")) Hfuel).
Defined.

(** ** The nest level *)

Section NestLevel.
Context `{Collaborators}.

Lemma load_libs_none
    (call : bytes -> bool -> machine -> option (machine * outcome))
    (tags : gmap bytes bytes) (b : bool) (m : machine) :
  tags !! str "_lib" = None ->
  load_libs call tags (S (size tags)) 1 b m = Some (m, b, Returned).
Proof.
  intros Hlib. cbn [load_libs].
  change (lib_tag_name 1) with (str "_lib"). by rewrite Hlib.
Qed.

Lemma load_libs_single
    (call : bytes -> bool -> machine -> option (machine * outcome))
    (tags : gmap bytes bytes) (lib : bytes) (b : bool) (m : machine) :
  tags !! str "_lib" = Some lib -> tags !! str "_lib2" = None ->
  load_libs call tags (S (size tags)) 1 b m
  = match call lib b m with
    | None => None
    | Some (m', Returned) => Some (m', false, Returned)
    | Some (m', o) => Some (m', b, o)
    end.
Proof.
  intros Hlib Hlib2.
  destruct (size tags) as [|n] eqn:Hsize.
  { apply map_size_empty_iff in Hsize. by rewrite Hsize in Hlib. }
  cbn [load_libs]. change (lib_tag_name 1) with (str "_lib").
  change (lib_tag_name (1 + 1)) with (str "_lib2").
  rewrite Hlib, Hlib2. by destruct (call lib b m) as [[m' []]|].
Qed.

Lemma PSFFile_open_not_depth (dir filename : bytes) (e : error) :
  PSFFile_open dir filename = inl e -> e <> DepthExceededError.
Proof.
  unfold PSFFile_open. intros Hopen ->.
  destruct (read_file dir filename) as [file|]; [|done].
  by destruct (parse file).
Qed.

Lemma copy_program_not_depth (psf : PSFFile) (b : bool) (m m' : machine)
    (o : outcome) :
  copy_program psf b m = (m', o) -> o <> Thrown DepthExceededError.
Proof. intros [[-> _]|[Hfail _]]%copy_program_cases; [done|]. by intros ->. Qed.

(** A call at nest level [l] on the head of a chain of references ends in
    [DepthExceededError] exactly when the chain reaches level 10. *)
Lemma lib_chain_depth (refs : list bytes) :
  forall fuel filename l b m m' o,
    lib_chain (cwd m) filename refs ->
    load_2sf_rec fuel filename l b m = Some (m', o) ->
    (10 <= l + Z.of_nat (length refs) -> o = Thrown DepthExceededError)
    /\ (l + Z.of_nat (length refs) <= 9 -> o <> Thrown DepthExceededError).
Proof.
  induction refs as [|lib refs IH]; intros fuel filename l b m m' o Hchain Hrun;
    (destruct fuel as [|fuel]; [done|]); cbn [load_2sf_rec] in Hrun;
    rewrite cwd_log in Hrun; cbn [length];
    (destruct (Z.geb_spec l kPSFLibMaxNestLevel) as [Hl|Hl];
     [injection Hrun as <- <-; unfold kPSFLibMaxNestLevel in Hl;
      split; [done|lia] |]);
    unfold kPSFLibMaxNestLevel in Hl.
  - split; [lia|]. intros _. cbn [lib_chain] in Hchain.
    destruct (PSFFile_open _ _) as [e|psf] eqn:Hopen.
    { injection Hrun as <- <-. intros [= ->].
      by apply PSFFile_open_not_depth in Hopen. }
    destruct (negb (crc32_ok psf)); [by injection Hrun as <- <-|].
    rewrite load_libs_none in Hrun by auto.
    injection Hrun as Hrun. by apply copy_program_not_depth in Hrun.
  - destruct Hchain as [(psf & Hopen & Hcrc & Hlib & Hlib2) Hchain].
    rewrite Hopen, Hcrc in Hrun. cbn [negb] in Hrun.
    rewrite (load_libs_single _ _ lib) in Hrun by done.
    destruct (load_2sf_rec fuel lib (l + 1) b _) as [[m1 o1]|] eqn:Hrec;
      [|done].
    apply IH in Hrec as [Hdeep Hshallow]; [|done].
    destruct o1.
    + injection Hrun as Hrun. apply copy_program_not_depth in Hrun.
      split; [|done]. intros Hlen. by discriminate Hdeep; lia.
    + injection Hrun as <- <-. split; intros Hlen; [apply Hdeep|apply Hshallow];
        lia.
    + injection Hrun as <- <-. split; [|done]. intros Hlen.
      by discriminate Hdeep; lia.
Qed.

End NestLevel.

(** C7 (as amended).  A call at nest level 10 or more ends in
    [DepthExceededError] with the machine untouched: no file is opened, in
    either listing.  Hence a load whose root starts a chain of 10 or more
    nested [_lib] references (11, say) ends in [DepthExceededError], and a
    load on a chain of at most 9 does not. *)
Theorem nest_level_ceiling `{Collaborators} :
  (forall filename l first_load m,
      kPSFLibMaxNestLevel <= l ->
      load_2sf filename l first_load m = Some (m, Thrown DepthExceededError)
      /\ load_2sf_chdir filename l first_load m
         = Some (m, Thrown DepthExceededError))
  /\ (forall dir filename refs,
        lib_chain dir filename refs ->
        exists m' o,
          load dir filename = Some (m', o)
          /\ (10 <= length refs -> o = Thrown DepthExceededError)%nat
          /\ (length refs <= 9 -> o <> Thrown DepthExceededError)%nat).
Proof.
  split.
  - intros filename l first_load m Hl.
    unfold load_2sf, load_2sf_chdir, depth_fuel.
    cbn [load_2sf_rec load_2sf_chdir_rec].
    by destruct (Z.geb_spec l kPSFLibMaxNestLevel); [|lia].
  - intros dir filename refs Hchain.
    destruct (proj1 (load_2sf_total filename 0 true (initial dir)))
      as [[m' o] Hrun].
    exists m', o. split; [done|].
    apply (lib_chain_depth refs) in Hrun as [Hdeep Hshallow]; [|done].
    split; intros Hlen; [apply Hdeep|apply Hshallow]; lia.
Qed.

(** Proves one link of [lib_chain] on files at hand: the file parses, its
    CRC32 is right and its tags are as the chain says. *)
Ltac chain_link :=
  lazymatch goal with
  | |- (exists psf, @PSFFile_open ?C ?dir ?f = inr psf /\ _) /\ _ =>
      split;
      [ let e := fresh "e" in
        let psf := fresh "psf" in
        let Hopen := fresh "Hopen" in
        destruct (@PSFFile_open C dir f) as [e|psf] eqn:Hopen;
        [ by vm_compute in Hopen
        | exists psf; split; [done|];
          vm_compute in Hopen; injection Hopen as <-;
          split; [by vm_compute|]; split; by vm_compute ]
      | ]
  end.

Lemma nest_level_ceiling_witness :
  @lib_chain (disk two_files) (str "/d") (str "root.2sf") [str "lib.2sflib"]
  /\ (exists m' o,
        @load (disk two_files) (str "/d") (str "root.2sf") = Some (m', o)
        /\ (10 <= 1 -> o = Thrown DepthExceededError)%nat
        /\ (1 <= 9 -> o <> Thrown DepthExceededError)%nat)
  /\ @load_2sf (disk two_files) (str "lib.2sflib") 10 false
               (initial (str "/d"))
     = Some (initial (str "/d"), Thrown DepthExceededError).
Proof.
  assert (Hchain : @lib_chain (disk two_files) (str "/d") (str "root.2sf")
                              [str "lib.2sflib"]).
  { cbn [lib_chain]. chain_link.
    intros psf Hopen. vm_compute in Hopen. injection Hopen as <-.
    by vm_compute. }
  split; [exact Hchain|]. split.
  - exact (proj2 (@nest_level_ceiling (disk two_files)) _ _ _ Hchain).
  - apply (proj1 (@nest_level_ceiling (disk two_files))).
    unfold kPSFLibMaxNestLevel. lia.
Defined.

(** C7 as stated fails: a chain of 10 nested references is shallower than one
    of 11, and a load on it is rejected for depth all the same: its last file
    is to be loaded at nest level 10. *)
Lemma chain_of_ten_rejected :
  @lib_chain (disk (chain_files 10 0)) (str "/d") (chain_name 0)
             (chain_name <$> seq 1 10)
  /\ length (chain_name <$> seq 1 10) = 10%nat
  /\ result (@load (disk (chain_files 10 0)) (str "/d") (chain_name 0))
     = Some (Thrown DepthExceededError).
Proof.
  split; [|split; [done|by vm_compute]].
  cbn [fmap list_fmap seq lib_chain].
  do 10 chain_link.
  intros psf Hopen. vm_compute in Hopen. injection Hopen as <-. by vm_compute.
Qed.

(** ** A root and its library *)

Section RootAndLibrary.
Context `{Collaborators}.

Lemma ReadInt32L_le32 (v : Z) (rest : bytes) :
  0 <= v < 2 ^ 32 -> ReadInt32L (le32 v ++ rest) = Some (v, rest).
Proof.
  intros Hv. unfold le32, InsertInt32L. cbn [app ReadInt32L].
  by rewrite le32_value, le32_decode_encode.
Qed.

Lemma blit_overlay (data : bytes) (at_ : Z) (dst : bytes) :
  0 <= at_ -> at_ + len data <= len dst ->
  blit data at_ dst = Some (overlay data at_ dst).
Proof.
  intros Hat Hfit. unfold blit, overlay. destruct data as [|c data].
  - change (len []) with 0. rewrite Z.add_0_r. cbn [app].
    by rewrite take_drop.
  - by destruct (Z.ltb_spec (len dst) (at_ + len (c :: data))); [lia|].
Qed.

(** The last step of the first listing on a program that fits. *)
Lemma copy_program_fits (psf : PSFFile) (first_load : bool) (m : machine)
    (load_offset : Z) (data : bytes) :
  inflate (compressed_exe psf)
  = Some (le32 load_offset ++ le32 (len data) ++ data) ->
  0 <= load_offset -> load_offset + len data <= kNDSRomMaxSize ->
  (first_load = false -> load_offset + len data <= len (rom m)) ->
  copy_program psf first_load m
  = (mkMachine (cwd m)
       (overlay data load_offset
          (if first_load then resize (load_offset + len data) (rom m)
           else rom m))
       (trace m ++ [Copied load_offset data]), Returned).
Proof.
  intros Hexe Hlo Hmax Hbound. pose proof (len_nonneg data).
  unfold kNDSRomMaxSize in Hmax.
  unfold copy_program. rewrite Hexe.
  rewrite !len_app. change (len (le32 _)) with 4.
  destruct (Z.ltb_spec (4 + (4 + len data)) 8); [lia|].
  rewrite !ReadInt32L_le32 by lia.
  unfold ensure_rom, wrap32. rewrite !Z.mod_small by lia.
  destruct (Z.gtb_spec (load_offset + len data) kNDSRomMaxSize) as [Hgt|_];
    [unfold kNDSRomMaxSize in Hgt; lia|].
  destruct (Z.ltb_spec (4 + (4 + len data)) (8 + len data)); [lia|].
  destruct (Z.ltb_spec (len data) (len data)); [lia|].
  replace (take (Z.to_nat (len data)) data) with data
    by (unfold len; by rewrite Nat2Z.id, firstn_all).
  destruct first_load.
  - cbn [set_rom rom]. rewrite blit_overlay; [done|done|].
    rewrite len_resize; lia.
  - destruct (Z.gtb_spec (load_offset + len data) (len (rom m)));
      [specialize (Hbound eq_refl); lia|].
    rewrite blit_overlay by auto. done.
Qed.

Lemma len_overlay (data : bytes) (at_ : Z) (buf : bytes) :
  0 <= at_ -> at_ + len data <= len buf -> len (overlay data at_ buf) = len buf.
Proof.
  intros Hat Hfit. unfold overlay. rewrite !len_app. unfold len in *.
  rewrite length_take, length_drop. lia.
Qed.

(** A call on a file without library references. *)
Lemma load_2sf_rec_leaf (fuel : nat) (filename : bytes) (l : Z)
    (first_load : bool) (m : machine) (psf : PSFFile) :
  l < kPSFLibMaxNestLevel ->
  PSFFile_open (cwd m) filename = inr psf -> crc32_ok psf = true ->
  tags psf !! str "_lib" = None ->
  load_2sf_rec (S fuel) filename l first_load m
  = Some (copy_program psf first_load (log (Opened l (cwd m) filename) m)).
Proof.
  intros Hl Hopen Hcrc Hnolib. cbn [load_2sf_rec].
  destruct (Z.geb_spec l kPSFLibMaxNestLevel); [lia|].
  rewrite cwd_log, Hopen, Hcrc. cbn [negb]. by rewrite load_libs_none.
Qed.

(** A call on a file with exactly one library reference. *)
Lemma load_2sf_rec_single (fuel : nat) (filename lib : bytes) (l : Z)
    (first_load : bool) (m : machine) (psf : PSFFile) :
  l < kPSFLibMaxNestLevel ->
  PSFFile_open (cwd m) filename = inr psf -> crc32_ok psf = true ->
  tags psf !! str "_lib" = Some lib -> tags psf !! str "_lib2" = None ->
  load_2sf_rec (S fuel) filename l first_load m
  = match load_2sf_rec fuel lib (l + 1) first_load
            (log (Opened l (cwd m) filename) m) with
    | None => None
    | Some (m', Returned) => Some (copy_program psf false m')
    | Some (m', o) => Some (m', o)
    end.
Proof.
  intros Hl Hopen Hcrc Hlib Hlib2. cbn [load_2sf_rec].
  destruct (Z.geb_spec l kPSFLibMaxNestLevel); [lia|].
  rewrite cwd_log, Hopen, Hcrc. cbn [negb].
  rewrite (load_libs_single _ _ lib) by done.
  by destruct (load_2sf_rec fuel lib (l + 1) first_load _) as [[m' []]|].
Qed.

(** A root with one library: the library's program is copied first and sizes
    the rom, the root's program is copied over it. *)
Lemma load_root_with_lib (dir root lib : bytes) (lo : Z) (ldata : bytes)
    (ro : Z) (rdata : bytes) :
  root_with_lib dir root lib lo ldata ro rdata ->
  0 <= lo -> 0 <= ro -> lo + len ldata <= kNDSRomMaxSize ->
  ro + len rdata <= lo + len ldata ->
  load dir root
  = Some (mkMachine dir
            (overlay rdata ro
               (overlay ldata lo
                  (replicate (Z.to_nat (lo + len ldata)) zero)))
            [Opened 0 dir root; Opened 1 dir lib; Copied lo ldata;
             Copied ro rdata], Returned).
Proof.
  intros (rpsf & lpsf & Hropen & Hrcrc & Hlib & Hlib2 & Hlopen & Hlcrc & Hnolib
          & Hlexe & Hrexe) Hlo Hro Hmax Hfit.
  pose proof (len_nonneg ldata). pose proof (len_nonneg rdata).
  unfold load, load_2sf. change (depth_fuel 0) with 11%nat.
  rewrite (load_2sf_rec_single _ _ lib _ _ _ rpsf) by done.
  rewrite (load_2sf_rec_leaf _ _ _ _ _ lpsf) by done.
  rewrite (copy_program_fits lpsf true _ lo ldata) by done.
  cbn [log initial cwd rom trace app]. rewrite resize_nil.
  rewrite (copy_program_fits rpsf false _ ro rdata); [done..| |].
  - unfold kNDSRomMaxSize in *. lia.
  - intros _. cbn [rom]. rewrite len_overlay, len_replicate; try lia.
    rewrite len_replicate; lia.
Qed.

End RootAndLibrary.

(** C2.  A root with exactly one [_lib] reference to a library that declares
    offset 4, size 2 and the bytes CA FE, the root declaring offset 0, size 4
    and the bytes 00 01 02 03, both CRC32 fields right: the load returns with
    the six bytes 00 01 02 03 CA FE, the library's program copied first.
    Whatever the two programs are, as long as the library's fits the size
    limit and the root's fits the rom the library sized, the root's bytes are
    copied last and are the ones found in its range. *)
Theorem library_then_root `{Collaborators} (dir root lib : bytes) :
  (root_with_lib dir root lib 4 (byte_of <$> [202; 254])
                 0 (byte_of <$> [0; 1; 2; 3]) ->
   image (load dir root) = Some (byte_of <$> [0; 1; 2; 3; 202; 254])
   /\ exists m',
        load dir root = Some (m', Returned)
        /\ copies (trace m')
           = [(4, byte_of <$> [202; 254]); (0, byte_of <$> [0; 1; 2; 3])])
  /\ (forall lo ldata ro rdata,
        root_with_lib dir root lib lo ldata ro rdata ->
        0 <= lo -> 0 <= ro -> lo + len ldata <= kNDSRomMaxSize ->
        ro + len rdata <= lo + len ldata ->
        exists m',
          load dir root = Some (m', Returned)
          /\ copies (trace m') = [(lo, ldata); (ro, rdata)]
          /\ rom m'
             = overlay rdata ro
                 (overlay ldata lo (replicate (Z.to_nat (lo + len ldata)) zero))
          /\ forall i : nat,
               (i < length rdata)%nat ->
               rom m' !! (Z.to_nat ro + i)%nat = rdata !! i).
Proof.
  split.
  - intros Hfiles.
    rewrite (load_root_with_lib dir root lib _ _ _ _ Hfiles) by by vm_compute.
    split; [done|]. by eexists.
  - intros lo ldata ro rdata Hfiles Hlo Hro Hmax Hfit.
    rewrite (load_root_with_lib dir root lib _ _ _ _ Hfiles) by done.
    eexists. split; [done|]. cbn [rom trace]. split; [done|]. split; [done|].
    intros i Hi. pose proof (len_nonneg ldata).
    eapply blit_lookup_data; [done| |done].
    apply blit_overlay; [done|].
    rewrite len_overlay, len_replicate; try lia.
    rewrite len_replicate; lia.
Qed.

Lemma library_then_root_witness :
  @root_with_lib (disk two_files) (str "/d") (str "root.2sf")
                 (str "lib.2sflib") 4 (byte_of <$> [202; 254])
                 0 (byte_of <$> [0; 1; 2; 3])
  /\ image (@load (disk two_files) (str "/d") (str "root.2sf"))
     = Some (byte_of <$> [0; 1; 2; 3; 202; 254])
  /\ exists m',
       @load (disk two_files) (str "/d") (str "root.2sf") = Some (m', Returned)
       /\ copies (trace m')
          = [(4, byte_of <$> [202; 254]); (0, byte_of <$> [0; 1; 2; 3])].
Proof.
  assert (Hfiles : @root_with_lib (disk two_files) (str "/d") (str "root.2sf")
                     (str "lib.2sflib") 4 (byte_of <$> [202; 254])
                     0 (byte_of <$> [0; 1; 2; 3])).
  { destruct (@PSFFile_open (disk two_files) (str "/d") (str "root.2sf"))
      as [e|rpsf] eqn:Hropen; [by vm_compute in Hropen|].
    destruct (@PSFFile_open (disk two_files) (str "/d") (str "lib.2sflib"))
      as [e|lpsf] eqn:Hlopen; [by vm_compute in Hlopen|].
    exists rpsf, lpsf. split; [done|].
    vm_compute in Hropen. injection Hropen as <-.
    vm_compute in Hlopen. injection Hlopen as <-.
    repeat (split; [by vm_compute|]). by vm_compute. }
  split; [exact Hfiles|].
  exact (proj1 (@library_then_root (disk two_files) (str "/d") (str "root.2sf")
                  (str "lib.2sflib")) Hfiles).
Defined.

(** ** The size limit *)

Section SizeLimit.
Context `{Collaborators}.

(** A program whose offset and size add up to more than 128 MiB and less than
    4 GiB is refused with [SizeLimitError], first load or not. *)
Lemma copy_program_limit (psf : PSFFile) (first_load : bool) (m : machine)
    (load_offset load_size : Z) (body : bytes) :
  inflate (compressed_exe psf)
  = Some (le32 load_offset ++ le32 load_size ++ body) ->
  0 <= load_offset -> 0 <= load_size ->
  kNDSRomMaxSize < load_offset + load_size < 2 ^ 32 ->
  copy_program psf first_load m = (m, Thrown SizeLimitError).
Proof.
  intros Hexe Hlo Hls Hsum. pose proof (len_nonneg body).
  unfold copy_program. rewrite Hexe.
  rewrite !len_app. change (len (le32 _)) with 4.
  destruct (Z.ltb_spec (4 + (4 + len body)) 8); [lia|].
  rewrite !ReadInt32L_le32 by lia.
  by rewrite ensure_rom_limit.
Qed.

(** A program that declares offset [0xFFFFFFFF] and size 1 without holding the
    byte: the sum wraps to 0, the size check passes, and the load ends in
    [CorruptDataError], first load or not. *)
Lemma copy_program_wrapped (psf : PSFFile) (first_load : bool) (m : machine) :
  inflate (compressed_exe psf) = Some (le32 4294967295 ++ le32 1) ->
  snd (copy_program psf first_load m) = Thrown CorruptDataError.
Proof.
  intros Hexe. unfold copy_program. rewrite Hexe.
  change (len (le32 4294967295 ++ le32 1) <? 8) with false.
  rewrite ReadInt32L_le32 by lia.
  rewrite <- (app_nil_r (le32 1)). rewrite ReadInt32L_le32 by lia.
  unfold ensure_rom. change (wrap32 (4294967295 + 1)) with 0.
  change (0 >? kNDSRomMaxSize) with false.
  destruct first_load; [done|].
  by destruct (Z.gtb_spec 0 (len (rom m))); [pose proof (len_nonneg (rom m)); lia|].
Qed.

End SizeLimit.

(** C1 (the code departs from it).  The sum [load_offset + load_size] is
    formed in 32 bits.  A program that declares offset [0xFFFFFFFF] and size
    1, 4 GiB in all, passes the check against 128 MiB with the wrapped sum 0:
    without the byte it declares the load ends in [CorruptDataError], not
    [SizeLimitError]; with that byte the copy leaves the empty rom.  A
    program that declares 129 MiB is refused with [SizeLimitError]. *)
Theorem size_limit_wraps :
  kNDSRomMaxSize < 4294967295 + 1
  /\ wrap32 (4294967295 + 1) = 0
  /\ result (@load (disk wrapping_files) (str "/d") (str "short.2sf"))
     = Some (Thrown CorruptDataError)
  /\ result (@load_chdir (disk wrapping_files) (str "/d") (str "short.2sf"))
     = Some (Thrown CorruptDataError)
  /\ result (@load (disk wrapping_files) (str "/d") (str "full.2sf"))
     = Some Undefined
  /\ result (@load_chdir (disk wrapping_files) (str "/d") (str "full.2sf"))
     = Some Undefined
  /\ result (@load (disk wrapping_files) (str "/d") (str "large.2sf"))
     = Some (Thrown SizeLimitError)
  /\ result (@load_chdir (disk wrapping_files) (str "/d") (str "large.2sf"))
     = Some (Thrown SizeLimitError).
Proof. repeat split; by vm_compute. Qed.

(** * Further properties of the code

    The properties from here on are read off the sources rather than the
    specification: the integer helpers of [byteio.hpp], the failures and edge
    cases of the [PSFFile] constructor and of [write], the library loop of
    [load_2sf], and [main]. *)

(** ** byteio.hpp: what is written is what is read *)

Lemma byte_val_land (v : Z) : byte_val (byte_of (Z.land v 255)) = v mod 256.
Proof.
  rewrite land_255. apply byte_val_of. apply Z.mod_pos_bound. lia.
Qed.

Lemma le16_value (b0 b1 : ascii) :
  Z.lor (byte_val b0) (Z.shiftl (byte_val b1) 8)
  = byte_val b0 + byte_val b1 * 2 ^ 8.
Proof.
  pose proof (byte_val_range b0). by rewrite lor_shiftl_add by lia.
Qed.

Lemma le16_decode_encode (v : Z) :
  0 <= v < 2 ^ 16 ->
  byte_val (byte_of (Z.land v 255))
  + byte_val (byte_of (Z.land (Z.shiftr v 8) 255)) * 2 ^ 8 = v.
Proof.
  intros Hv. rewrite !byte_val_land, Z.shiftr_div_pow2 by lia.
  change (2 ^ 8) with 256. change (2 ^ 16) with 65536 in Hv.
  Z.div_mod_to_equations. lia.
Qed.

Lemma store_app (before after : bytes) (old c : ascii) :
  store (before ++ old :: after, length before) c
  = Some (before ++ c :: after, S (length before)).
Proof.
  unfold store. rewrite decide_True by (rewrite length_app; simpl; lia).
  by rewrite insert_app_r_alt, Nat.sub_diag by lia.
Qed.

Lemma store_end (buf : bytes) (pos : nat) (c : ascii) :
  (length buf <= pos)%nat -> store (buf, pos) c = None.
Proof. intros Hpos. unfold store. by rewrite decide_False by lia. Qed.

(** A buffer with room for [n] elements from position [pos] on. *)
Lemma buffer_split (buf : bytes) (pos n : nat) :
  (pos + n <= length buf)%nat ->
  exists old, length old = n
    /\ buf = take pos buf ++ old ++ drop (pos + n) buf
    /\ length (take pos buf) = pos.
Proof.
  intros Hroom. exists (take n (drop pos buf)). split; [|split].
  - rewrite length_take, length_drop. lia.
  - rewrite <- drop_drop, take_drop, take_drop. done.
  - rewrite length_take. lia.
Qed.

Lemma store_at (before after : bytes) (old c : ascii) (pos : nat) :
  pos = length before ->
  store (before ++ old :: after, pos) c = Some ((before ++ [c]) ++ after, S pos).
Proof. intros ->. rewrite store_app. by rewrite <- app_assoc. Qed.

Lemma length_snoc (before : bytes) (c : ascii) (pos : nat) :
  pos = length before -> S pos = length (before ++ [c]).
Proof. intros ->. rewrite length_app. simpl. lia. Qed.

Lemma WriteInt32L_le32 (buf : bytes) (pos : nat) (value : Z) :
  (pos + 4 <= length buf)%nat ->
  WriteInt32L (buf, pos) value
  = Some (take pos buf ++ le32 value ++ drop (pos + 4) buf, (pos + 4)%nat).
Proof.
  intros Hroom.
  destruct (buffer_split buf pos 4 Hroom) as (old & Hold & Hbuf & Hpos).
  destruct old as [|o0 [|o1 [|o2 [|o3 [|]]]]]; try done.
  rewrite Hbuf at 1. unfold WriteInt32L. cbn [app].
  symmetry in Hpos.
  rewrite (store_at _ _ _ _ _ Hpos). cbn [mbind option_bind].
  rewrite (store_at _ _ _ _ _ (length_snoc _ _ _ Hpos)).
  cbn [mbind option_bind].
  rewrite (store_at _ _ _ _ _ (length_snoc _ _ _ (length_snoc _ _ _ Hpos))).
  cbn [mbind option_bind].
  rewrite (store_at _ _ _ _ _
             (length_snoc _ _ _ (length_snoc _ _ _ (length_snoc _ _ _ Hpos)))).
  rewrite <- !app_assoc. do 2 f_equal. lia.
Qed.

(** X1.  [WriteInt32L] through an iterator that has four elements before it
    replaces exactly these by the little-endian bytes of the value, the ones
    [InsertInt32L] appends, and leaves the iterator behind them; [ReadInt32L]
    from the same position reads the value back and ends at the same place. *)
Theorem WriteInt32L_then_ReadInt32L (buf : bytes) (pos : nat) (value : Z) :
  (pos + 4 <= length buf)%nat -> 0 <= value < 2 ^ 32 ->
  exists buf',
    WriteInt32L (buf, pos) value = Some (buf', (pos + 4)%nat)
    /\ buf' = take pos buf ++ le32 value ++ drop (pos + 4) buf
    /\ ReadInt32L (drop pos buf') = Some (value, drop (pos + 4) buf).
Proof.
  intros Hroom Hv. eexists. split; [by apply WriteInt32L_le32|].
  split; [done|].
  rewrite drop_app_length' by (rewrite length_take; lia).
  by apply ReadInt32L_le32.
Qed.

(** X2.  The 16-bit and 8-bit helpers: what [InsertInt16L] and [InsertInt8]
    append, [ReadStreamAsInt16L] and [ReadStreamAsInt8] read back from a
    stream; [WriteInt16L] and [WriteInt8] through an iterator with room
    replace exactly two bytes and one byte, by the same bytes, and
    [ReadInt16L] and [ReadInt8] read the value back. *)
Theorem narrow_integers_read_back (buf : bytes) (pos : nat) (value : Z)
    (rest : bytes) :
  (0 <= value < 2 ^ 16 ->
     ReadStreamAsInt16L (InsertInt16L [] value ++ rest) = Some (value, rest)
     /\ ((pos + 2 <= length buf)%nat ->
         exists buf',
           WriteInt16L (buf, pos) value = Some (buf', (pos + 2)%nat)
           /\ buf' = take pos buf ++ InsertInt16L [] value ++ drop (pos + 2) buf
           /\ ReadInt16L (drop pos buf') = Some (value, drop (pos + 2) buf)))
  /\ (0 <= value < 2 ^ 8 ->
        ReadStreamAsInt8 (InsertInt8 [] value ++ rest) = Some (value, rest)
        /\ ((pos + 1 <= length buf)%nat ->
            exists buf',
              WriteInt8 (buf, pos) value = Some (buf', (pos + 1)%nat)
              /\ buf' = take pos buf ++ InsertInt8 [] value ++ drop (pos + 1) buf
              /\ ReadInt8 (drop pos buf') = Some (value, drop (pos + 1) buf))).
Proof.
  split; intros Hv.
  - assert (Hread : ReadInt16L (InsertInt16L [] value ++ rest)
                    = Some (value, rest)).
    { unfold InsertInt16L. cbn [app ReadInt16L].
      by rewrite le16_value, le16_decode_encode. }
    split; [exact Hread|]. intros Hroom.
    destruct (buffer_split buf pos 2 Hroom) as (old & Hold & Hbuf & Hpos).
    destruct old as [|o0 [|o1 [|]]]; try done.
    eexists. split; [|split; [reflexivity|]].
    + rewrite Hbuf at 1. unfold WriteInt16L. cbn [app].
      symmetry in Hpos.
      rewrite (store_at _ _ _ _ _ Hpos). cbn [mbind option_bind].
      rewrite (store_at _ _ _ _ _ (length_snoc _ _ _ Hpos)).
      rewrite <- !app_assoc. do 2 f_equal. lia.
    + rewrite drop_app_length' by done.
      unfold InsertInt16L. cbn [app ReadInt16L].
      by rewrite le16_value, le16_decode_encode.
  - assert (Hbyte : byte_val (byte_of value) = value)
      by (apply byte_val_of; lia).
    split; [unfold InsertInt8; cbn [app]; by rewrite ReadStreamAsInt8_cons, Hbyte|].
    intros Hroom.
    destruct (buffer_split buf pos 1 Hroom) as (old & Hold & Hbuf & Hpos).
    destruct old as [|o0 [|]]; try done.
    eexists. split; [|split; [reflexivity|]].
    + rewrite Hbuf at 1. unfold WriteInt8. cbn [app].
      symmetry in Hpos. rewrite (store_at _ _ _ _ _ Hpos).
      rewrite <- !app_assoc. do 2 f_equal. lia.
    + rewrite drop_app_length' by done.
      unfold InsertInt8. cbn [app ReadInt8]. by rewrite Hbyte.
Qed.

Lemma ReadStreamAsInt32L_ReadInt32L (ins : bytes) :
  ReadStreamAsInt32L ins = ReadInt32L ins.
Proof.
  unfold ReadStreamAsInt32L, istream_read. change (Z.to_nat 4) with 4%nat.
  by destruct ins as [|b0 [|b1 [|b2 [|b3 ins]]]].
Qed.

Lemma byte_of_val (b : ascii) : byte_of (byte_val b) = b.
Proof. unfold byte_of, byte_val. rewrite N2Z.id. apply ascii_N_embedding. Qed.

Lemma ReadInt32L_inv (ins : bytes) (value : Z) (rest : bytes) :
  ReadInt32L ins = Some (value, rest) ->
  0 <= value < 2 ^ 32 /\ ins = le32 value ++ rest.
Proof.
  intros Hit. split; [exact (proj1 (ReadInt32L_range _ _ _ Hit))|].
  destruct ins as [|b0 [|b1 [|b2 [|b3 ins]]]]; try done.
  cbn [ReadInt32L] in Hit. injection Hit as <- <-.
  pose proof (byte_val_range b0). pose proof (byte_val_range b1).
  pose proof (byte_val_range b2). pose proof (byte_val_range b3).
  rewrite le32_value. unfold le32, InsertInt32L. cbn [app].
  rewrite !land_255, !Z.shiftr_div_pow2 by lia.
  change (2 ^ 8) with 256. change (2 ^ 16) with 65536.
  change (2 ^ 24) with 16777216.
  rewrite <- (byte_of_val b0) at 1. rewrite <- (byte_of_val b1) at 1.
  rewrite <- (byte_of_val b2) at 1. rewrite <- (byte_of_val b3) at 1.
  repeat f_equal; Z.div_mod_to_equations; lia.
Qed.


Lemma WriteInt32L_then_ReadInt32L_witness :
  exists buf',
    WriteInt32L (replicate 6 zero, 1%nat) 305419896 = Some (buf', (1 + 4)%nat)
    /\ buf' = take 1 (replicate 6 zero) ++ le32 305419896
              ++ drop (1 + 4) (replicate 6 zero)
    /\ ReadInt32L (drop 1 buf')
       = Some (305419896, drop (1 + 4) (replicate 6 zero)).
Proof.
  apply (WriteInt32L_then_ReadInt32L (replicate 6 zero) 1 305419896);
    [simpl; lia | lia].
Defined.

Lemma narrow_integers_read_back_witness :
  ReadStreamAsInt16L (InsertInt16L [] 4660 ++ [zero]) = Some (4660, [zero])
  /\ exists buf',
       WriteInt16L (replicate 3 zero, 1%nat) 4660 = Some (buf', (1 + 2)%nat)
       /\ buf' = take 1 (replicate 3 zero) ++ InsertInt16L [] 4660
                 ++ drop (1 + 2) (replicate 3 zero)
       /\ ReadInt16L (drop 1 buf')
          = Some (4660, drop (1 + 2) (replicate 3 zero)).
Proof.
  destruct (proj1 (narrow_integers_read_back (replicate 3 zero) 1 4660 [zero]))
    as [Hstream Hiter]; [lia|].
  split; [exact Hstream|]. apply Hiter. simpl. lia.
Defined.


(** X4.  The stream readers fail exactly on a short stream: fewer than one,
    two or four bytes left.  [WriteInt32L] has a meaning exactly when four
    elements lie before the iterator. *)
Theorem short_input (ins buf : bytes) (pos : nat) (value : Z) :
  (ReadStreamAsInt8 ins = None <-> len ins < 1)
  /\ (ReadStreamAsInt16L ins = None <-> len ins < 2)
  /\ (ReadStreamAsInt32L ins = None <-> len ins < 4)
  /\ (WriteInt32L (buf, pos) value = None <-> (length buf < pos + 4)%nat).
Proof.
  unfold ReadStreamAsInt8, ReadStreamAsInt16L, ReadStreamAsInt32L,
    istream_read, len.
  change (Z.to_nat 1) with 1%nat. change (Z.to_nat 2) with 2%nat.
  change (Z.to_nat 4) with 4%nat.
  split; [|split; [|split]].
  - destruct ins as [|b0 ins]; cbn [take drop length]; split; (done || lia).
  - destruct ins as [|b0 [|b1 ins]]; cbn [take drop length]; split;
      (done || lia).
  - destruct ins as [|b0 [|b1 [|b2 [|b3 ins]]]]; cbn [take drop length]; split;
      (done || lia).
  - split.
    + intros Hnone. destruct (decide (pos + 4 <= length buf)%nat) as [Hroom|];
        [|lia].
      by rewrite WriteInt32L_le32 in Hnone.
    + intros Hshort. unfold WriteInt32L, store.
      repeat (case_decide; cbn [mbind option_bind]; [|done]).
      rewrite !length_insert in *. lia.
Qed.

(** ** The constructor read backwards *)

Lemma istream_read_inv (n : Z) (ins data rest : bytes) :
  istream_read n ins = (data, rest) -> len data = n -> 0 <= n ->
  ins = data ++ rest.
Proof.
  unfold istream_read. intros [= <- <-] _ _. by rewrite take_drop.
Qed.

(** The header of a file the constructor gets past. *)
Lemma parse_inv (file : bytes) (psf : PSFFile) :
  parse file = inr psf ->
  exists v rs es c body,
    file = header v rs es c ++ body
    /\ 0 <= v < 256 /\ 0 <= rs < 2 ^ 32 /\ 0 <= es < 2 ^ 32
    /\ 0 <= c < 2 ^ 32
    /\ read_areas (16 + len body) v rs es c body = inr psf.
Proof.
  intros Hr. unfold parse in Hr.
  destruct file as [|s0 [|s1 [|s2 in1]]]; try done.
  unfold istream_read in Hr. change (Z.to_nat kPSFSignatureSize) with 3%nat in Hr.
  cbn [take drop] in Hr. rewrite take_0 in Hr.
  change (len [s0; s1; s2] =? kPSFSignatureSize) with true in Hr.
  cbn [negb] in Hr. unfold bytes_eqb in Hr.
  case_bool_decide as Hsig; cbn [negb] in Hr; [|done].
  destruct in1 as [|v in2]; [done|].
  rewrite drop_0, ReadStreamAsInt8_cons, ReadStreamAsInt32L_ReadInt32L in Hr.
  destruct (ReadInt32L in2) as [[rs in3]|] eqn:Hrs; [|done].
  apply ReadInt32L_inv in Hrs as [Hrs ->].
  rewrite ReadStreamAsInt32L_ReadInt32L in Hr.
  destruct (ReadInt32L in3) as [[es in4]|] eqn:Hes; [|done].
  apply ReadInt32L_inv in Hes as [Hes ->].
  rewrite ReadStreamAsInt32L_ReadInt32L in Hr.
  destruct (ReadInt32L in4) as [[c in5]|] eqn:Hc; [|done].
  apply ReadInt32L_inv in Hc as [Hc ->].
  exists (byte_val v), rs, es, c, in5.
  split; [|split; [apply byte_val_range|]].
  - unfold header. rewrite <- Hsig, byte_of_val. by rewrite <- !app_assoc.
  - do 3 (split; [done|]). rewrite <- Hr. f_equal. unfold len. simpl. lia.
Qed.

(** The areas of a file the constructor accepts. *)
Lemma read_areas_inv (v rs es c : Z) (body : bytes) (psf : PSFFile) :
  read_areas (16 + len body) v rs es c body = inr psf ->
  0 <= rs < 2 ^ 32 -> 0 <= es < 2 ^ 32 -> 16 + len body < 2 ^ 64 ->
  exists rest,
    body = reserved psf ++ compressed_exe psf ++ rest
    /\ len (reserved psf) = rs /\ len (compressed_exe psf) = es
    /\ version psf = v /\ compressed_exe_crc32 psf = c
    /\ tags psf = (if bool_decide (take 5 rest = kPSFTagMarker)
                   then parse_tags (drop 5 rest) else ∅).
Proof.
  unfold read_areas. intros Hrun Hrs Hes Hsize.
  destruct (_ >? _); [done|].
  destruct (istream_read rs body) as [reserved in6] eqn:Hin6.
  destruct (Z.eqb_spec (len reserved) rs) as [Hlr|]; [|done]. cbn [negb] in Hrun.
  apply istream_read_inv in Hin6 as ->; [|done|lia].
  destruct (istream_read es in6) as [exe in7] eqn:Hin7.
  destruct (Z.eqb_spec (len exe) es) as [Hle|]; [|done]. cbn [negb] in Hrun.
  apply istream_read_inv in Hin7 as ->; [|done|lia].
  rewrite !len_app, Hlr, Hle in *.
  pose proof (len_nonneg in7) as Hin7.
  exists in7.
  assert (Hnotags : take 5 in7 <> kPSFTagMarker ->
            (inr (mkPSF v reserved exe c ∅) : parse_error + PSFFile) = inr psf ->
            reserved ++ exe ++ in7 = PSF.reserved psf ++ compressed_exe psf ++ in7
            /\ len (PSF.reserved psf) = rs /\ len (compressed_exe psf) = es
            /\ version psf = v /\ compressed_exe_crc32 psf = c
            /\ tags psf = (if bool_decide (take 5 in7 = kPSFTagMarker)
                           then parse_tags (drop 5 in7) else ∅)).
  { intros Hm [= <-]. cbn. by rewrite bool_decide_false. }
  destruct (Z.leb_spec (wrap32 (16 + rs + es) + kPSFTagMarkerSize)
              (16 + (rs + (es + len in7)))) as [Hmark|Hmark].
  - unfold istream_read at 1 in Hrun. unfold kPSFTagMarkerSize in Hrun.
    change (Z.to_nat 5) with 5%nat in Hrun.
    destruct (Z.eqb_spec (len (take 5 in7)) 5) as [Hl5|Hl5]; cbn [andb] in Hrun.
    2:{ apply Hnotags; [|done]. intros Hm. by rewrite Hm in Hl5. }
    unfold bytes_eqb in Hrun. case_bool_decide as Hm; [|by apply Hnotags].
    set (tag_size := wrap64 _) in Hrun.
    destruct (istream_read tag_size (drop 5 in7)) as [tag_string in9] eqn:Hin9.
    destruct (Z.eqb_spec (len tag_string) tag_size) as [Hlt|]; [|done].
    cbn [negb] in Hrun. injection Hrun as <-. cbn.
    do 5 (split; [done|]). f_equal.
    assert (Hl5' : 5 <= len in7).
    { unfold len in *. rewrite length_take in Hl5. lia. }
    assert (0 <= tag_size) by (apply Z.mod_pos_bound; lia).
    unfold istream_read in Hin9. injection Hin9 as <- _.
    apply take_ge. unfold len in Hlt. rewrite length_take in Hlt.
    rewrite length_drop in *.
    assert (Htag : len in7 - 5 <= tag_size); [|unfold len in *; lia].
    subst tag_size. unfold wrap64, wrap32.
    pose proof (Z.mod_le (16 + rs + es + 5) (2 ^ 32)).
    pose proof (Z.mod_pos_bound (16 + rs + es + 5) (2 ^ 32)).
    rewrite Z.mod_small; lia.
  - apply Hnotags; [|done]. intros Hm.
    apply (f_equal length) in Hm. rewrite length_take in Hm.
    change (length kPSFTagMarker) with 5%nat in Hm.
    pose proof (Z.mod_le (16 + rs + es) (2 ^ 32)).
    unfold wrap32, kPSFTagMarkerSize, len in *. lia.
Qed.

Lemma write_tagless (psf : PSFFile) :
  len (reserved psf) < 2 ^ 32 -> len (compressed_exe psf) < 2 ^ 32 ->
  write (set_tags ∅ psf)
  = header (version psf) (len (reserved psf)) (len (compressed_exe psf))
           (compressed_exe_crc32 psf)
    ++ reserved psf ++ compressed_exe psf.
Proof.
  intros Hr He. unfold write. rewrite write_as_layout.
  cbn [set_tags tags version reserved compressed_exe compressed_exe_crc32].
  rewrite bool_decide_true by done. rewrite app_nil_r.
  pose proof (len_nonneg (reserved psf)).
  pose proof (len_nonneg (compressed_exe psf)).
  unfold wrap32. by rewrite !Z.mod_small by lia.
Qed.

(** X5.  The constructor read backwards.  A file it accepts begins with the
    bytes [write] produces for the container without its tags: the header,
    the reserved area and the payload.  The version and the CRC32 field are
    in range, and the tags are those of the text behind the marker if the
    five bytes behind the payload are the marker, none otherwise. *)
Theorem parse_then_write (file : bytes) (psf : PSFFile) :
  parse file = inr psf -> len file < 2 ^ 64 ->
  exists rest,
    file = write (set_tags ∅ psf) ++ rest
    /\ 0 <= version psf < 256
    /\ 0 <= compressed_exe_crc32 psf < 2 ^ 32
    /\ tags psf = (if bool_decide (take 5 rest = kPSFTagMarker)
                   then parse_tags (drop 5 rest) else ∅).
Proof.
  intros Hparse Hsize.
  apply parse_inv in Hparse
    as (v & rs & es & c & body & -> & Hv & Hrs & Hes & Hc & Hrun).
  rewrite len_app, len_header in Hsize.
  apply read_areas_inv in Hrun
    as (rest & -> & Hlr & Hle & Hver & Hcrc & Htags); [|done..].
  exists rest. rewrite write_tagless by lia.
  rewrite Hlr, Hle, Hver, Hcrc, <- !app_assoc. done.
Qed.

Lemma parse_then_write_witness :
  exists psf rest,
    parse (write tagged_psf) = inr psf
    /\ write tagged_psf = write (set_tags ∅ psf) ++ rest
    /\ 0 <= version psf < 256
    /\ 0 <= compressed_exe_crc32 psf < 2 ^ 32
    /\ tags psf = (if bool_decide (take 5 rest = kPSFTagMarker)
                   then parse_tags (drop 5 rest) else ∅).
Proof.
  assert (Hsize : len (write tagged_psf) < 2 ^ 64) by by vm_compute.
  destruct (parse (write tagged_psf)) as [e|psf] eqn:Hparse;
    [by vm_compute in Hparse|].
  destruct (parse_then_write (write tagged_psf) psf Hparse Hsize)
    as [rest Hrest].
  exists psf, rest. split; [reflexivity|exact Hrest].
Defined.

Lemma read_areas_failure (psf_size v rs es c : Z) (body : bytes)
    (e : parse_error) :
  read_areas psf_size v rs es c body = inl e ->
  e = FileTooShort \/ e = ReservedUnreadable \/ e = ExeUnreadable
  \/ e = TagAreaUnreadable.
Proof.
  unfold read_areas. intros Hrun.
  destruct (_ >? _); [left; congruence|].
  destruct (istream_read rs body) as [reserved in6].
  destruct (negb _); [right; left; congruence|].
  destruct (istream_read es in6) as [exe in7].
  destruct (negb _); [right; right; left; congruence|].
  destruct (_ <=? _); [|done].
  destruct (istream_read _ in7) as [tag_marker in8].
  destruct (_ && _); [|done].
  destruct (istream_read _ in8) as [tag_string in9].
  destruct (negb _); [right; right; right; congruence|done].
Qed.


(** ** The failures of the constructor *)

Lemma parse_header_failure (file : bytes) :
  match header_failure file with
  | Some e => parse file = inl e
  | None => forall e, parse file = inl e ->
                      e = FileTooShort \/ e = ReservedUnreadable
                      \/ e = ExeUnreadable \/ e = TagAreaUnreadable
  end.
Proof.
  destruct file as [|s0 [|s1 [|s2 rest]]]; try reflexivity.
  unfold header_failure, parse, istream_read.
  change (Z.to_nat kPSFSignatureSize) with 3%nat.
  cbn [take drop]. rewrite take_0, drop_0.
  change (len [s0; s1; s2] =? kPSFSignatureSize) with true.
  replace (len (s0 :: s1 :: s2 :: rest) <? 3) with false
    by (symmetry; apply Z.ltb_ge; unfold len; cbn [length]; lia).
  unfold bytes_eqb. case_bool_decide as Hsig; cbn [negb]; [|done].
  do 13 (destruct rest as [|? rest]; [reflexivity|]).
  replace (len _ <? 4) with false
    by (symmetry; apply Z.ltb_ge; unfold len; cbn [length]; lia).
  replace (len _ <? 8) with false
    by (symmetry; apply Z.ltb_ge; unfold len; cbn [length]; lia).
  replace (len _ <? 12) with false
    by (symmetry; apply Z.ltb_ge; unfold len; cbn [length]; lia).
  replace (len _ <? 16) with false
    by (symmetry; apply Z.ltb_ge; unfold len; cbn [length]; lia).
  rewrite ReadStreamAsInt8_cons.
  unfold ReadStreamAsInt32L, istream_read. change (Z.to_nat 4) with 4%nat.
  cbn [take drop]. rewrite take_0, drop_0.
  intros e He. by apply read_areas_failure in He.
Qed.

(** X6.  The first six failures of the constructor are decided by the length
    of the file and its first three bytes: no signature below three bytes, a
    wrong signature, then, the signature being right, the version byte
    missing at three bytes and the three 32-bit fields missing below 8, 12
    and 16 bytes. *)
Theorem constructor_header_failures (file : bytes) :
  (parse file = inl SignatureUnreadable <-> len file < 3)
  /\ (parse file = inl InvalidSignature
      <-> 3 <= len file /\ take 3 file <> kPSFSignature)
  /\ (parse file = inl VersionUnreadable
      <-> take 3 file = kPSFSignature /\ len file = 3)
  /\ (parse file = inl ReservedSizeUnreadable
      <-> take 3 file = kPSFSignature /\ 4 <= len file < 8)
  /\ (parse file = inl ExeSizeUnreadable
      <-> take 3 file = kPSFSignature /\ 8 <= len file < 12)
  /\ (parse file = inl Crc32Unreadable
      <-> take 3 file = kPSFSignature /\ 12 <= len file < 16).
Proof.
  pose proof (parse_header_failure file) as Hparse.
  assert (Hsig3 : take 3 file = kPSFSignature -> 3 <= len file).
  { intros Hsig. apply (f_equal length) in Hsig. rewrite length_take in Hsig.
    change (length kPSFSignature) with 3%nat in Hsig. unfold len. lia. }
  unfold header_failure, bytes_eqb in Hparse.
  destruct (Z.ltb_spec (len file) 3);
    [|case_bool_decide as Hsig; cbn [negb] in Hparse;
      [destruct (Z.ltb_spec (len file) 4);
       [|destruct (Z.ltb_spec (len file) 8);
         [|destruct (Z.ltb_spec (len file) 12);
           [|destruct (Z.ltb_spec (len file) 16)]]]|]];
    repeat split; intros;
    repeat match goal with Hand : _ /\ _ |- _ => destruct Hand end;
    try lia; try congruence; try tauto;
    match goal with
    | Hfail : parse file = inl _ |- _ =>
        by destruct (Hparse _ Hfail) as [|[|[|]]]
    end.
Qed.

Lemma len_istream_read (n : Z) (ins : bytes) :
  0 <= n -> len (istream_read n ins).1 = Z.min n (len ins)
            /\ len (istream_read n ins).2 = Z.max 0 (len ins - n).
Proof.
  intros Hn. unfold istream_read, len. cbn [fst snd].
  rewrite length_take, length_drop. lia.
Qed.

(** X7.  A file that lacks part of the areas its header declares is refused.
    The failure is [FileTooShort] when the 32-bit sum of 16 and the two
    sizes exceeds the size of the file, always so when the sum stays below
    4 GiB; when the sum has wrapped around, the failure is that of the area
    the file ends in. *)
Theorem truncated_file (v rs es c : Z) (body : bytes) :
  0 <= v < 256 -> 0 <= rs < 2 ^ 32 -> 0 <= es < 2 ^ 32 -> 0 <= c < 2 ^ 32 ->
  len body < rs + es ->
  parse (header v rs es c ++ body)
  = inl (if wrap32 (16 + rs + es) >? 16 + len body then FileTooShort
         else if len body <? rs then ReservedUnreadable else ExeUnreadable)
  /\ (16 + rs + es < 2 ^ 32 ->
      parse (header v rs es c ++ body) = inl FileTooShort).
Proof.
  intros Hv Hrs Hes Hc Hshort.
  rewrite parse_header by done. unfold read_areas. split.
  - destruct (_ >? _); [done|].
    destruct (len_istream_read rs body) as [Hl6 Hr6]; [lia|].
    destruct (istream_read rs body) as [reserved in6]. cbn [fst snd] in *.
    destruct (Z.ltb_spec (len body) rs).
    + by destruct (Z.eqb_spec (len reserved) rs); [lia|].
    + destruct (Z.eqb_spec (len reserved) rs); [|lia]. cbn [negb].
      destruct (len_istream_read es in6) as [Hl7 _]; [lia|].
      destruct (istream_read es in6) as [exe in7]. cbn [fst snd] in *.
      by destruct (Z.eqb_spec (len exe) es); [lia|].
  - intros Hsum. unfold wrap32 at 1. rewrite Z.mod_small by lia.
    by destruct (Z.gtb_spec (16 + rs + es) (16 + len body)); [|lia].
Qed.

Lemma truncated_file_witness :
  parse (header 36 4 0 0 ++ [zero]) = inl FileTooShort
  /\ parse (header 36 4294967280 0 0 ++ []) = inl ReservedUnreadable.
Proof.
  split.
  - apply (truncated_file 36 4 0 0 [zero]); try lia. by vm_compute.
  - apply (truncated_file 36 4294967280 0 0 []); try lia. by vm_compute.
Defined.



(** ** Trimming *)

Lemma trim_start_split (s : bytes) :
  exists before,
    s = before ++ trim_start s /\ Forall (fun c => is_space c = true) before
    /\ match trim_start s with c :: _ => is_space c = false | [] => True end.
Proof.
  induction s as [|c s (before & Hs & Hsp & Hhd)]; [by exists []|].
  simpl. destruct (is_space c) eqn:Hc.
  - exists (c :: before). split; [by rewrite Hs at 1|]. split; [|done].
    by constructor.
  - exists []. by rewrite Hc.
Qed.

Lemma trim_start_fixed (s : bytes) :
  match s with c :: _ => is_space c = false | [] => True end ->
  trim_start s = s.
Proof. destruct s as [|c s]; [done|]. simpl. by intros ->. Qed.

Lemma trim_start_last (s : bytes) :
  trim_start s <> [] -> last (trim_start s) = last s.
Proof.
  induction s as [|c s IH]; [done|]. simpl.
  destruct (is_space c); [|done]. intros Hne. rewrite IH by done.
  destruct s; [done|done].
Qed.

Lemma last_rev_head (s : bytes) : last (rev s) = head s.
Proof. destruct s as [|c s]; [done|]. simpl. by rewrite last_snoc. Qed.

Lemma head_rev_last (s : bytes) : head (rev s) = last s.
Proof. rewrite <- (rev_involutive s) at 2. by rewrite last_rev_head. Qed.

(** What [trim] removes and what it leaves. *)
Lemma trim_split (s : bytes) :
  exists before after,
    s = before ++ trim s ++ after
    /\ Forall (fun c => is_space c = true) before
    /\ Forall (fun c => is_space c = true) after
    /\ match head (trim s) with Some c => is_space c = false | None => True end
    /\ match last (trim s) with Some c => is_space c = false | None => True end.
Proof.
  unfold trim, trim_end.
  destruct (trim_start_split (rev s)) as (after & Hrev & Hafter & Hlast).
  set (t := trim_start (rev s)) in *.
  destruct (trim_start_split (rev t)) as (before & Ht & Hbefore & Hhead).
  exists before, (rev after). split; [|split; [done|split; [|split]]].
  - rewrite <- (rev_involutive s), Hrev, rev_app_distr, Ht at 1.
    by rewrite <- app_assoc.
  - by apply Forall_rev.
  - by destruct (trim_start (rev t)).
  - destruct (decide (trim_start (rev t) = [])) as [->|Hne]; [done|].
    rewrite trim_start_last, last_rev_head by done. by destruct t.
Qed.

Lemma trim_fixed (t : bytes) :
  match head t with Some c => is_space c = false | None => True end ->
  match last t with Some c => is_space c = false | None => True end ->
  trim t = t.
Proof.
  intros Hhead Hlast. unfold trim, trim_end.
  rewrite (trim_start_fixed (rev t)).
  - rewrite rev_involutive. apply trim_start_fixed. by destruct t.
  - pose proof (head_rev_last t) as Hrev. destruct (rev t); [done|].
    simpl in Hrev. by rewrite <- Hrev in Hlast.
Qed.

Lemma trim_idemp (s : bytes) : trim (trim s) = trim s.
Proof.
  destruct (trim_split s) as (_ & _ & _ & _ & _ & Hhead & Hlast).
  by apply trim_fixed.
Qed.

Lemma trim_subseteq (s : bytes) (c : ascii) : c ∈ trim s -> c ∈ s.
Proof.
  destruct (trim_split s) as (before & after & Hs & _). intros Hc.
  rewrite Hs. set_solver.
Qed.

(** X8.  [trim] cuts a text into three: bytes up to 0x20 before, bytes up to
    0x20 after, and in between the result, which neither starts nor ends
    with such a byte.  Trimming twice is trimming once. *)
Theorem trim_takes_outer_whitespace (s : bytes) :
  (exists before after,
     s = before ++ trim s ++ after
     /\ Forall (fun c => byte_val c <= 32) before
     /\ Forall (fun c => byte_val c <= 32) after
     /\ match head (trim s) with Some c => 32 < byte_val c | None => True end
     /\ match last (trim s) with Some c => 32 < byte_val c | None => True end)
  /\ trim (trim s) = trim s.
Proof.
  split; [|apply trim_idemp].
  destruct (trim_split s) as (before & after & Hs & Hb & Ha & Hhead & Hlast).
  exists before, after. split; [done|].
  assert (Hsp : forall c, is_space c = true -> byte_val c <= 32)
    by (intros c Hc; by apply Z.leb_le).
  assert (Hns : forall c, is_space c = false -> 32 < byte_val c)
    by (intros c Hc; by apply Z.leb_gt).
  split; [by eapply Forall_impl|]. split; [by eapply Forall_impl|].
  split; [destruct (head (trim s))|destruct (last (trim s))]; auto.
Qed.

(** ** The lines of a tag block *)

Lemma getlines_no_nl (s : bytes) : Forall (fun line => nl ∉ line) (getlines s).
Proof.
  induction s as [|c s IH]; [constructor|]. simpl. case_bool_decide as Hc.
  - constructor; [|done]. by intros ?%elem_of_nil.
  - destruct (getlines s) as [|line more].
    + constructor; [|done]. by intros ?%list_elem_of_singleton.
    + apply Forall_cons in IH as [Hline Hmore]. constructor; [|done].
      intros [?|?]%elem_of_cons; done.
Qed.

Lemma break_at_inv (c : ascii) (s before : bytes) (after : option bytes) :
  break_at c s = (before, after) ->
  (c ∉ before)
  /\ match after with Some a => s = before ++ c :: a | None => s = before end.
Proof.
  revert before after. induction s as [|x s IH]; intros before after Hb.
  - injection Hb as <- <-. split; [by intros ?%elem_of_nil|done].
  - simpl in Hb. case_bool_decide as Hx.
    + injection Hb as <- <-. subst x. split; [by intros ?%elem_of_nil|done].
    + destruct (break_at c s) as [b a] eqn:E. injection Hb as <- <-.
      destruct (IH b a eq_refl) as [Hc Hs]. split.
      * intros [?|?]%elem_of_cons; done.
      * destruct a; by rewrite Hs at 1.
Qed.

Lemma line_entry_plain_key (line key value : bytes) :
  nl ∉ line -> line_entry line = Some (key, value) ->
  plain key /\ ("="%char ∉ key) /\ plain value.
Proof.
  unfold line_entry. intros Hnl Hentry.
  destruct (break_at "=" line) as [name [v|]] eqn:Hb; [|done].
  injection Hentry as <- <-.
  apply break_at_inv in Hb as [Heq ->].
  repeat split.
  - apply trim_idemp.
  - intros Hin%trim_subseteq. apply Hnl. set_solver.
  - by intros Hin%trim_subseteq.
  - apply trim_idemp.
  - intros Hin%trim_subseteq. apply Hnl. set_solver.
Qed.

Lemma values_of_plain (key : bytes) (lines : list bytes) :
  Forall (fun line => nl ∉ line) lines ->
  Forall plain (values_of key lines)
  /\ (values_of key lines <> [] -> plain key /\ ("="%char ∉ key)).
Proof.
  induction 1 as [|line lines Hline _ [IH1 IH2]]; [done|].
  rewrite values_of_cons.
  destruct (line_entry line) as [[k v]|] eqn:Hentry; [|done].
  case_bool_decide as Hk; [|done]. subst k.
  apply line_entry_plain_key in Hentry as (Hkey & Heq & Hv); [|done].
  split; [by constructor|done].
Qed.

(** X9.  Every tag the constructor stores is in trimmed form: the key has
    nothing to trim, no newline and no [=]; the value is made of one or more
    such texts joined by newlines. *)
Theorem parsed_tags_are_plain (tag_string key value : bytes) :
  parse_tags tag_string !! key = Some value ->
  plain key /\ ("="%char ∉ key)
  /\ exists v vs, value = joined v vs /\ Forall plain (v :: vs).
Proof.
  rewrite parse_tags_lookup.
  destruct (values_of_plain key (getlines tag_string) (getlines_no_nl _))
    as [Hvalues Hkey].
  destruct (values_of key (getlines tag_string)) as [|v vs]; [done|].
  intros [= <-]. destruct Hkey as [Hkey Heq]; [done|].
  split; [done|]. split; [done|]. by exists v, vs.
Qed.

Lemma parsed_tags_are_plain_witness :
  plain (str "a") /\ ("="%char ∉ str "a")
  /\ exists v vs,
       str "1" ++ [nl] ++ str "2" = joined v vs /\ Forall plain (v :: vs).
Proof.
  apply (parsed_tags_are_plain
           (str "a =1" ++ [nl] ++ str "a= 2" ++ [nl]) (str "a")
           (str "1" ++ [nl] ++ str "2")).
  by vm_compute.
Defined.

Lemma unlines_cons (eol line : bytes) (lines : list bytes) :
  unlines eol (line :: lines) = line ++ eol ++ unlines eol lines.
Proof. unfold unlines. cbn [fmap list_fmap concat]. by rewrite <- app_assoc. Qed.

Lemma unlines_app (eol : bytes) (lines1 lines2 : list bytes) :
  unlines eol (lines1 ++ lines2) = unlines eol lines1 ++ unlines eol lines2.
Proof. unfold unlines. by rewrite fmap_app, concat_app. Qed.

(** The lines of a text whose lines end in [pad] and a newline. *)
Lemma getlines_unlines (pad : bytes) (lines : list bytes) :
  nl ∉ pad -> Forall (fun line => nl ∉ line) lines ->
  getlines (unlines (pad ++ [nl]) lines) = (fun line => line ++ pad) <$> lines.
Proof.
  intros Hpad. induction 1 as [|line lines Hline _ IH]; [done|].
  rewrite unlines_cons, fmap_cons, <- IH.
  rewrite <- (app_assoc pad), (app_assoc line pad). cbn [app].
  apply getlines_app. intros [?|?]%elem_of_app; done.
Qed.

Lemma getlines_unlines_nl (lines : list bytes) :
  Forall (fun line => nl ∉ line) lines ->
  getlines (unlines [nl] lines) = lines.
Proof.
  intros Hlines. change [nl] with ([] ++ [nl]).
  rewrite (getlines_unlines [] lines); [|by intros ?%elem_of_nil|done].
  rewrite <- (list_fmap_id lines) at 2. apply list_fmap_ext.
  intros _ line _. apply app_nil_r.
Qed.

Lemma break_at_snoc (c x : ascii) (s : bytes) :
  x <> c ->
  break_at c (s ++ [x])
  = match break_at c s with
    | (before, Some after) => (before, Some (after ++ [x]))
    | (before, None) => (before ++ [x], None)
    end.
Proof.
  intros Hx. induction s as [|y s IH]; simpl.
  - by rewrite bool_decide_false.
  - case_bool_decide; [done|]. rewrite IH.
    by destruct (break_at c s) as [before [after|]].
Qed.

Lemma trim_snoc_space (s : bytes) (x : ascii) :
  is_space x = true -> trim (s ++ [x]) = trim s.
Proof.
  intros Hx. unfold trim, trim_end. rewrite rev_app_distr. simpl.
  by rewrite Hx.
Qed.

Lemma line_entry_snoc_cr (line : bytes) :
  line_entry (line ++ [cr]) = line_entry line.
Proof.
  unfold line_entry. rewrite break_at_snoc by done.
  destruct (break_at "=" line) as [name [value|]]; [|done].
  by rewrite trim_snoc_space.
Qed.

(** X10.  A tag block whose lines end in carriage return and newline parses
    to the same tags as the block with bare newlines. *)
Theorem crlf_line_ends (lines : list bytes) :
  Forall (fun line => nl ∉ line) lines ->
  parse_tags (unlines [cr; nl] lines) = parse_tags (unlines [nl] lines).
Proof.
  intros Hlines. rewrite !parse_tags_lines.
  change [cr; nl] with ([cr] ++ [nl]).
  rewrite (getlines_unlines [cr] lines), getlines_unlines_nl by
    (done || by intros ?%list_elem_of_singleton).
  generalize (∅ : gmap bytes bytes) as acc.
  clear Hlines. induction lines as [|line lines IH]; intros acc; [done|].
  cbn [fmap list_fmap fold_left].
  rewrite !parse_tag_line_entry, line_entry_snoc_cr. apply IH.
Qed.

Lemma crlf_line_ends_witness :
  parse_tags (unlines [cr; nl] [str "title=Song"; str "artist=A B"])
  = parse_tags (unlines [nl] [str "title=Song"; str "artist=A B"]).
Proof.
  apply (crlf_line_ends [str "title=Song"; str "artist=A B"]).
  apply (bool_decide_unpack _). by vm_compute.
Defined.

Lemma getlines_snoc_nl (a : bytes) :
  exists extra, getlines (a ++ [nl]) = getlines a ++ extra
                /\ (extra = [] \/ extra = [[]]).
Proof.
  induction a as [|c a (extra & IH & Hextra)].
  - exists [[]]. split; [done|by right].
  - simpl. case_bool_decide as Hc.
    + exists extra. by rewrite IH.
    + rewrite IH. destruct (getlines a) as [|line more] eqn:Ha.
      * destruct a as [|c' a']; [|by apply getlines_nonempty in Ha].
        simpl in IH. rewrite <- IH. exists []. split; [done|by left].
      * exists extra. done.
Qed.

Lemma getlines_app_nl (a b : bytes) :
  getlines (a ++ nl :: b) = getlines (a ++ [nl]) ++ getlines b.
Proof.
  induction a as [|c a IH]; [done|]. simpl. case_bool_decide as Hc.
  - by rewrite IH.
  - rewrite IH. destruct (getlines (a ++ [nl])) as [|line more] eqn:Ha; [|done].
    by apply getlines_nonempty in Ha; [|destruct a].
Qed.

Lemma parse_tag_line_no_eq (line : bytes) (t : gmap bytes bytes) :
  "="%char ∉ line -> parse_tag_line line t = t.
Proof.
  intros Heq. unfold parse_tag_line.
  destruct (break_at "=" line) as [name [value|]] eqn:Hb; [|done].
  apply break_at_inv in Hb as [_ ->]. set_solver.
Qed.

Lemma fold_parse_snoc_nl (a : bytes) (acc : gmap bytes bytes) :
  fold_left (fun t line => parse_tag_line line t) (getlines (a ++ [nl])) acc
  = fold_left (fun t line => parse_tag_line line t) (getlines a) acc.
Proof.
  destruct (getlines_snoc_nl a) as (extra & -> & [-> | ->]).
  - by rewrite app_nil_r.
  - rewrite fold_left_app. cbn [fold_left]. apply parse_tag_line_no_eq.
    by intros ?%elem_of_nil.
Qed.

(** X11.  Tag blocks compose: parsing a block, a newline and a second block
    is running the loop on the second block from the tags of the first.  The
    newline that ends a block can be left out. *)
Theorem tag_blocks_compose (a b : bytes) :
  parse_tags (a ++ nl :: b) = parse_tag_loop (length b) b (parse_tags a)
  /\ parse_tags (a ++ [nl]) = parse_tags a.
Proof.
  split.
  - rewrite parse_tag_loop_lines by done. rewrite !parse_tags_lines.
    by rewrite getlines_app_nl, fold_left_app, fold_parse_snoc_nl.
  - rewrite !parse_tags_lines. apply fold_parse_snoc_nl.
Qed.

Lemma Forall_filter_keep {A} (P : A -> Prop) (Q : A -> Prop)
    `{forall x, Decision (Q x)} (l : list A) :
  Forall P l -> Forall P (filter Q l).
Proof.
  rewrite !Forall_forall. intros Hl x [_ Hx]%list_elem_of_filter. by apply Hl.
Qed.

(** X12.  Lines without a [=] play no part: a block parses to the same tags
    as the block made of its lines that hold a [=]. *)
Theorem lines_without_separator_are_skipped (lines : list bytes) :
  Forall (fun line => nl ∉ line) lines ->
  parse_tags (unlines [nl] lines)
  = parse_tags (unlines [nl] (filter (fun line => "="%char ∈ line) lines)).
Proof.
  intros Hlines. rewrite !parse_tags_lines.
  rewrite getlines_unlines_nl by done.
  rewrite getlines_unlines_nl by by apply Forall_filter_keep.
  generalize (∅ : gmap bytes bytes) as acc.
  clear Hlines. induction lines as [|line lines IH]; intros acc; [done|].
  rewrite filter_cons. cbn [fold_left]. case_decide as Heq.
  - cbn [fold_left]. apply IH.
  - rewrite parse_tag_line_no_eq by done. apply IH.
Qed.

Lemma lines_without_separator_are_skipped_witness :
  parse_tags (unlines [nl] [str "title=Song"; str "no separator"; []])
  = parse_tags
      (unlines [nl]
         (filter (fun line => "="%char ∈ line)
                 [str "title=Song"; str "no separator"; []])).
Proof.
  apply (lines_without_separator_are_skipped
           [str "title=Song"; str "no separator"; []]).
  apply (bool_decide_unpack _). by vm_compute.
Defined.

(** ** A value of several lines, written and read back *)

Lemma fold_joined_prefix (vs : list bytes) (p x : bytes) :
  fold_left (fun acc v => acc ++ [nl] ++ v) vs (p ++ x)
  = p ++ fold_left (fun acc v => acc ++ [nl] ++ v) vs x.
Proof.
  revert x. induction vs as [|w vs IH]; intros x; [done|].
  cbn [fold_left]. by rewrite <- app_assoc, IH.
Qed.

Lemma joined_prefix (p v : bytes) (vs : list bytes) :
  joined (p ++ v) vs = p ++ joined v vs.
Proof. apply fold_joined_prefix. Qed.

Lemma joined_cons (v w : bytes) (vs : list bytes) :
  joined v (w :: vs) = v ++ nl :: joined w vs.
Proof.
  unfold joined. cbn [fold_left].
  by rewrite (fold_joined_prefix vs v ([nl] ++ w)), (fold_joined_prefix vs [nl] w).
Qed.

Lemma joined_unlines (v : bytes) (vs : list bytes) :
  joined v vs ++ [nl] = unlines [nl] (v :: vs).
Proof.
  revert v. induction vs as [|w vs IH]; intros v.
  - rewrite unlines_cons. unfold unlines. simpl. done.
  - rewrite joined_cons, unlines_cons, <- IH. by rewrite <- app_assoc.
Qed.

Lemma getlines_joined (v : bytes) (vs : list bytes) :
  Forall (fun line => line <> [] /\ (nl ∉ line)) (v :: vs) ->
  getlines (joined v vs) = v :: vs.
Proof.
  revert v. induction vs as [|w vs IH]; intros v Hlines.
  - apply Forall_inv in Hlines as [Hne Hnl]. by apply getlines_plain.
  - apply Forall_cons in Hlines as [[Hne Hnl] Hlines].
    rewrite joined_cons, getlines_app by done. by rewrite IH.
Qed.

Lemma concat_replicate_unlines (eol : bytes) (n : nat) (lines : list bytes) :
  concat (replicate n (unlines eol lines))
  = unlines eol (concat (replicate n lines)).
Proof.
  induction n as [|n IH]; [done|]. simpl. by rewrite unlines_app, IH.
Qed.

Lemma values_of_app (key : bytes) (lines1 lines2 : list bytes) :
  values_of key (lines1 ++ lines2)
  = values_of key lines1 ++ values_of key lines2.
Proof. apply omap_app. Qed.

Lemma values_of_replicate (key : bytes) (n : nat) (lines : list bytes) :
  values_of key (concat (replicate n lines))
  = concat (replicate n (values_of key lines)).
Proof.
  induction n as [|n IH]; [done|]. simpl. by rewrite values_of_app, IH.
Qed.

Lemma line_entry_no_eq (line : bytes) :
  "="%char ∉ line -> line_entry line = None.
Proof.
  intros Heq. unfold line_entry.
  destruct (break_at "=" line) as [name [value|]] eqn:Hb; [|done].
  apply break_at_inv in Hb as [_ ->]. set_solver.
Qed.

Lemma values_of_no_eq (key : bytes) (lines : list bytes) :
  Forall (fun line => "="%char ∉ line) lines -> values_of key lines = [].
Proof.
  induction 1 as [|line lines Hline _ IH]; [done|].
  by rewrite values_of_cons, line_entry_no_eq.
Qed.

(** X13.  A value of several lines does not survive [write].  For each line
    of the value, [write] emits the key with the whole value; read back, the
    lines after the first are lines without a [=], and the tag comes back as
    the first line repeated once per line of the value. *)
Theorem multi_line_value_round_trip (key v : bytes) (vs : list bytes) :
  plain_entry (key, v) ->
  Forall (fun line => line <> [] /\ (nl ∉ line) /\ ("="%char ∉ line)) vs ->
  write_tag [] (key, joined v vs)
  = concat (replicate (S (length vs))
                      (key ++ str "=" ++ joined v vs ++ [nl]))
  /\ parse_tags (write_tag [] (key, joined v vs))
     = {[ key := joined v (replicate (length vs) v) ]}.
Proof.
  intros Hentry Hvs.
  assert (Hlines : getlines (joined v vs) = v :: vs).
  { apply getlines_joined. constructor.
    - by destruct Hentry as (_ & _ & [_ Hnl] & Hne).
    - eapply Forall_impl; [done|]. by intros line (? & ? & _). }
  rewrite write_tag_repeat, Hlines. cbn [app length]. split; [done|].
  replace (key ++ str "=" ++ joined v vs ++ [nl])
    with (unlines [nl] ((key ++ "="%char :: v) :: vs)).
  2:{ rewrite <- joined_unlines.
      replace (key ++ "="%char :: v) with ((key ++ str "=") ++ v)
        by (by rewrite <- app_assoc).
      rewrite joined_prefix. by rewrite <- !app_assoc. }
  rewrite concat_replicate_unlines.
  apply map_eq. intros k. rewrite parse_tags_lookup.
  rewrite getlines_unlines_nl.
  2:{ apply Forall_concat, Forall_replicate. constructor.
      - destruct Hentry as ([_ Hk] & _ & [_ Hv] & _). cbn [fst snd] in *.
        intros [?|[?|?]%elem_of_cons]%elem_of_app; done.
      - eapply Forall_impl; [done|]. by intros line (_ & ? & _). }
  rewrite values_of_replicate, values_of_cons, line_entry_plain by done.
  rewrite values_of_no_eq
    by (eapply Forall_impl; [done|]; by intros line (_ & _ & ?)).
  case_bool_decide as Hk.
  - subst k. rewrite lookup_singleton_eq.
    replace (concat (replicate (S (length vs)) [v]))
      with (v :: replicate (length vs) v); [done|].
    generalize (length vs) as n. intros n. simpl. f_equal.
    induction n as [|n IH]; [done|]. simpl. by rewrite <- IH.
  - rewrite lookup_singleton_ne by done.
    replace (concat (replicate (S (length vs)) [])) with (@nil bytes); [done|].
    generalize (S (length vs)) as n. intros n.
    induction n as [|n IH]; [done|]. done.
Qed.

Lemma multi_line_value_round_trip_witness :
  write_tag [] (str "k", str "1" ++ [nl] ++ str "2")
  = str "k=1" ++ [nl] ++ str "2" ++ [nl] ++ str "k=1" ++ [nl] ++ str "2" ++ [nl]
  /\ parse_tags (write_tag [] (str "k", str "1" ++ [nl] ++ str "2"))
     = {[ str "k" := str "1" ++ [nl] ++ str "1" ]}.
Proof.
  apply (multi_line_value_round_trip (str "k") (str "1") [str "2"]);
    apply (bool_decide_unpack _); by vm_compute.
Defined.

(** ** The version byte *)

Lemma read_areas_version (psf_size v v' rs es c : Z) (body : bytes) :
  read_areas psf_size v rs es c body
  = match read_areas psf_size v' rs es c body with
    | inl e => inl e
    | inr psf => inr (set_version v psf)
    end.
Proof.
  unfold read_areas.
  destruct (_ >? _); [done|].
  destruct (istream_read rs body) as [reserved in6].
  destruct (negb _); [done|].
  destruct (istream_read es in6) as [exe in7].
  destruct (negb _); [done|].
  destruct (_ <=? _); [|done].
  destruct (istream_read _ in7) as [tag_marker in8].
  destruct (_ && _); [|done].
  destruct (istream_read _ in8) as [tag_string in9].
  by destruct (negb _).
Qed.

Lemma parse_reversion (c : ascii) (file : bytes) :
  parse (reversion c file)
  = match parse file with
    | inl e => inl e
    | inr psf => inr (set_version (byte_val c) psf)
    end.
Proof.
  destruct file as [|s0 [|s1 [|s2 [|v rest]]]]; try done.
  - unfold parse. cbn. by destruct (bytes_eqb _ _).
  - change (reversion c (s0 :: s1 :: s2 :: v :: rest))
      with (s0 :: s1 :: s2 :: c :: rest).
    unfold parse, istream_read.
    change (Z.to_nat kPSFSignatureSize) with 3%nat. cbn [take drop].
    change (len (s0 :: s1 :: s2 :: c :: rest))
      with (len (s0 :: s1 :: s2 :: v :: rest)).
    destruct (negb (len [s0; s1; s2] =? kPSFSignatureSize)); [done|].
    destruct (negb (bytes_eqb [s0; s1; s2] kPSFSignature)); [done|].
    rewrite !ReadStreamAsInt8_cons.
    destruct (ReadStreamAsInt32L rest) as [[rs in3]|]; [|done].
    destruct (ReadStreamAsInt32L in3) as [[es in4]|]; [|done].
    destruct (ReadStreamAsInt32L in4) as [[crc in5]|]; [|done].
    apply read_areas_version.
Qed.

Section Version.
Context (C : Collaborators) (c : ascii).

Lemma PSFFile_open_reversion (dir filename : bytes) :
  @PSFFile_open (with_files (reversion c) C) dir filename
  = match @PSFFile_open C dir filename with
    | inl e => inl e
    | inr psf => inr (set_version (byte_val c) psf)
    end.
Proof.
  unfold PSFFile_open. cbn [read_file with_files].
  destruct (@read_file C dir filename) as [file|]; [|done].
  cbn [fmap option_fmap option_map]. rewrite parse_reversion.
  by destruct (parse file).
Qed.

Lemma load_libs_ext
    (call1 call2 : bytes -> bool -> machine -> option (machine * outcome))
    (tags : gmap bytes bytes) (rounds : nat) (i : Z) (b : bool) (m : machine) :
  (forall lib b m, call1 lib b m = call2 lib b m) ->
  @load_libs call1 tags rounds i b m = @load_libs call2 tags rounds i b m.
Proof.
  intros Hcall. revert i b m. induction rounds as [|rounds IH]; intros i b m;
    [done|].
  cbn [load_libs]. destruct (tags !! lib_tag_name i) as [lib|]; [|done].
  rewrite Hcall. by destruct (call2 lib b m) as [[m' []]|].
Qed.

Lemma load_2sf_rec_reversion (fuel : nat) (filename : bytes) (l : Z)
    (b : bool) (m : machine) :
  @load_2sf_rec (with_files (reversion c) C) fuel filename l b m
  = @load_2sf_rec C fuel filename l b m.
Proof.
  revert filename l b m. induction fuel as [|fuel IH]; intros filename l b m;
    [done|].
  cbn [load_2sf_rec]. destruct (l >=? kPSFLibMaxNestLevel); [done|].
  rewrite PSFFile_open_reversion.
  destruct (@PSFFile_open C _ _) as [e|psf]; [done|].
  change (@crc32_ok (with_files (reversion c) C) (set_version (byte_val c) psf))
    with (@crc32_ok C psf).
  destruct (negb (crc32_ok psf)); [done|].
  cbn [set_version tags].
  rewrite (load_libs_ext _ (fun lib => @load_2sf_rec C fuel lib (l + 1)))
    by (intros; apply IH).
  by destruct (load_libs _ _ _ _ _ _) as [[[m1 b1] []]|].
Qed.

Lemma load_2sf_chdir_rec_reversion (fuel : nat) (filename : bytes) (l : Z)
    (b : bool) (m : machine) :
  @load_2sf_chdir_rec (with_files (reversion c) C) fuel filename l b m
  = @load_2sf_chdir_rec C fuel filename l b m.
Proof.
  revert filename l b m. induction fuel as [|fuel IH]; intros filename l b m;
    [done|].
  cbn [load_2sf_chdir_rec]. destruct (l >=? kPSFLibMaxNestLevel); [done|].
  change (@path_getabspath (with_files (reversion c) C))
    with (@path_getabspath C).
  destruct (path_getabspath _ _) as [absolute_path|]; [|done].
  rewrite PSFFile_open_reversion.
  destruct (@PSFFile_open C _ _) as [e|psf]; [done|].
  change (@crc32_ok (with_files (reversion c) C) (set_version (byte_val c) psf))
    with (@crc32_ok C psf).
  destruct (negb (crc32_ok psf)); [done|].
  cbn [set_version tags].
  change (@path_dirname (with_files (reversion c) C)) with (@path_dirname C).
  rewrite (load_libs_ext _
             (fun lib first_load =>
                in_directory (path_dirname absolute_path) (cwd m)
                  (@load_2sf_chdir_rec C fuel lib (l + 1) first_load))).
  - by destruct (load_libs _ _ _ _ _ _) as [[[m1 b1] []]|].
  - intros lib b' m'. unfold in_directory. by rewrite IH.
Qed.

End Version.

(** X14.  The version byte plays no part in a load.  [k2SFVersionByte] is
    never compared with it: replace the fourth byte of every file on the
    disk by any byte, and the load runs to the same machine and outcome, in
    both listings. *)
Theorem version_byte_is_ignored (C : Collaborators) (c : ascii)
    (dir filename : bytes) :
  @load (with_files (reversion c) C) dir filename = @load C dir filename
  /\ @load_chdir (with_files (reversion c) C) dir filename
     = @load_chdir C dir filename.
Proof.
  split; [apply load_2sf_rec_reversion | apply load_2sf_chdir_rec_reversion].
Qed.


(** ** Reference cycles *)

Section Cycles.
Context `{Collaborators}.

Lemma load_libs_first_fails
    (call : bytes -> bool -> machine -> option (machine * outcome))
    (tags : gmap bytes bytes) (lib : bytes) (b : bool) (m m' : machine)
    (e : error) :
  tags !! str "_lib" = Some lib -> call lib b m = Some (m', Thrown e) ->
  load_libs call tags (S (size tags)) 1 b m = Some (m', b, Thrown e).
Proof.
  intros Hlib Hcall. cbn [load_libs].
  change (lib_tag_name 1) with (str "_lib"). by rewrite Hlib, Hcall.
Qed.

Lemma lib_closed_depth (F : bytes -> bytes -> Prop) (n : nat) :
  lib_closed F ->
  forall fuel filename b m,
    F (cwd m) filename -> (n < fuel)%nat -> (n <= 10)%nat ->
    exists m',
      load_2sf_rec fuel filename (10 - Z.of_nat n) b m
      = Some (m', Thrown DepthExceededError).
Proof.
  intros Hclosed. induction n as [|n IH]; intros fuel filename b m Hin Hfuel Hn;
    (destruct fuel as [|fuel]; [lia|]); cbn [load_2sf_rec].
  - by exists m.
  - destruct (Z.geb_spec (10 - Z.of_nat (S n)) kPSFLibMaxNestLevel) as [Hl|_];
      [unfold kPSFLibMaxNestLevel in Hl; lia|].
    rewrite cwd_log.
    destruct (Hclosed _ _ Hin) as (psf & lib & -> & -> & Hlib & Hnext).
    cbn [negb].
    destruct (IH fuel lib b (log (Opened (10 - Z.of_nat (S n)) (cwd m) filename) m))
      as [m' Hrec]; [done|lia|lia|].
    replace (10 - Z.of_nat (S n) + 1) with (10 - Z.of_nat n) by lia.
    rewrite (load_libs_first_fails _ _ lib b _ m' DepthExceededError) by done.
    by exists m'.
Qed.

Lemma lib_closed_chdir_depth (F : bytes -> bytes -> Prop) (n : nat) :
  lib_closed_chdir F ->
  forall fuel filename b m,
    F (cwd m) filename -> (n < fuel)%nat -> (n <= 10)%nat ->
    exists m',
      load_2sf_chdir_rec fuel filename (10 - Z.of_nat n) b m
      = Some (m', Thrown DepthExceededError).
Proof.
  intros Hclosed. induction n as [|n IH]; intros fuel filename b m Hin Hfuel Hn;
    (destruct fuel as [|fuel]; [lia|]); cbn [load_2sf_chdir_rec].
  - by exists m.
  - destruct (Z.geb_spec (10 - Z.of_nat (S n)) kPSFLibMaxNestLevel) as [Hl|_];
      [unfold kPSFLibMaxNestLevel in Hl; lia|].
    destruct (Hclosed _ _ Hin) as (p & psf & lib & -> & Hopen & Hcrc & Hlib & Hnext).
    rewrite cwd_log, Hopen, Hcrc. cbn [negb].
    destruct (IH fuel lib b
                (chdir (path_dirname p)
                   (log (Opened (10 - Z.of_nat (S n)) (cwd m) filename) m)))
      as [m' Hrec]; [done|lia|lia|].
    replace (10 - Z.of_nat (S n) + 1) with (10 - Z.of_nat n) by lia.
    rewrite (load_libs_first_fails _ _ lib b _ (chdir (cwd m) m')
               DepthExceededError); [by eexists|done|].
    unfold in_directory. by rewrite Hrec.
Qed.

End Cycles.

(** X15.  A reference cycle ends the load with [DepthExceededError], in both
    listings: when the file belongs to a set of files closed under the first
    library reference, a file that names itself for instance, the nesting
    reaches level 10 and the load is refused there. *)
Theorem reference_cycle_is_refused `{Collaborators}
    (F : bytes -> bytes -> Prop) (dir filename : bytes) :
  F dir filename ->
  (lib_closed F ->
   result (load dir filename) = Some (Thrown DepthExceededError))
  /\ (lib_closed_chdir F ->
      result (load_chdir dir filename) = Some (Thrown DepthExceededError)).
Proof.
  intros Hin. split; intros Hclosed.
  - destruct (lib_closed_depth F 10 Hclosed 11 filename true (initial dir))
      as [m' Hrun]; [done|lia|lia|].
    unfold load, load_2sf. change (depth_fuel 0) with 11%nat.
    change 0 with (10 - Z.of_nat 10) at 1. by rewrite Hrun.
  - destruct (lib_closed_chdir_depth F 10 Hclosed 11 filename true (initial dir))
      as [m' Hrun]; [done|lia|lia|].
    unfold load_chdir, load_2sf_chdir. change (depth_fuel 0) with 11%nat.
    change 0 with (10 - Z.of_nat 10) at 1. by rewrite Hrun.
Qed.

Lemma reference_cycle_is_refused_witness :
  result (@load (disk self_files) (str "/d") (str "self.2sf"))
  = Some (Thrown DepthExceededError)
  /\ result (@load_chdir (disk self_files) (str "/d") (str "self.2sf"))
     = Some (Thrown DepthExceededError).
Proof.
  set (F := fun dir filename : bytes =>
              dir = str "/d" /\ filename = str "self.2sf").
  assert (Hopen : exists psf,
            @PSFFile_open (disk self_files) (str "/d") (str "self.2sf") = inr psf
            /\ @crc32_ok (disk self_files) psf = true
            /\ tags psf !! str "_lib" = Some (str "self.2sf")).
  { destruct (@PSFFile_open (disk self_files) (str "/d") (str "self.2sf"))
      as [e|psf] eqn:Hopen; [by vm_compute in Hopen|].
    exists psf. split; [done|].
    vm_compute in Hopen. injection Hopen as <-. split; by vm_compute. }
  destruct Hopen as (psf & Hopen & Hcrc & Hlib).
  assert (Hin : F (str "/d") (str "self.2sf")) by (split; reflexivity).
  destruct (@reference_cycle_is_refused (disk self_files) F (str "/d")
              (str "self.2sf") Hin) as [Hfirst Hsecond].
  split; [apply Hfirst|apply Hsecond].
  - intros dir filename [-> ->]. exists psf, (str "self.2sf").
    exact (conj Hopen (conj Hcrc (conj Hlib Hin))).
  - intros dir filename [-> ->].
    exists (str "/d/self.2sf"), psf, (str "self.2sf").
    refine (conj _ (conj Hopen (conj Hcrc (conj Hlib (conj _ eq_refl)))));
      by vm_compute.
Defined.


(** ** The program of the root *)

Section Root.
Context `{Collaborators}.

(** The last step of either listing, when it returns: the program it
    copied, read off the decompressed bytes [exe]. *)
Lemma program_copied (exe : bytes) (load_offset load_size : Z)
    (it body : bytes) :
  ReadInt32L exe = Some (load_offset, it) ->
  ReadInt32L it = Some (load_size, body) ->
  len (take (Z.to_nat load_size) body) = load_size ->
  exists rest,
    exe = le32 load_offset ++ le32 (len (take (Z.to_nat load_size) body))
          ++ take (Z.to_nat load_size) body ++ rest.
Proof.
  intros [_ ->]%ReadInt32L_inv [_ ->]%ReadInt32L_inv Hlen.
  exists (drop (Z.to_nat load_size) body). by rewrite Hlen, take_drop.
Qed.

Lemma copy_program_returned (psf : PSFFile) (b : bool) (m m' : machine) :
  copy_program psf b m = (m', Returned) ->
  exists load_offset data rest,
    inflate (compressed_exe psf)
    = Some (le32 load_offset ++ le32 (len data) ++ data ++ rest)
    /\ trace m' = trace m ++ [Copied load_offset data]
    /\ forall i : nat, (i < length data)%nat ->
         rom m' !! (Z.to_nat load_offset + i)%nat = data !! i.
Proof.
  unfold copy_program. intros Hrun.
  destruct (inflate _) as [exe|]; [|done].
  destruct (len exe <? 8); [done|].
  destruct (ReadInt32L exe) as [[load_offset it]|] eqn:Hlo; [|done].
  destruct (ReadInt32L it) as [[load_size exe_iter]|] eqn:Hls; [|done].
  pose proof (ReadInt32L_range _ _ _ Hlo) as [Hlo_range _].
  pose proof (ReadInt32L_range _ _ _ Hls) as [Hls_range _].
  destruct (ensure_rom _ _ _ _) as [e|m1] eqn:Hrom; [done|].
  apply ensure_rom_inr in Hrom as (_ & Htrace & _).
  destruct (_ <? wrap32 _); [done|].
  destruct (Z.ltb_spec (len exe_iter) load_size); [done|].
  destruct (blit _ _ _) as [r|] eqn:Hblit; [|done].
  injection Hrun as <-.
  destruct (program_copied exe load_offset load_size it exe_iter Hlo Hls)
    as [rest ->]; [apply len_take; lia|].
  eexists _, _, rest. split; [done|]. cbn [log set_rom trace rom].
  split; [by rewrite Htrace|]. intros i Hi.
  eapply blit_lookup_data; [|done..]. lia.
Qed.

Lemma read_program_returned (psf : PSFFile) (b : bool) (m m' : machine) :
  read_program psf b m = (m', Returned) ->
  exists load_offset data rest,
    zlib_reader (compressed_exe psf)
    = le32 load_offset ++ le32 (len data) ++ data ++ rest
    /\ trace m' = trace m ++ [Copied load_offset data]
    /\ forall i : nat, (i < length data)%nat ->
         rom m' !! (Z.to_nat load_offset + i)%nat = data !! i.
Proof.
  unfold read_program. intros Hrun.
  destruct (ReadInt32L (zlib_reader _)) as [[load_offset it]|] eqn:Hlo; [|done].
  destruct (ReadInt32L it) as [[load_size stream]|] eqn:Hls; [|done].
  pose proof (ReadInt32L_range _ _ _ Hlo) as [Hlo_range _].
  destruct (ensure_rom _ _ _ _) as [e|m1] eqn:Hrom; [done|].
  apply ensure_rom_inr in Hrom as (_ & Htrace & _).
  destruct (blit _ _ _) as [r|] eqn:Hblit; [|done].
  destruct (Z.eqb_spec (len (take (Z.to_nat load_size) stream)) load_size)
    as [Hlen|]; cbn [negb] in Hrun; [|done].
  injection Hrun as <-.
  destruct (program_copied _ load_offset load_size it stream Hlo Hls Hlen)
    as [rest ->].
  eexists _, _, rest. split; [done|]. cbn [log set_rom trace rom].
  split; [by rewrite Htrace|]. intros i Hi.
  eapply blit_lookup_data; [|done..]. lia.
Qed.

End Root.

(** X16.  The program of the root is the last one copied, whatever the
    libraries are: after a load that returns, the last step of the trace is
    the copy of the program that the root's payload decompresses to, and
    the rom holds its bytes at its offset. *)
Theorem root_program_is_copied_last `{Collaborators} (dir filename : bytes)
    (m' : machine) :
  (load dir filename = Some (m', Returned) ->
   exists psf load_offset data rest evs,
     PSFFile_open dir filename = inr psf
     /\ inflate (compressed_exe psf)
        = Some (le32 load_offset ++ le32 (len data) ++ data ++ rest)
     /\ trace m' = evs ++ [Copied load_offset data]
     /\ forall i : nat, (i < length data)%nat ->
          rom m' !! (Z.to_nat load_offset + i)%nat = data !! i)
  /\ (load_chdir dir filename = Some (m', Returned) ->
      exists psf load_offset data rest evs,
        PSFFile_open dir filename = inr psf
        /\ zlib_reader (compressed_exe psf)
           = le32 load_offset ++ le32 (len data) ++ data ++ rest
        /\ trace m' = evs ++ [Copied load_offset data]
        /\ forall i : nat, (i < length data)%nat ->
             rom m' !! (Z.to_nat load_offset + i)%nat = data !! i).
Proof.
  split; intros Hrun.
  - unfold load, load_2sf in Hrun. change (depth_fuel 0) with 11%nat in Hrun.
    cbn [load_2sf_rec] in Hrun.
    destruct (0 >=? kPSFLibMaxNestLevel); [done|].
    rewrite cwd_log in Hrun. cbn [initial cwd] in Hrun.
    destruct (PSFFile_open dir filename) as [e|psf]; [done|].
    destruct (negb (crc32_ok psf)); [done|].
    destruct (load_libs _ _ _ _ _ _) as [[[m1 b1] []]|]; try done.
    injection Hrun as Hrun.
    apply copy_program_returned in Hrun
      as (lo & data & rest & Hexe & Htrace & Hrom).
    by exists psf, lo, data, rest, (trace m1).
  - unfold load_chdir, load_2sf_chdir in Hrun.
    change (depth_fuel 0) with 11%nat in Hrun.
    cbn [load_2sf_chdir_rec] in Hrun.
    destruct (0 >=? kPSFLibMaxNestLevel); [done|].
    destruct (path_getabspath _ _) as [absolute_path|]; [|done].
    rewrite cwd_log in Hrun. cbn [initial cwd] in Hrun.
    destruct (PSFFile_open dir filename) as [e|psf]; [done|].
    destruct (negb (crc32_ok psf)); [done|].
    destruct (load_libs _ _ _ _ _ _) as [[[m1 b1] []]|]; try done.
    injection Hrun as Hrun.
    apply read_program_returned in Hrun
      as (lo & data & rest & Hexe & Htrace & Hrom).
    by exists psf, lo, data, rest, (trace m1).
Qed.

Lemma root_program_is_copied_last_witness :
  exists m',
    @load (disk two_files) (str "/d") (str "root.2sf") = Some (m', Returned)
    /\ exists psf load_offset data rest evs,
         @PSFFile_open (disk two_files) (str "/d") (str "root.2sf") = inr psf
         /\ @inflate (disk two_files) (compressed_exe psf)
            = Some (le32 load_offset ++ le32 (len data) ++ data ++ rest)
         /\ trace m' = evs ++ [Copied load_offset data]
         /\ forall i : nat, (i < length data)%nat ->
              rom m' !! (Z.to_nat load_offset + i)%nat = data !! i.
Proof.
  destruct (@load (disk two_files) (str "/d") (str "root.2sf"))
    as [[m' o]|] eqn:Hrun; [|by vm_compute in Hrun].
  assert (o = Returned) as ->.
  { apply (f_equal result) in Hrun. vm_compute in Hrun. congruence. }
  exists m'. split; [reflexivity|].
  exact (proj1 (@root_program_is_copied_last (disk two_files) (str "/d")
                  (str "root.2sf") m') Hrun).
Defined.

(** ** The size of the image *)

Section Bound.
Context `{Collaborators}.

Lemma placed_within_limit (b : bool) (m m' : machine) :
  placed b m m' -> within_limit b m -> len (rom m') <= kNDSRomMaxSize.
Proof.
  intros (lo & data & m1 & r & Hrom & Hblit & -> & Hlo & _) Hlimit.
  apply ensure_rom_inr in Hrom as (_ & _ & Hmax & Hr & _).
  apply blit_length in Hblit; [|lia]. cbn [log set_rom rom].
  unfold len. rewrite Hblit. fold (len (rom m1)). rewrite Hr.
  destruct b; [|by apply Hlimit].
  rewrite len_resize; [done|]. apply Z.mod_pos_bound. lia.
Qed.

Lemma load_2sf_rec_within_limit (fuel : nat) (filename : bytes) (l : Z)
    (b : bool) (m m' : machine) :
  load_2sf_rec fuel filename l b m = Some (m', Returned) ->
  within_limit b m -> len (rom m') <= kNDSRomMaxSize.
Proof.
  revert filename l b m m'.
  induction fuel as [|fuel IH]; intros filename l b m m' Hrun Hlimit; [done|].
  cbn [load_2sf_rec] in Hrun.
  destruct (l >=? kPSFLibMaxNestLevel); [done|].
  destruct (PSFFile_open _ _) as [e|psf]; [done|].
  destruct (negb (crc32_ok psf)); [done|].
  destruct (load_libs _ _ _ _ _ _) as [[[m1 b1] o1]|] eqn:Hlibs; [|done].
  eapply (load_libs_rule _ _ within_limit (fun _ _ => True)) in Hlibs;
    [| |exact Hlimit].
  2:{ intros lib b2 m2 m3 o Hinv Hcall. destruct o; [|done..].
      intros _. by eapply IH. }
  destruct o1; [|by simplify_eq..].
  injection Hrun as Hrun.
  apply copy_program_cases in Hrun as [[_ Hplaced]|[Hfail _]]; [|done].
  by eapply placed_within_limit.
Qed.

Lemma load_2sf_chdir_rec_within_limit (fuel : nat) (filename : bytes) (l : Z)
    (b : bool) (m m' : machine) :
  load_2sf_chdir_rec fuel filename l b m = Some (m', Returned) ->
  within_limit b m -> len (rom m') <= kNDSRomMaxSize.
Proof.
  revert filename l b m m'.
  induction fuel as [|fuel IH]; intros filename l b m m' Hrun Hlimit; [done|].
  cbn [load_2sf_chdir_rec] in Hrun.
  destruct (l >=? kPSFLibMaxNestLevel); [done|].
  destruct (path_getabspath _ _) as [absolute_path|]; [|done].
  destruct (PSFFile_open _ _) as [e|psf]; [done|].
  destruct (negb (crc32_ok psf)); [done|].
  destruct (load_libs _ _ _ _ _ _) as [[[m1 b1] o1]|] eqn:Hlibs; [|done].
  eapply (load_libs_rule _ _ within_limit (fun _ _ => True)) in Hlibs;
    [| |exact Hlimit].
  2:{ intros lib b2 m2 m3 o Hinv Hcall. destruct o; [|done..].
      apply in_directory_returned in Hcall as (m4 & Hcall & ->).
      intros _. by eapply (IH _ _ _ _ _ Hcall). }
  destruct o1; [|by simplify_eq..].
  injection Hrun as Hrun.
  apply read_program_cases in Hrun as [[_ Hplaced]|[Hfail _]]; [|done].
  by eapply placed_within_limit.
Qed.

End Bound.

(** X17.  The image of a load that returns is never larger than 128 MiB, in
    either listing. *)
Theorem image_within_limit `{Collaborators} (dir filename image_ : bytes) :
  image (load dir filename) = Some image_
  \/ image (load_chdir dir filename) = Some image_ ->
  len image_ <= 128 * 1024 * 1024.
Proof.
  unfold image, load, load_chdir, load_2sf, load_2sf_chdir.
  intros [Hrun|Hrun].
  - destruct (load_2sf_rec _ _ _ _ _) as [[m' []]|] eqn:Hrec; try done.
    injection Hrun as <-. by eapply load_2sf_rec_within_limit.
  - destruct (load_2sf_chdir_rec _ _ _ _ _) as [[m' []]|] eqn:Hrec; try done.
    injection Hrun as <-. by eapply load_2sf_chdir_rec_within_limit.
Qed.

Lemma image_within_limit_witness :
  len (byte_of <$> [0; 1; 2; 3; 202; 254]) <= 128 * 1024 * 1024.
Proof.
  apply (@image_within_limit (disk two_files) (str "/d") (str "root.2sf")).
  left. by vm_compute.
Defined.


(** ** The files a load opens *)

Lemma opened_at_app (l : Z) (evs1 evs2 : list event) :
  opened_at l (evs1 ++ evs2) = opened_at l evs1 ++ opened_at l evs2.
Proof. apply omap_app. Qed.

Lemma opened_from_deeper (dirs : bytes -> Prop) (l : Z) (evs : list event) :
  Forall (opened_from dirs (l + 1)) evs ->
  Forall (opened_from dirs l) evs /\ opened_at l evs = [].
Proof.
  induction 1 as [|e evs He _ [IH1 IH2]]; [done|]. split.
  - constructor; [|done]. destruct e as [l' d g|]; [|done].
    destruct He as [Hd Hl]. split; [done|lia].
  - destruct e as [l' d g|]; [|done]. destruct He as [_ Hl].
    cbn [opened_at omap list_omap]. rewrite bool_decide_false by lia.
    exact IH2.
Qed.

(** The library loop of a call at nest level [l]: when every nested call
    keeps [J], takes steps within [E] and, returning, opens just its file at
    level [l + 1], the loop has opened at that level the files the tags name
    from index [i] on. *)
Lemma load_libs_opened
    (call : bytes -> bool -> machine -> option (machine * outcome))
    (tags : gmap bytes bytes) (l : Z) (J : machine -> Prop)
    (E : event -> Prop) :
  (forall lib b m m' o,
      J m -> call lib b m = Some (m', o) ->
      J m'
      /\ exists evs, trace m' = trace m ++ evs /\ Forall E evs
                     /\ (o = Returned -> opened_at (l + 1) evs = [lib])) ->
  forall rounds i b m m' b' o,
    J m -> load_libs call tags rounds i b m = Some (m', b', o) ->
    J m'
    /\ exists evs, trace m' = trace m ++ evs /\ Forall E evs
                   /\ (o = Returned ->
                       opened_at (l + 1) evs = lib_refs tags rounds i).
Proof.
  intros Hcall. induction rounds as [|rounds IH]; intros i b m m' b' o HJ Hrun;
    [done|].
  cbn [load_libs lib_refs] in *.
  destruct (tags !! lib_tag_name i) as [lib|].
  2:{ injection Hrun as <- <- <-. split; [done|]. exists [].
      by rewrite app_nil_r. }
  destruct (call lib b m) as [[m1 o1]|] eqn:Hc; [|done].
  destruct (Hcall lib b m m1 o1 HJ Hc) as (HJ1 & evs1 & Ht1 & HE1 & Hret1).
  destruct o1.
  - destruct (IH _ _ _ _ _ _ HJ1 Hrun) as (HJ' & evs2 & Ht2 & HE2 & Hret2).
    split; [done|]. exists (evs1 ++ evs2).
    split; [by rewrite Ht2, Ht1, app_assoc|].
    split; [by apply Forall_app|]. intros Ho.
    by rewrite opened_at_app, Hret1, Hret2.
  - injection Hrun as <- <- <-. split; [done|]. by exists evs1.
  - injection Hrun as <- <- <-. split; [done|]. by exists evs1.
Qed.

(** The steps of a call at level [l] put together: its own file, the steps
    of the library loop, the last step. *)
Lemma opened_own_file (dirs : bytes -> Prop) (l : Z) (dir filename : bytes)
    (evs1 evs2 : list event) :
  dirs dir -> l < kPSFLibMaxNestLevel ->
  Forall (opened_from dirs (l + 1)) evs1 ->
  Forall (fun e => exists lo data, e = Copied lo data) evs2 ->
  Forall (opened_from dirs l) (Opened l dir filename :: evs1 ++ evs2)
  /\ opened_at l (Opened l dir filename :: evs1 ++ evs2) = [filename]
  /\ opened_at (l + 1) (Opened l dir filename :: evs1 ++ evs2)
     = opened_at (l + 1) evs1.
Proof.
  intros Hdir Hl [Hevs1 Hnone]%opened_from_deeper Hevs2.
  assert (Hcopies : Forall (opened_from dirs l) evs2
                    /\ forall l', opened_at l' evs2 = []).
  { induction Hevs2 as [|e evs2 (lo & data & ->) _ [IH1 IH2]]; [done|].
    split; [by constructor|]. intros l'. apply IH2. }
  destruct Hcopies as [Hevs2' Hnone2]. split; [|split].
  - constructor; [split; [done|lia]|]. by apply Forall_app.
  - cbn [opened_at omap list_omap]. fold (opened_at l (evs1 ++ evs2)).
    rewrite bool_decide_true by done.
    by rewrite opened_at_app, Hnone, Hnone2.
  - cbn [opened_at omap list_omap]. fold (opened_at (l + 1) (evs1 ++ evs2)).
    rewrite bool_decide_false by lia.
    by rewrite opened_at_app, Hnone2, app_nil_r.
Qed.

Section Opened.
Context `{Collaborators}.

(** The last step of a call adds at most a copy to the trace. *)
Lemma last_step_copies (b : bool) (m m' : machine) (o : outcome) :
  (o = Returned /\ placed b m m')
  \/ (step_failure o /\ trace m' = trace m /\ cwd m' = cwd m) ->
  cwd m' = cwd m
  /\ exists evs, trace m' = trace m ++ evs
                 /\ Forall (fun e => exists lo data, e = Copied lo data) evs.
Proof.
  intros [[_ (lo & data & m1 & r & Hrom & _ & -> & _)]|(_ & Htrace & Hcwd)].
  - apply ensure_rom_inr in Hrom as (Hcwd & Htrace & _). split; [done|].
    exists [Copied lo data]. cbn [log set_rom trace]. rewrite Htrace.
    split; [done|]. constructor; [by eexists _, _|done].
  - split; [done|]. exists []. by rewrite app_nil_r.
Qed.

(** The steps of a call of the first listing. *)
Lemma load_2sf_rec_opened (fuel : nat) (filename : bytes) (l : Z) (b : bool)
    (m m' : machine) (o : outcome) :
  load_2sf_rec fuel filename l b m = Some (m', o) ->
  cwd m' = cwd m
  /\ exists evs,
       trace m' = trace m ++ evs
       /\ Forall (opened_from (fun dir => dir = cwd m) l) evs
       /\ (o = Returned ->
           exists psf,
             PSFFile_open (cwd m) filename = inr psf
             /\ opened_at l evs = [filename]
             /\ opened_at (l + 1) evs
                = lib_refs (tags psf) (S (size (tags psf))) 1).
Proof.
  revert filename l b m m' o.
  induction fuel as [|fuel IH]; intros filename l b m m' o Hrun; [done|].
  cbn [load_2sf_rec] in Hrun.
  destruct (Z.geb_spec l kPSFLibMaxNestLevel) as [|Hl].
  { injection Hrun as <- <-. split; [done|]. exists [].
    by rewrite app_nil_r. }
  rewrite cwd_log in Hrun.
  destruct (opened_own_file (fun dir => dir = cwd m) l (cwd m) filename [] [])
    as (Hown & _); [done..|].
  destruct (PSFFile_open _ _) as [e|psf] eqn:Hopen.
  { injection Hrun as <- <-. split; [done|]. by eexists. }
  destruct (negb (crc32_ok psf)).
  { injection Hrun as <- <-. split; [done|]. by eexists. }
  destruct (load_libs _ _ _ _ _ _) as [[[m1 b1] o1]|] eqn:Hlibs; [|done].
  eapply (load_libs_opened _ _ l (fun m1 => cwd m1 = cwd m)
            (opened_from (fun dir => dir = cwd m) (l + 1))) in Hlibs;
    [| |done].
  2:{ intros lib b2 m2 m3 o2 Hcwd Hcall.
      apply IH in Hcall as (Hcwd3 & evs & Htrace & Hevs & Hret).
      rewrite Hcwd in *. split; [done|]. exists evs. split; [done|].
      split; [done|]. intros Ho. by destruct (Hret Ho) as (_ & _ & ? & _). }
  destruct Hlibs as (Hcwd1 & evs1 & Htrace1 & Hevs1 & Hret1).
  cbn [log trace] in Htrace1.
  assert (Hlast : exists evs2,
            cwd m' = cwd m1 /\ trace m' = trace m1 ++ evs2
            /\ Forall (fun e => exists lo data, e = Copied lo data) evs2
            /\ (o = Returned -> o1 = Returned)).
  { destruct o1.
    - injection Hrun as Hrun. apply copy_program_cases in Hrun.
      apply last_step_copies in Hrun as (Hcwd & evs2 & Htrace & Hevs2).
      by exists evs2.
    - injection Hrun as <- <-. exists []. by rewrite app_nil_r.
    - injection Hrun as <- <-. exists []. by rewrite app_nil_r. }
  destruct Hlast as (evs2 & Hcwd' & Htrace' & Hevs2 & Ho).
  destruct (opened_own_file (fun dir => dir = cwd m) l (cwd m) filename
              evs1 evs2) as (Hall & Hat & Hnext); [done..|].
  split; [congruence|].
  exists (Opened l (cwd m) filename :: evs1 ++ evs2).
  split; [by rewrite Htrace', Htrace1, <- !app_assoc|]. split; [done|].
  intros ->. exists psf. split; [done|]. split; [done|].
  rewrite Hnext. by apply Hret1, Ho.
Qed.

(** The steps of a call of the second listing. *)
Lemma load_2sf_chdir_rec_opened (fuel : nat) (filename : bytes) (l : Z)
    (b : bool) (m m' : machine) (o : outcome) :
  load_2sf_chdir_rec fuel filename l b m = Some (m', o) ->
  exists evs,
    trace m' = trace m ++ evs
    /\ Forall (opened_from (fun _ => True) l) evs
    /\ (o = Returned ->
        exists psf,
          PSFFile_open (cwd m) filename = inr psf
          /\ opened_at l evs = [filename]
          /\ opened_at (l + 1) evs
             = lib_refs (tags psf) (S (size (tags psf))) 1).
Proof.
  revert filename l b m m' o.
  induction fuel as [|fuel IH]; intros filename l b m m' o Hrun; [done|].
  cbn [load_2sf_chdir_rec] in Hrun.
  destruct (Z.geb_spec l kPSFLibMaxNestLevel) as [|Hl].
  { injection Hrun as <- <-. exists []. by rewrite app_nil_r. }
  destruct (path_getabspath _ _) as [absolute_path|].
  2:{ injection Hrun as <- <-. exists []. by rewrite app_nil_r. }
  rewrite cwd_log in Hrun.
  destruct (opened_own_file (fun _ => True) l (cwd m) filename [] [])
    as (Hown & _); [done..|].
  destruct (PSFFile_open _ _) as [e|psf] eqn:Hopen.
  { injection Hrun as <- <-. by eexists. }
  destruct (negb (crc32_ok psf)).
  { injection Hrun as <- <-. by eexists. }
  destruct (load_libs _ _ _ _ _ _) as [[[m1 b1] o1]|] eqn:Hlibs; [|done].
  eapply (load_libs_opened _ _ l (fun _ => True)
            (opened_from (fun _ => True) (l + 1))) in Hlibs; [| |done].
  2:{ intros lib b2 m2 m3 o2 _ Hcall. split; [done|].
      unfold in_directory in Hcall.
      destruct (load_2sf_chdir_rec _ _ _ _ _) as [[m4 o4]|] eqn:Hrec; [|done].
      apply IH in Hrec as (evs & Htrace & Hevs & Hret).
      exists evs. cbn [chdir trace] in Htrace.
      destruct o4; injection Hcall as <- <-;
        (split; [done|]; split; [done|]); intros Ho; try done.
      by destruct (Hret Ho) as (_ & _ & ? & _). }
  destruct Hlibs as (_ & evs1 & Htrace1 & Hevs1 & Hret1).
  cbn [log trace] in Htrace1.
  assert (Hlast : exists evs2,
            trace m' = trace m1 ++ evs2
            /\ Forall (fun e => exists lo data, e = Copied lo data) evs2
            /\ (o = Returned -> o1 = Returned)).
  { destruct o1.
    - injection Hrun as Hrun. apply read_program_cases in Hrun.
      apply last_step_copies in Hrun as (Hcwd & evs2 & Htrace & Hevs2).
      by exists evs2.
    - injection Hrun as <- <-. exists []. by rewrite app_nil_r.
    - injection Hrun as <- <-. exists []. by rewrite app_nil_r. }
  destruct Hlast as (evs2 & Htrace' & Hevs2 & Ho).
  destruct (opened_own_file (fun _ => True) l (cwd m) filename
              evs1 evs2) as (Hall & Hat & Hnext); [done..|].
  exists (Opened l (cwd m) filename :: evs1 ++ evs2).
  split; [by rewrite Htrace', Htrace1, <- !app_assoc|]. split; [done|].
  intros ->. exists psf. split; [done|]. split; [done|].
  rewrite Hnext. by apply Hret1, Ho.
Qed.

End Opened.

(** X18.  The first listing never leaves the directory it starts in: it
    ends there, and every file, at whatever nest level, is opened from
    there, not from the directory of the file that refers to it.  No file
    is opened at nest level 10 or deeper. *)
Theorem first_listing_stays_in_directory `{Collaborators}
    (dir filename : bytes) :
  exists m' o,
    load dir filename = Some (m', o)
    /\ cwd m' = dir
    /\ forall l d g, Opened l d g ∈ trace m' -> d = dir /\ 0 <= l < 10.
Proof.
  destruct (proj1 (load_2sf_total filename 0 true (initial dir)))
    as [[m' o] Hrun].
  exists m', o. split; [done|].
  apply load_2sf_rec_opened in Hrun as (Hcwd & evs & Htrace & Hevs & _).
  split; [done|]. cbn [initial trace app] in Htrace. rewrite Htrace.
  intros l d g Hin. rewrite Forall_forall in Hevs.
  by apply Hevs in Hin.
Qed.

(** X19.  The libraries of the root are opened in the order of their tags.
    After a load that returns, in either listing, the only file opened at
    nest level 0 is the root, and the files opened at nest level 1 are the
    values of [_lib], [_lib2], [_lib3], ... of the root in this order, up
    to the first index without a tag; a tag behind a gap is not used. *)
Theorem libraries_are_opened_in_tag_order `{Collaborators}
    (dir filename : bytes) (m' : machine) :
  load dir filename = Some (m', Returned)
  \/ load_chdir dir filename = Some (m', Returned) ->
  exists psf,
    PSFFile_open dir filename = inr psf
    /\ opened_at 0 (trace m') = [filename]
    /\ opened_at 1 (trace m') = lib_refs (tags psf) (S (size (tags psf))) 1.
Proof.
  intros Hrun.
  assert (Hevs : exists evs,
            trace m' = evs
            /\ exists psf,
                 PSFFile_open dir filename = inr psf
                 /\ opened_at 0 evs = [filename]
                 /\ opened_at (0 + 1) evs
                    = lib_refs (tags psf) (S (size (tags psf))) 1).
  { destruct Hrun as [Hrun|Hrun].
    - apply load_2sf_rec_opened in Hrun as (_ & evs & Htrace & _ & Hret).
      exists evs. split; [done|]. by apply Hret.
    - apply load_2sf_chdir_rec_opened in Hrun as (evs & Htrace & _ & Hret).
      exists evs. split; [done|]. by apply Hret. }
  destruct Hevs as (evs & -> & psf & Hopen & Hat & Hlibs).
  by exists psf.
Qed.

Lemma libraries_are_opened_in_tag_order_witness :
  exists m',
    @load (disk three_libs) (str "/d") (str "root.2sf") = Some (m', Returned)
    /\ rom m' = byte_of <$> [9; 2; 3; 4]
    /\ opened_at 1 (trace m')
       = [str "a.2sflib"; str "b.2sflib"; str "c.2sflib"]
    /\ opened_at 2 (trace m') = [str "d.2sflib"]
    /\ exists psf,
         @PSFFile_open (disk three_libs) (str "/d") (str "root.2sf") = inr psf
         /\ opened_at 0 (trace m') = [str "root.2sf"]
         /\ opened_at 1 (trace m')
            = lib_refs (tags psf) (S (size (tags psf))) 1.
Proof.
  destruct (@load (disk three_libs) (str "/d") (str "root.2sf"))
    as [[m' o]|] eqn:Hrun; [|by vm_compute in Hrun].
  assert (o = Returned) as ->.
  { apply (f_equal result) in Hrun. vm_compute in Hrun. congruence. }
  pose proof (@libraries_are_opened_in_tag_order (disk three_libs) (str "/d")
                (str "root.2sf") m' (or_introl Hrun)) as Hthm.
  exists m'. split; [reflexivity|].
  vm_compute in Hrun. injection Hrun as <-.
  split; [by vm_compute|]. split; [by vm_compute|]. split; [by vm_compute|].
  exact Hthm.
Defined.


(** ** The command line *)

(** The option loop ends, at an argument that is no option or at the end of
    the arguments. *)
Lemma parse_options_ends (argv : list bytes) (rounds argi : nat)
    (output_filename : bytes) :
  (length argv <= argi + rounds)%nat -> (argi <= length argv)%nat ->
  exists r,
    parse_options rounds argv argi output_filename = Some r
    /\ match r with
       | inl c =>
           match c with
           | ShowUsage | Invalid (TooFewArguments _)
           | Invalid (UnknownOption _) => True
           | _ => False
           end
       | inr (argi', _) =>
           (argi <= argi' <= length argv)%nat
           /\ ((argi' < length argv)%nat ->
               is_option (arg_at argv argi') = false)
       end.
Proof.
  revert argi output_filename.
  induction rounds as [|rounds IH]; intros argi output_filename Hrounds Hargi.
  - cbn [parse_options]. destruct (Nat.ltb_spec argi (length argv)); [lia|].
    cbn [andb negb]. eexists. split; [done|]. split; [lia|]. lia.
  - cbn [parse_options].
    destruct (Nat.ltb_spec argi (length argv)) as [Hlt|Hge]; cbn [andb].
    2:{ cbn [negb]. eexists. split; [done|]. split; [lia|]. lia. }
    destruct (is_option (arg_at argv argi)) eqn:Hopt; cbn [negb].
    2:{ eexists. split; [done|]. split; [lia|]. done. }
    case_bool_decide; [by eexists|].
    case_bool_decide; [|by eexists].
    destruct (Nat.leb_spec (length argv) (argi + 1)); [by eexists|].
    destruct (IH (argi + 1 + 1)%nat (arg_at argv (argi + 1)))
      as (r & -> & Hr); [lia|lia|].
    exists r. split; [done|]. destruct r as [c|[argi' out]]; [done|].
    split; [lia|]. apply Hr.
Qed.

Lemma arg_at_app (pre : list bytes) (arg : bytes) (rest : list bytes) :
  arg_at (pre ++ arg :: rest) (length pre) = arg.
Proof. unfold arg_at. by rewrite list_lookup_middle. Qed.

Lemma length_with_outputs (outs : list bytes) :
  length (with_outputs outs) = (2 * length outs)%nat.
Proof.
  induction outs as [|out outs IH]; [done|].
  unfold with_outputs in *. cbn [fmap list_fmap concat app length].
  rewrite IH. lia.
Qed.

(** The rounds of the option loop on arguments [-o out]: the last [out] is
    the output name. *)
Lemma parse_options_outputs (outs pre rest : list bytes) (out0 : bytes)
    (rounds : nat) :
  parse_options (length outs + rounds) (pre ++ with_outputs outs ++ rest)
                (length pre) out0
  = parse_options rounds (pre ++ with_outputs outs ++ rest)
                  (length pre + 2 * length outs) (default out0 (last outs)).
Proof.
  revert pre out0. induction outs as [|out outs IH]; intros pre out0.
  - cbn [length last default Nat.add Nat.mul]. by rewrite Nat.add_0_r.
  - change (with_outputs (out :: outs))
      with (str "-o" :: out :: with_outputs outs).
    cbn [length Nat.add parse_options]. rewrite <- !app_comm_cons.
    rewrite arg_at_app. rewrite !length_app. cbn [length].
    destruct (Nat.ltb_spec (length pre)
                (length pre + S (S (length (with_outputs outs ++ rest)))));
      [|lia].
    change (is_option (str "-o")) with true. cbn [andb negb].
    rewrite bool_decide_false by done. rewrite bool_decide_true by done.
    destruct (Nat.leb_spec
                (length pre + S (S (length (with_outputs outs ++ rest))))
                (length pre + 1)); [lia|].
    replace (pre ++ str "-o" :: out :: with_outputs outs ++ rest)
      with ((pre ++ [str "-o"; out]) ++ with_outputs outs ++ rest)
      by (by rewrite <- !app_assoc).
    replace (length pre + 1 + 1)%nat with (length (pre ++ [str "-o"; out]))
      by (rewrite length_app; simpl; lia).
    replace (arg_at ((pre ++ [str "-o"; out]) ++ with_outputs outs ++ rest)
               (length pre + 1))
      with out.
    2:{ rewrite <- !app_assoc. cbn [app].
        replace (length pre + 1)%nat with (length (pre ++ [str "-o"]))
          by (rewrite length_app; simpl; lia).
        replace (pre ++ str "-o" :: out :: with_outputs outs ++ rest)
          with ((pre ++ [str "-o"]) ++ out :: with_outputs outs ++ rest)
          by (by rewrite <- app_assoc).
        by rewrite arg_at_app. }
    rewrite IH. f_equal.
    + rewrite length_app. simpl. lia.
    + destruct outs as [|o outs']; [done|].
      change (last (out :: o :: outs')) with (last (o :: outs')).
      destruct (last (o :: outs')) eqn:Hlast; [done|].
      by apply last_None in Hlast.
Qed.

Section CommandLine.
Context `{Shell}.

(** X20.  [main] reads every command line to a command, and the command is
    never "Too many arguments.": the test [argi + 1 > argc] cannot hold
    after the option loop.  A file to convert is an argument that does not
    begin with [-]. *)
Theorem too_many_arguments_never_raised (argv : list bytes) :
  exists c,
    command_line argv = Some c
    /\ c <> Invalid TooManyArguments
    /\ forall filename output_filename,
         c = Convert filename output_filename ->
         filename ∈ argv /\ is_option filename = false.
Proof.
  unfold command_line.
  destruct (Nat.leb_spec (length argv) 1);
    [eexists; split; [reflexivity|done]|].
  destruct (parse_options_ends argv (length argv) 1 []) as (r & -> & Hr);
    [lia|lia|].
  destruct r as [c|[argi out]].
  { exists c. split; [done|]. by destruct c as [|[]|]. }
  destruct Hr as [Hargi Hopt].
  destruct (Nat.eqb_spec argi (length argv));
    [eexists; split; [reflexivity|done]|].
  destruct (Nat.ltb_spec (length argv) (argi + 1)); [lia|].
  eexists. split; [reflexivity|]. split; [done|].
  intros f o [= <- _]. split; [|apply Hopt; lia].
  unfold arg_at. destruct (argv !! argi) as [arg|] eqn:Harg.
  - by eapply list_elem_of_lookup_2.
  - apply lookup_ge_None in Harg. lia.
Qed.

(** The command line after its [-o] arguments: the option loop goes on at
    what follows them. *)
Lemma command_line_outputs (cmd : bytes) (outs rest : list bytes) :
  outs <> [] \/ rest <> [] ->
  command_line (cmd :: with_outputs outs ++ rest)
  = let argv := (cmd :: with_outputs outs) ++ rest in
    match parse_options (S (length outs + length rest)) argv
                        (length (cmd :: with_outputs outs))
                        (default [] (last outs)) with
    | None => None
    | Some (inl c) => Some c
    | Some (inr (argi, output_filename)) =>
        if (argi =? length argv)%nat then Some (Invalid NoInputFiles)
        else if (length argv <? argi + 1)%nat
        then Some (Invalid TooManyArguments)
        else
          Some (Convert (arg_at argv argi)
                  (if bool_decide (output_filename = [])
                   then default_output (arg_at argv argi)
                   else output_filename))
    end.
Proof.
  intros Hargs. unfold command_line. cbn zeta.
  change (cmd :: with_outputs outs ++ rest)
    with ([cmd] ++ with_outputs outs ++ rest).
  assert (Hlen : length ([cmd] ++ with_outputs outs ++ rest)
                 = (length outs + S (length outs + length rest))%nat).
  { rewrite !length_app, length_with_outputs. simpl. lia. }
  destruct (Nat.leb_spec (length ([cmd] ++ with_outputs outs ++ rest)) 1)
    as [Hle|_].
  { rewrite Hlen in Hle. exfalso.
    destruct Hargs as [Hne|Hne]; [destruct outs|destruct rest]; try done;
      simpl in Hle; lia. }
  rewrite Hlen at 1.
  change 1%nat with (length [cmd]) at 1.
  rewrite parse_options_outputs.
  replace (length [cmd] + 2 * length outs)%nat
    with (length (cmd :: with_outputs outs))
    by (cbn [length]; rewrite length_with_outputs; lia).
  done.
Qed.


End CommandLine.


(** ** [main] *)

Section MainRuns.
Context `{Shell} `{Collaborators}.

Lemma load_returned_cwd (dir filename : bytes) (m : machine) :
  load dir filename = Some (m, Returned)
  \/ load_chdir dir filename = Some (m, Returned) ->
  cwd m = dir.
Proof.
  intros [Hrun|Hrun].
  - by apply load_2sf_rec_opened in Hrun as [Hcwd _].
  - apply load_2sf_chdir_rec_directory in Hrun as [Hcwd _]. by apply Hcwd.
Qed.

Lemma main_with_written
    (loader : bytes -> bytes -> option (machine * outcome))
    (dir : bytes) (argv : list bytes) (d out img : bytes) :
  (forall filename m, loader dir filename = Some (m, Returned) -> cwd m = dir) ->
  main_with loader dir argv = Some (ImageWritten d out img)
  <-> d = dir
      /\ exists filename,
           command_line argv = Some (Convert filename out)
           /\ image (loader dir filename) = Some img
           /\ writable dir out = true.
Proof.
  intros Hcwd. unfold main_with, image.
  destruct (command_line argv) as [[|e|filename out']|].
  - split; [by destruct argv|]. by intros (_ & f & [=] & _).
  - split; [done|]. by intros (_ & f & [=] & _).
  - destruct (loader dir filename) as [[m o]|] eqn:Hrun.
    2:{ split; [done|]. intros (_ & f & [= <- <-] & Himg & _).
        by rewrite Hrun in Himg. }
    destruct o.
    + rewrite (Hcwd _ _ Hrun).
      destruct (writable dir out') eqn:Hw; split.
      * intros [= <- <- <-]. split; [done|]. exists filename.
        by rewrite Hrun.
      * intros (-> & f & [= <- <-] & Himg & _). rewrite Hrun in Himg.
        by injection Himg as <-.
      * done.
      * intros (_ & f & [= <- <-] & _ & Hw'). congruence.
    + split; [done|]. intros (_ & f & [= <- <-] & Himg & _).
      by rewrite Hrun in Himg.
    + split; [done|]. intros (_ & f & [= <- <-] & Himg & _).
      by rewrite Hrun in Himg.
  - split; [done|]. by intros (_ & f & [=] & _).
Qed.

End MainRuns.



(** ** One file, and a root that outgrows its library *)

Section Placing.
Context `{Collaborators}.

Lemma take_len_app (data rest : bytes) :
  take (Z.to_nat (len data)) (data ++ rest) = data.
Proof. unfold len. by rewrite Nat2Z.id, take_app_length. Qed.

(** The last step of the first listing on a program that fits; bytes behind
    the declared size are left alone. *)
Lemma copy_program_places (psf : PSFFile) (first_load : bool) (m : machine)
    (load_offset : Z) (data rest : bytes) :
  inflate (compressed_exe psf)
  = Some (le32 load_offset ++ le32 (len data) ++ data ++ rest) ->
  0 <= load_offset -> load_offset + len data <= kNDSRomMaxSize ->
  (first_load = false -> load_offset + len data <= len (rom m)) ->
  copy_program psf first_load m
  = (mkMachine (cwd m)
       (overlay data load_offset
          (if first_load then resize (load_offset + len data) (rom m)
           else rom m))
       (trace m ++ [Copied load_offset data]), Returned).
Proof.
  intros Hexe Hlo Hmax Hbound. pose proof (len_nonneg data).
  pose proof (len_nonneg rest). unfold kNDSRomMaxSize in Hmax.
  unfold copy_program. rewrite Hexe.
  rewrite !len_app. change (len (le32 _)) with 4.
  destruct (Z.ltb_spec (4 + (4 + (len data + len rest))) 8); [lia|].
  rewrite !ReadInt32L_le32 by lia.
  unfold ensure_rom, wrap32. rewrite !Z.mod_small by lia.
  destruct (Z.gtb_spec (load_offset + len data) kNDSRomMaxSize) as [Hgt|_];
    [unfold kNDSRomMaxSize in Hgt; lia|].
  destruct (Z.ltb_spec (4 + (4 + (len data + len rest))) (8 + len data));
    [lia|].
  rewrite len_app.
  destruct (Z.ltb_spec (len data + len rest) (len data)); [lia|].
  rewrite take_len_app.
  destruct first_load.
  - cbn [set_rom rom]. rewrite blit_overlay; [done|done|].
    rewrite len_resize; lia.
  - destruct (Z.gtb_spec (load_offset + len data) (len (rom m)));
      [specialize (Hbound eq_refl); lia|].
    rewrite blit_overlay by auto. done.
Qed.

(** The same step of the second listing. *)
Lemma read_program_places (psf : PSFFile) (first_load : bool) (m : machine)
    (load_offset : Z) (data rest : bytes) :
  zlib_reader (compressed_exe psf)
  = le32 load_offset ++ le32 (len data) ++ data ++ rest ->
  0 <= load_offset -> load_offset + len data <= kNDSRomMaxSize ->
  (first_load = false -> load_offset + len data <= len (rom m)) ->
  read_program psf first_load m
  = (mkMachine (cwd m)
       (overlay data load_offset
          (if first_load then resize (load_offset + len data) (rom m)
           else rom m))
       (trace m ++ [Copied load_offset data]), Returned).
Proof.
  intros Hexe Hlo Hmax Hbound. pose proof (len_nonneg data).
  unfold kNDSRomMaxSize in Hmax.
  unfold read_program. rewrite Hexe.
  rewrite !ReadInt32L_le32 by lia.
  unfold ensure_rom, wrap32. rewrite !Z.mod_small by lia.
  destruct (Z.gtb_spec (load_offset + len data) kNDSRomMaxSize) as [Hgt|_];
    [unfold kNDSRomMaxSize in Hgt; lia|].
  rewrite take_len_app.
  destruct first_load.
  - cbn [set_rom rom]. rewrite blit_overlay; [|done|rewrite len_resize; lia].
    by rewrite Z.eqb_refl.
  - destruct (Z.gtb_spec (load_offset + len data) (len (rom m)));
      [specialize (Hbound eq_refl); lia|].
    rewrite blit_overlay by auto. by rewrite Z.eqb_refl.
Qed.

Lemma overlay_fresh (data : bytes) (load_offset : Z) :
  0 <= load_offset ->
  overlay data load_offset (resize (load_offset + len data) [])
  = replicate (Z.to_nat load_offset) zero ++ data.
Proof.
  intros Hlo. pose proof (len_nonneg data).
  unfold overlay. rewrite resize_nil.
  rewrite take_replicate, drop_replicate.
  replace (Z.to_nat load_offset `min` Z.to_nat (load_offset + len data))%nat
    with (Z.to_nat load_offset) by lia.
  replace (Z.to_nat (load_offset + len data)
           - Z.to_nat (load_offset + len data))%nat with 0%nat by lia.
  by rewrite app_nil_r.
Qed.

(** The last step of the first listing on a program that fits the size limit
    and not the rom. *)
Lemma copy_program_out_of_bounds (psf : PSFFile) (m : machine)
    (load_offset : Z) (data rest : bytes) :
  inflate (compressed_exe psf)
  = Some (le32 load_offset ++ le32 (len data) ++ data ++ rest) ->
  0 <= load_offset -> load_offset + len data <= kNDSRomMaxSize ->
  len (rom m) < load_offset + len data ->
  copy_program psf false m = (m, Thrown OutOfBoundsError).
Proof.
  intros Hexe Hlo Hmax Hbound. pose proof (len_nonneg data).
  pose proof (len_nonneg rest). unfold kNDSRomMaxSize in Hmax.
  unfold copy_program. rewrite Hexe.
  rewrite !len_app. change (len (le32 _)) with 4.
  destruct (Z.ltb_spec (4 + (4 + (len data + len rest))) 8); [lia|].
  rewrite !ReadInt32L_le32 by lia.
  unfold ensure_rom, wrap32. rewrite !Z.mod_small by lia.
  destruct (Z.gtb_spec (load_offset + len data) kNDSRomMaxSize) as [Hgt|_];
    [unfold kNDSRomMaxSize in Hgt; lia|].
  by destruct (Z.gtb_spec (load_offset + len data) (len (rom m))); [|lia].
Qed.

(** A call of the second listing on a file without library references. *)
Lemma load_2sf_chdir_rec_leaf (fuel : nat) (filename : bytes) (l : Z)
    (first_load : bool) (m : machine) (psf : PSFFile) :
  l < kPSFLibMaxNestLevel ->
  is_Some (path_getabspath (cwd m) filename) ->
  PSFFile_open (cwd m) filename = inr psf -> crc32_ok psf = true ->
  tags psf !! str "_lib" = None ->
  load_2sf_chdir_rec (S fuel) filename l first_load m
  = Some (read_program psf first_load (log (Opened l (cwd m) filename) m)).
Proof.
  intros Hl [absolute_path Hpath] Hopen Hcrc Hnolib. cbn [load_2sf_chdir_rec].
  destruct (Z.geb_spec l kPSFLibMaxNestLevel); [lia|].
  rewrite Hpath, cwd_log, Hopen, Hcrc. cbn [negb]. by rewrite load_libs_none.
Qed.

End Placing.

(** X23.  A file without a [_lib] tag loads to its program alone: the
    declared bytes stand at the declared offset, zero bytes fill the rom
    before them, and what the decompressed stream holds behind the declared
    size is left out.  Both listings give this image. *)
Theorem single_file_image `{Collaborators} (dir filename : bytes)
    (psf : PSFFile) (load_offset : Z) (data rest : bytes) :
  PSFFile_open dir filename = inr psf -> crc32_ok psf = true ->
  tags psf !! str "_lib" = None ->
  0 <= load_offset -> load_offset + len data <= 128 * 1024 * 1024 ->
  (inflate (compressed_exe psf)
   = Some (le32 load_offset ++ le32 (len data) ++ data ++ rest) ->
   image (load dir filename)
   = Some (replicate (Z.to_nat load_offset) zero ++ data))
  /\ (zlib_reader (compressed_exe psf)
      = le32 load_offset ++ le32 (len data) ++ data ++ rest ->
      is_Some (path_getabspath dir filename) ->
      image (load_chdir dir filename)
      = Some (replicate (Z.to_nat load_offset) zero ++ data)).
Proof.
  intros Hopen Hcrc Hnolib Hlo Hmax. split.
  - intros Hexe. unfold load, load_2sf. change (depth_fuel 0) with 11%nat.
    rewrite (load_2sf_rec_leaf _ _ _ _ _ psf) by done.
    rewrite (copy_program_places psf true _ load_offset data rest) by done.
    cbn [image rom log initial]. by rewrite overlay_fresh.
  - intros Hexe Hpath.
    unfold load_chdir, load_2sf_chdir. change (depth_fuel 0) with 11%nat.
    rewrite (load_2sf_chdir_rec_leaf _ _ _ _ _ psf) by done.
    rewrite (read_program_places psf true _ load_offset data rest) by done.
    cbn [image rom log initial]. by rewrite overlay_fresh.
Qed.

(** X24.  The first program copied sizes the rom for the whole load.  A root
    whose program ends behind the end of its library's program is refused
    with the out-of-bounds error, though it fits the size limit, and no image
    comes out. *)
Theorem root_cannot_outgrow_library `{Collaborators} (dir root lib : bytes)
    (lib_offset : Z) (lib_data : bytes) (root_offset : Z) (root_data : bytes) :
  root_with_lib dir root lib lib_offset lib_data root_offset root_data ->
  0 <= lib_offset -> 0 <= root_offset ->
  lib_offset + len lib_data < root_offset + len root_data ->
  root_offset + len root_data <= 128 * 1024 * 1024 ->
  result (load dir root) = Some (Thrown OutOfBoundsError)
  /\ image (load dir root) = None.
Proof.
  intros (rpsf & lpsf & Hropen & Hrcrc & Hlib & Hlib2 & Hlopen & Hlcrc & Hnolib
          & Hlexe & Hrexe) Hlo Hro Hgrow Hmax.
  pose proof (len_nonneg lib_data). pose proof (len_nonneg root_data).
  unfold load, load_2sf. change (depth_fuel 0) with 11%nat.
  rewrite (load_2sf_rec_single _ _ lib _ _ _ rpsf) by done.
  rewrite (load_2sf_rec_leaf _ _ _ _ _ lpsf) by done.
  rewrite <- (app_nil_r lib_data) in Hlexe at 2.
  rewrite (copy_program_places lpsf true _ lib_offset lib_data []);
    [|done|done|unfold kNDSRomMaxSize; lia|done].
  rewrite <- (app_nil_r root_data) in Hrexe at 2.
  rewrite (copy_program_out_of_bounds rpsf _ root_offset root_data []);
    [done|done|done|done|].
  cbn [rom]. rewrite overlay_fresh by done.
  rewrite len_app, len_replicate by done. lia.
Qed.

Lemma root_cannot_outgrow_library_witness :
  @root_with_lib (disk short_lib_files) (str "/d") (str "root.2sf")
                 (str "lib.2sflib") 0 (byte_of <$> [202; 254])
                 0 (byte_of <$> [0; 1; 2; 3])
  /\ result (@load (disk short_lib_files) (str "/d") (str "root.2sf"))
     = Some (Thrown OutOfBoundsError)
  /\ image (@load (disk short_lib_files) (str "/d") (str "root.2sf")) = None.
Proof.
  assert (Hfiles : @root_with_lib (disk short_lib_files) (str "/d")
                     (str "root.2sf") (str "lib.2sflib")
                     0 (byte_of <$> [202; 254]) 0 (byte_of <$> [0; 1; 2; 3])).
  { destruct (@PSFFile_open (disk short_lib_files) (str "/d") (str "root.2sf"))
      as [e|rpsf] eqn:Hropen; [by vm_compute in Hropen|].
    destruct (@PSFFile_open (disk short_lib_files) (str "/d")
                (str "lib.2sflib"))
      as [e|lpsf] eqn:Hlopen; [by vm_compute in Hlopen|].
    exists rpsf, lpsf. split; [done|].
    vm_compute in Hropen. injection Hropen as <-.
    vm_compute in Hlopen. injection Hlopen as <-.
    repeat (split; [by vm_compute|]). by vm_compute. }
  split; [exact Hfiles|].
  apply (@root_cannot_outgrow_library (disk short_lib_files) (str "/d")
           (str "root.2sf") (str "lib.2sflib") _ _ _ _ Hfiles); by vm_compute.
Defined.

Lemma single_file_image_witness :
  image (@load (disk two_files) (str "/d") (str "lib.2sflib"))
  = Some (replicate (Z.to_nat 4) zero ++ (byte_of <$> [202; 254]))
  /\ image (@load_chdir (disk two_files) (str "/d") (str "lib.2sflib"))
     = Some (replicate (Z.to_nat 4) zero ++ (byte_of <$> [202; 254])).
Proof.
  destruct (@PSFFile_open (disk two_files) (str "/d") (str "lib.2sflib"))
    as [e|psf] eqn:Hopen; [by vm_compute in Hopen|].
  destruct (@single_file_image (disk two_files) (str "/d") (str "lib.2sflib")
              psf 4 (byte_of <$> [202; 254]) []) as [Hfirst Hsecond].
  - exact Hopen.
  - vm_compute in Hopen. injection Hopen as <-. by vm_compute.
  - vm_compute in Hopen. injection Hopen as <-. by vm_compute.
  - lia.
  - by vm_compute.
  - split; [apply Hfirst|apply Hsecond].
    + vm_compute in Hopen. injection Hopen as <-. by vm_compute.
    + vm_compute in Hopen. injection Hopen as <-. by vm_compute.
    + by eexists.
Defined.

(** ** The two listings side by side *)

Section Listings.
Context `{Collaborators}.

(** The last steps of the two listings return together, with the same
    machine, when the reader delivers what the decompressor yields. *)
Lemma copy_read_program (psf : PSFFile) (b : bool) (m m' : machine) :
  zlib_reader (compressed_exe psf) = default [] (inflate (compressed_exe psf)) ->
  copy_program psf b m = (m', Returned)
  <-> read_program psf b m = (m', Returned).
Proof.
  intros Hreader. unfold copy_program, read_program. rewrite Hreader.
  destruct (inflate (compressed_exe psf)) as [exe|]; [|by split].
  change (default [] (Some exe)) with exe.
  destruct (ReadInt32L exe) as [[load_offset it]|] eqn:Hlo.
  2:{ by split; destruct (len exe <? 8). }
  destruct (ReadInt32L it) as [[load_size stream]|] eqn:Hls.
  2:{ by split; destruct (len exe <? 8). }
  pose proof (ReadInt32L_range _ _ _ Hlo) as [_ Hlen1].
  pose proof (ReadInt32L_range _ _ _ Hls) as [Hls_range Hlen2].
  pose proof (len_nonneg stream).
  destruct (Z.ltb_spec (len exe) 8); [lia|].
  destruct (ensure_rom _ _ _ _) as [e|m1]; [by split|].
  pose proof (Z.mod_le (8 + load_size) (2 ^ 32)) as Hwrap.
  destruct (Z.ltb_spec (len exe) (wrap32 (8 + load_size))) as [Hshort|_].
  { destruct (blit _ _ _) as [r|]; [|by split].
    destruct (Z.eqb_spec (len (take (Z.to_nat load_size) stream)) load_size)
      as [Hfull|]; [|by split].
    unfold len in Hfull. rewrite length_take in Hfull.
    unfold wrap32, len in *. lia. }
  destruct (Z.ltb_spec (len stream) load_size) as [Hshort|Hfull].
  { destruct (blit _ _ _) as [r|]; [|by split].
    destruct (Z.eqb_spec (len (take (Z.to_nat load_size) stream)) load_size)
      as [Hfull|]; [|by split].
    unfold len in Hfull. rewrite length_take in Hfull. unfold len in *. lia. }
  destruct (blit _ _ _) as [r|]; [|by split].
  rewrite len_take by lia. by rewrite Z.eqb_refl.
Qed.

Lemma chdir_cwd (m : machine) : chdir (cwd m) m = m.
Proof. by destruct m. Qed.

(** Two loops over the library tags whose calls return together, on the
    libraries the tags refer to, return together. *)
Lemma load_libs_lockstep
    (call1 call2 : bytes -> bool -> machine -> option (machine * outcome))
    (tags : gmap bytes bytes) (I : machine -> Prop) :
  (forall i lib b m m', tags !! lib_tag_name i = Some lib -> I m ->
     (call1 lib b m = Some (m', Returned)
      <-> call2 lib b m = Some (m', Returned))) ->
  (forall i lib b m m', tags !! lib_tag_name i = Some lib -> I m ->
     call2 lib b m = Some (m', Returned) -> I m') ->
  forall rounds i b m m' b', I m ->
    load_libs call1 tags rounds i b m = Some (m', b', Returned)
    <-> load_libs call2 tags rounds i b m = Some (m', b', Returned).
Proof.
  intros Hcalls Hinv.
  induction rounds as [|rounds IH]; intros i b m m' b' HI; [done|].
  cbn [load_libs].
  destruct (tags !! lib_tag_name i) as [lib|] eqn:Hlib; [|done].
  pose proof (fun m' => Hcalls i lib b m m' Hlib HI) as Hboth.
  destruct (call1 lib b m) as [[m1 o1]|] eqn:Hc1;
    destruct (call2 lib b m) as [[m2 o2]|] eqn:Hc2.
  - destruct o1.
    + pose proof (proj1 (Hboth m1) eq_refl) as [= -> ->]. apply IH.
      by apply (Hinv i lib b m m1).
    + destruct o2; [|done..].
      by pose proof (proj2 (Hboth m2) eq_refl) as [=].
    + destruct o2; [|done..].
      by pose proof (proj2 (Hboth m2) eq_refl) as [=].
  - destruct o1; [|done..]. by pose proof (proj1 (Hboth m1) eq_refl) as [=].
  - destruct o2; [|done..]. by pose proof (proj2 (Hboth m2) eq_refl) as [=].
  - done.
Qed.

(** With every file of the set [F] in the directory [dir], the set closed
    under the library references, a call of the second listing returns
    exactly when the call of the first does, with the same machine. *)
Lemma listings_return_together (F : bytes -> Prop) (dir : bytes) :
  (forall f, F f ->
     exists p, path_getabspath dir f = Some p /\ path_dirname p = dir) ->
  (forall f psf i lib, F f -> PSFFile_open dir f = inr psf ->
     tags psf !! lib_tag_name i = Some lib -> F lib) ->
  (forall data, zlib_reader data = default [] (inflate data)) ->
  forall fuel filename l b m m',
    F filename -> cwd m = dir ->
    load_2sf_chdir_rec fuel filename l b m = Some (m', Returned)
    <-> load_2sf_rec fuel filename l b m = Some (m', Returned).
Proof.
  intros Hflat Hclosed Hreader.
  induction fuel as [|fuel IH]; intros filename l b m m' Hin Hcwd; [done|].
  cbn [load_2sf_chdir_rec load_2sf_rec].
  destruct (l >=? kPSFLibMaxNestLevel); [done|].
  rewrite cwd_log, Hcwd.
  destruct (Hflat _ Hin) as (p & Hp & Hdir). rewrite Hp, Hdir.
  destruct (PSFFile_open dir filename) as [e|psf] eqn:Hopen; [done|].
  destruct (negb (crc32_ok psf)); [done|].
  pose proof (load_libs_lockstep
    (fun lib first_load =>
       in_directory dir dir (load_2sf_chdir_rec fuel lib (l + 1) first_load))
    (fun lib => load_2sf_rec fuel lib (l + 1))
    (tags psf) (fun m => cwd m = dir)) as Hloop.
  assert (Hlibs : forall m' b',
    load_libs
      (fun lib first_load =>
         in_directory dir dir (load_2sf_chdir_rec fuel lib (l + 1) first_load))
      (tags psf) (S (size (tags psf))) 1 b
      (log (Opened l dir filename) m) = Some (m', b', Returned)
    <-> load_libs (fun lib => load_2sf_rec fuel lib (l + 1))
      (tags psf) (S (size (tags psf))) 1 b
      (log (Opened l dir filename) m) = Some (m', b', Returned)).
  { intros m1 b1. apply Hloop; [| |by rewrite cwd_log].
    - intros i lib b2 m2 m3 Hlib Hm2.
      pose proof (Hclosed _ _ _ _ Hin Hopen Hlib) as Hlibin.
      unfold in_directory. rewrite <- Hm2, chdir_cwd.
      pose proof (fun m' => IH lib (l + 1) b2 m2 m' Hlibin Hm2) as Hboth.
      split.
      + destruct (load_2sf_chdir_rec _ _ _ _ _) as [[m4 o4]|]; [|done].
        destruct o4; [|done..]. intros [= <-].
        pose proof (proj1 (Hboth m4) eq_refl) as Hrec.
        apply load_2sf_rec_opened in Hrec as Hkept. destruct Hkept as [<- _].
        by rewrite chdir_cwd.
      + intros Hrec. apply load_2sf_rec_opened in Hrec as Hkept.
        destruct Hkept as [Hkept _].
        apply Hboth in Hrec as ->. by rewrite <- Hkept, chdir_cwd.
    - intros i lib b2 m2 m3 _ Hm2 Hrec.
      apply load_2sf_rec_opened in Hrec as [-> _]. done. }
  split; intros Hrun.
  - destruct (load_libs _ _ _ _ _ _) as [[[m1 b1] o1]|] eqn:H1 in Hrun;
      [|done].
    destruct o1; [|done..]. apply Hlibs in H1. rewrite H1.
    injection Hrun as Hrun. f_equal.
    by apply (copy_read_program psf b1 m1 m' (Hreader _)).
  - destruct (load_libs _ _ _ _ _ _) as [[[m1 b1] o1]|] eqn:H1 in Hrun;
      [|done].
    destruct o1; [|done..]. apply Hlibs in H1. rewrite H1.
    injection Hrun as Hrun. f_equal.
    by apply (copy_read_program psf b1 m1 m' (Hreader _)).
Qed.

End Listings.

(** X25.  The two listings give the same image when the root and every
    library it reaches lie in the directory of the call, the reader of the
    second listing delivering the bytes the decompressor of the first
    yields: a load returns in one exactly when it returns in the other. *)
Theorem listings_agree_in_one_directory `{Collaborators} (F : bytes -> Prop)
    (dir filename : bytes) :
  F filename ->
  (forall f, F f ->
     exists p, path_getabspath dir f = Some p /\ path_dirname p = dir) ->
  (forall f psf i lib, F f -> PSFFile_open dir f = inr psf ->
     tags psf !! lib_tag_name i = Some lib -> F lib) ->
  (forall data, zlib_reader data = default [] (inflate data)) ->
  image (load_chdir dir filename) = image (load dir filename).
Proof.
  intros Hin Hflat Hclosed Hreader.
  pose proof (fun m' =>
    listings_return_together F dir Hflat Hclosed Hreader (depth_fuel 0)
      filename 0 true (initial dir) m' Hin eq_refl) as Hboth.
  unfold load_chdir, load, load_2sf_chdir, load_2sf, image.
  destruct (load_2sf_chdir_rec _ _ _ _ _) as [[m1 o1]|] eqn:H1;
    destruct (load_2sf_rec _ _ _ _ _) as [[m2 o2]|] eqn:H2.
  - destruct o1.
    + by pose proof (proj1 (Hboth m1) eq_refl) as [= -> ->].
    + destruct o2; [|done..]. by pose proof (proj2 (Hboth m2) eq_refl) as [=].
    + destruct o2; [|done..]. by pose proof (proj2 (Hboth m2) eq_refl) as [=].
  - destruct o1; [|done..]. by pose proof (proj1 (Hboth m1) eq_refl) as [=].
  - destruct o2; [|done..]. by pose proof (proj2 (Hboth m2) eq_refl) as [=].
  - done.
Qed.


Lemma listings_agree_in_one_directory_witness :
  image (@load_chdir (disk two_files) (str "/d") (str "root.2sf"))
  = image (@load (disk two_files) (str "/d") (str "root.2sf"))
  /\ image (@load (disk two_files) (str "/d") (str "root.2sf"))
     = Some (map byte_of [0; 1; 2; 3; 202; 254]).
Proof.
  split; [|by vm_compute].
  apply (@listings_agree_in_one_directory (disk two_files)
           (fun f => f = str "root.2sf" \/ f = str "lib.2sflib")).
  - by left.
  - intros f [->| ->]; eexists; split; by vm_compute.
  - intros f psf i lib [->| ->] Hopen Hlib; vm_compute in Hopen;
      injection Hopen as <-.
    + right.
      change (({[ str "_lib" := str "lib.2sflib" ]} : gmap bytes bytes)
                !! lib_tag_name i = Some lib) in Hlib.
      by apply lookup_singleton_Some in Hlib as [_ <-].
    + change ((∅ : gmap bytes bytes) !! lib_tag_name i = Some lib) in Hlib.
      by rewrite lookup_empty in Hlib.
  - done.
Defined.
